(** * AV1 entropy model and self-guided restoration filter

    A shallow embedding of

    - [av1/common/entropy.h]: [av1_get_cat6_extrabits_size],
      [combine_entropy_contexts], [get_entropy_context];
    - [av1/encoder/cost.c]: the table [av1_prob_cost] and
      [av1_cost_tokens_from_cdf];
    - [av1/common/x86/selfguided_avx2.c]: the AVX2 kernels of the
      self-guided restoration filter.

    Integers of the C code are [Z]; every fixed-width operation has its
    wrap-around written out.  An [__m256i] register is a record of eight
    32-bit lanes, and an [int32_t] buffer is a function from element
    offsets to lanes, so that the pointer arithmetic of the kernels
    (negative offsets included) reads as in the source. *)

From Stdlib Require Import ZArith List Lia Bool Permutation.
From stdpp Require Import base option list.
From coqutil Require Import Byte Word.LittleEndianList Z.PushPullMod.

Local Open Scope Z_scope.

(** ** Part I.  The code *)

(** *** entropy.h *)

Module Entropy.

(** The transform sizes named by the [switch] of [get_entropy_context]
    (the build with [CONFIG_TX64X64]).  A value outside of the enumeration
    reaches [default: assert(0)] in the source and has no counterpart
    here. *)
Inductive TX_SIZE : Set :=
| TX_4X4 | TX_8X8 | TX_16X16 | TX_32X32 | TX_64X64
| TX_4X8 | TX_8X4 | TX_8X16 | TX_16X8 | TX_16X32 | TX_32X16
| TX_32X64 | TX_64X32
| TX_4X16 | TX_16X4 | TX_8X32 | TX_32X8 | TX_16X64 | TX_64X16.

Definition all_tx_sizes : list TX_SIZE :=
  [TX_4X4; TX_8X8; TX_16X16; TX_32X32; TX_64X64;
   TX_4X8; TX_8X4; TX_8X16; TX_16X8; TX_16X32; TX_32X16;
   TX_32X64; TX_64X32;
   TX_4X16; TX_16X4; TX_8X32; TX_32X8; TX_16X64; TX_64X16].

(** Width and height in pixels, as the names of the sizes spell them. *)
Definition tx_size_wide (t : TX_SIZE) : Z :=
  match t with
  | TX_4X4 | TX_4X8 | TX_4X16 => 4
  | TX_8X8 | TX_8X4 | TX_8X16 | TX_8X32 => 8
  | TX_16X16 | TX_16X8 | TX_16X32 | TX_16X4 | TX_16X64 => 16
  | TX_32X32 | TX_32X16 | TX_32X64 | TX_32X8 => 32
  | TX_64X64 | TX_64X32 | TX_64X16 => 64
  end.

Definition tx_size_high (t : TX_SIZE) : Z :=
  match t with
  | TX_4X4 | TX_8X4 | TX_16X4 => 4
  | TX_8X8 | TX_4X8 | TX_16X8 | TX_32X8 => 8
  | TX_16X16 | TX_8X16 | TX_32X16 | TX_4X16 | TX_64X16 => 16
  | TX_32X32 | TX_16X32 | TX_64X32 | TX_8X32 => 32
  | TX_64X64 | TX_32X64 | TX_16X64 => 64
  end.

(** Modelled from the spec: the numbering of the [TX_SIZE] enumeration is
    declared in [av1/common/enums.h], which is not among the sources.  The
    square sizes are numbered in growing order from [TX_4X4], the
    rectangular ones follow; [av1_get_cat6_extrabits_size] only ever
    compares and subtracts codes of square sizes. *)
Definition tx_code (t : TX_SIZE) : Z :=
  match t with
  | TX_4X4 => 0 | TX_8X8 => 1 | TX_16X16 => 2 | TX_32X32 => 3 | TX_64X64 => 4
  | TX_4X8 => 5 | TX_8X4 => 6 | TX_8X16 => 7 | TX_16X8 => 8
  | TX_16X32 => 9 | TX_32X16 => 10 | TX_32X64 => 11 | TX_64X32 => 12
  | TX_4X16 => 13 | TX_16X4 => 14 | TX_8X32 => 15 | TX_32X8 => 16
  | TX_16X64 => 17 | TX_64X16 => 18
  end.

(** Modelled from the spec: the table [txsize_sqr_up_map] is defined in
    [av1/common/common_data.h], which is not among the sources.  It sends a
    transform size to the square size of its longer side. *)
Definition txsize_sqr_up_map (t : TX_SIZE) : TX_SIZE :=
  match Z.max (tx_size_wide t) (tx_size_high t) with
  | 4 => TX_4X4
  | 8 => TX_8X8
  | 16 => TX_16X16
  | 32 => TX_32X32
  | _ => TX_64X64
  end.

(** [aom_bit_depth_t]: the three bit depths of the codec. *)
Inductive aom_bit_depth_t : Set := AOM_BITS_8 | AOM_BITS_10 | AOM_BITS_12.

Definition bit_depth_val (b : aom_bit_depth_t) : Z :=
  match b with AOM_BITS_8 => 8 | AOM_BITS_10 => 10 | AOM_BITS_12 => 12 end.

(** The macro [AOMMIN(x, y)]: [((x) < (y)) ? (x) : (y)]. *)
Definition AOMMIN (x y : Z) : Z := if x <? y then x else y.

Definition CAT6_BIT_SIZE : Z := 18.

(** The sum [bit_depth + 3 + tx_offset] before it is rounded. *)
Definition cat6_raw_bits (tx_size : TX_SIZE) (bit_depth : aom_bit_depth_t) : Z :=
  let tx_size := txsize_sqr_up_map tx_size in
  let tx_size :=
    if tx_code tx_size >? tx_code TX_32X32 then TX_32X32 else tx_size in
  let tx_offset := tx_code tx_size - tx_code TX_4X4 in
  bit_depth_val bit_depth + 3 + tx_offset.

Definition av1_get_cat6_extrabits_size
  (tx_size : TX_SIZE) (bit_depth : aom_bit_depth_t) : Z :=
  let bits := cat6_raw_bits tx_size bit_depth in
  (* Round up *)
  let bits := AOMMIN CAT6_BIT_SIZE (Z.land (bits + 3) (Z.lnot 3)) in
  bits.

(** [typedef char ENTROPY_CONTEXT]: one byte per 4-pixel unit. *)
Definition ENTROPY_CONTEXT : Set := Init.Byte.byte.

(** The C truth value of [x != 0] (and of [!!x]). *)
Definition c_nonzero (x : Z) : Z := if x =? 0 then 0 else 1.

Definition combine_entropy_contexts (a b : Z) : Z :=
  c_nonzero a + c_nonzero b.

(** [*(const uintN_t * )p]: a read of [n] bytes at [p], little endian as on
    x86; [None] when the read leaves the buffer. *)
Definition load_le (n : nat) (p : list ENTROPY_CONTEXT) : option Z :=
  if decide (n ≤ length p)%nat then Some (le_combine (firstn n p)) else None.

Definition load_u8 := load_le 1.
Definition load_u16 := load_le 2.
Definition load_u32 := load_le 4.
Definition load_u64 := load_le 8.

(** [!!( *(const uint64_t * )p | *(const uint64_t * )(p + 8))]. *)
Definition load_u64x2 (p : list ENTROPY_CONTEXT) : option Z :=
  x ← load_u64 p; y ← load_u64 (skipn 8 p); Some (Z.lor x y).

Definition get_entropy_context
  (tx_size : TX_SIZE) (a l : list ENTROPY_CONTEXT) : option Z :=
  let ctx (ra rl : list ENTROPY_CONTEXT → option Z) : option Z :=
    above ← ra a; left ← rl l;
    let above_ec := c_nonzero above in
    let left_ec := c_nonzero left in
    Some (combine_entropy_contexts above_ec left_ec) in
  match tx_size with
  | TX_4X4 => ctx load_u8 load_u8
  | TX_4X8 => ctx load_u8 load_u16
  | TX_8X4 => ctx load_u16 load_u8
  | TX_8X16 => ctx load_u16 load_u32
  | TX_16X8 => ctx load_u32 load_u16
  | TX_16X32 => ctx load_u32 load_u64
  | TX_32X16 => ctx load_u64 load_u32
  | TX_8X8 => ctx load_u16 load_u16
  | TX_16X16 => ctx load_u32 load_u32
  | TX_32X32 => ctx load_u64 load_u64
  | TX_64X64 => ctx load_u64x2 load_u64x2
  | TX_32X64 => ctx load_u64 load_u64x2
  | TX_64X32 => ctx load_u64x2 load_u64
  | TX_4X16 => ctx load_u8 load_u32
  | TX_16X4 => ctx load_u32 load_u8
  | TX_8X32 => ctx load_u16 load_u64
  | TX_32X8 => ctx load_u64 load_u16
  | TX_16X64 => ctx load_u32 load_u64x2
  | TX_64X16 => ctx load_u64x2 load_u32
  end.

(** The longer side of a transform, the measure of its size. *)
Definition tx_longer_side (t : TX_SIZE) : Z := Z.max (tx_size_wide t) (tx_size_high t).

Definition b2z (b : bool) : Z := if b then 1 else 0.

(** The number of context bytes a transform covers along each side: one
    per four pixels. *)
Definition tx_size_wide_unit (t : TX_SIZE) : nat := Z.to_nat (tx_size_wide t / 4).
Definition tx_size_high_unit (t : TX_SIZE) : nat := Z.to_nat (tx_size_high t / 4).

(** A context window is non-zero when one of its bytes is. *)
Definition window_nonzero (n : nat) (p : list ENTROPY_CONTEXT) : bool :=
  existsb (fun b => negb (byte.unsigned b =? 0)) (firstn n p).

(** Modelled from the spec: [av1_average_tile_coef_cdfs] and its siblings
    ([av1_average_tile_mv_cdfs], ...) are only declared in [entropy.h]; their
    bodies are not among the sources.  The spec describes the aggregation as
    combining, per context and across tiles, the per-tile CDFs and the
    symbol counts that produced them into one frame-level CDF, by
    count-weighted averaging.  The tiles are visited in the order they are
    presented; each adds its count-weighted CDF entries to a running sum
    and its count to a running total, and the merged entry is the quotient
    (C integer division, truncating; the values are non-negative). *)
Record tile_cdf : Set := { tile_values : list Z; tile_count : Z }.

Definition tile_entry (t : tile_cdf) (i : nat) : Z := nth i (tile_values t) 0.

Definition accumulate_tile (i : nat) (acc : Z * Z) (t : tile_cdf) : Z * Z :=
  (fst acc + tile_count t * tile_entry t i, snd acc + tile_count t).

Definition average_tile_entry (tiles : list tile_cdf) (i : nat) : Z :=
  let '(sum, total) := fold_left (accumulate_tile i) tiles (0, 0) in
  Z.quot sum total.

Definition av1_average_tile_cdfs (cdf_size : nat) (tiles : list tile_cdf) : list Z :=
  map (average_tile_entry tiles) (seq 0 cdf_size).

(** The two running sums after all tiles, in closed form. *)
Fixpoint weighted_total (i : nat) (tiles : list tile_cdf) : Z :=
  match tiles with
  | [] => 0
  | t :: rest => tile_count t * tile_entry t i + weighted_total i rest
  end.

Fixpoint count_total (tiles : list tile_cdf) : Z :=
  match tiles with
  | [] => 0
  | t :: rest => tile_count t + count_total rest
  end.

(** The transform of the transposed block: width and height exchanged. *)
Definition tx_transpose (t : TX_SIZE) : TX_SIZE :=
  match t with
  | TX_4X8 => TX_8X4 | TX_8X4 => TX_4X8
  | TX_8X16 => TX_16X8 | TX_16X8 => TX_8X16
  | TX_16X32 => TX_32X16 | TX_32X16 => TX_16X32
  | TX_32X64 => TX_64X32 | TX_64X32 => TX_32X64
  | TX_4X16 => TX_16X4 | TX_16X4 => TX_4X16
  | TX_8X32 => TX_32X8 | TX_32X8 => TX_8X32
  | TX_16X64 => TX_64X16 | TX_64X16 => TX_16X64
  | TX_4X4 | TX_8X8 | TX_16X16 | TX_32X32 | TX_64X64 => t
  end.

End Entropy.

(** *** cost.c *)

Module Cost.

(** [round(-log2(i/256.) * (1 << AV1_PROB_COST_SHIFT))]; begins with a bogus
    entry for simpler addressing. *)
Definition av1_prob_cost : list Z :=
  [ 4096; 4096; 3584; 3284; 3072; 2907; 2772; 2659; 2560; 2473; 2395; 2325; 2260;
    2201; 2147; 2096; 2048; 2003; 1961; 1921; 1883; 1847; 1813; 1780; 1748; 1718;
    1689; 1661; 1635; 1609; 1584; 1559; 1536; 1513; 1491; 1470; 1449; 1429; 1409;
    1390; 1371; 1353; 1335; 1318; 1301; 1284; 1268; 1252; 1236; 1221; 1206; 1192;
    1177; 1163; 1149; 1136; 1123; 1110; 1097; 1084; 1072; 1059; 1047; 1036; 1024;
    1013; 1001; 990;  979;  968;  958;  947;  937;  927;  917;  907;  897;  887;
    878;  868;  859;  850;  841;  832;  823;  814;  806;  797;  789;  780;  772;
    764;  756;  748;  740;  732;  724;  717;  709;  702;  694;  687;  680;  673;
    665;  658;  651;  644;  637;  631;  624;  617;  611;  604;  598;  591;  585;
    578;  572;  566;  560;  554;  547;  541;  535;  530;  524;  518;  512;  506;
    501;  495;  489;  484;  478;  473;  467;  462;  456;  451;  446;  441;  435;
    430;  425;  420;  415;  410;  405;  400;  395;  390;  385;  380;  375;  371;
    366;  361;  356;  352;  347;  343;  338;  333;  329;  324;  320;  316;  311;
    307;  302;  298;  294;  289;  285;  281;  277;  273;  268;  264;  260;  256;
    252;  248;  244;  240;  236;  232;  228;  224;  220;  216;  212;  209;  205;
    201;  197;  194;  190;  186;  182;  179;  175;  171;  168;  164;  161;  157;
    153;  150;  146;  143;  139;  136;  132;  129;  125;  122;  119;  115;  112;
    109;  105;  102;  99;   95;   92;   89;   86;   82;   79;   76;   73;   70;
    66;   63;   60;   57;   54;   51;   48;   45;   42;   38;   35;   32;   29;
    26;   23;   20;   18;   15;   12;   9;    6;    3 ].

(** Conversion to [aom_cdf_prob], a [uint16_t]. *)
Definition to_cdf_prob (x : Z) : Z := x mod 2 ^ 16.

(** [costs[idx] = v], undefined outside of the array. *)
Definition store_cost (costs : list Z) (idx v : Z) : option (list Z) :=
  if decide (0 ≤ idx < Z.of_nat (length costs))
  then Some (<[Z.to_nat idx := v]> costs) else None.

(** What one call leaves behind: the cost array, and next to it the writes
    in the order they were made, as pairs (index, value). *)
Record cost_result : Set := { res_costs : list Z; res_writes : list (Z * Z) }.

Section TokensFromCdf.

(** The macros [AOM_ICDF], [CDF_PROB_TOP] and [EC_MIN_PROB] come from the
    [aom_dsp] headers and [av1_cost_symbol] from [av1/encoder/cost.h]; none
    of them is among the sources, so the walk takes them as parameters. *)
Variable AOM_ICDF : Z → Z.
Variable CDF_PROB_TOP : Z.
Variable EC_MIN_PROB : Z.
Variable av1_cost_symbol : Z → Z.

(** The clamped probability mass of one step: [p15] of the source. *)
Definition clamped_mass (icdf prev_cdf : Z) : Z :=
  let p15 := to_cdf_prob (icdf - prev_cdf) in
  if p15 <? EC_MIN_PROB then EC_MIN_PROB else p15.

(** The body of [for (i = 0;; ++i)].  The list [cdf] is the array from
    [cdf[i]] on, so that its head is [cdf[i]]; running off its end is the
    read past the array that the source does when no sentinel stops it. *)
Fixpoint cost_tokens_loop (cdf : list Z) (i : nat) (prev_cdf : Z)
  (inv_map : option (list Z)) (costs : list Z) (writes : list (Z * Z))
  : option cost_result :=
  match cdf with
  | [] => None
  | cdf_i :: rest =>
      let p15 := clamped_mass (AOM_ICDF cdf_i) prev_cdf in
      let prev_cdf := to_cdf_prob (AOM_ICDF cdf_i) in
      idx ← match inv_map with
            | Some m => m !! i
            | None => Some (Z.of_nat i)
            end;
      costs ← store_cost costs idx (av1_cost_symbol p15);
      let writes := writes ++ [(idx, av1_cost_symbol p15)] in
      (* Stop once we reach the end of the CDF *)
      if cdf_i =? AOM_ICDF CDF_PROB_TOP
      then Some {| res_costs := costs; res_writes := writes |}
      else cost_tokens_loop rest (S i) prev_cdf inv_map costs writes
  end.

Definition av1_cost_tokens_from_cdf
  (costs : list Z) (cdf : list Z) (inv_map : option (list Z))
  : option cost_result :=
  cost_tokens_loop cdf 0 0 inv_map costs [].

(** The inverse cumulative value before symbol [i]; zero before the first. *)
Definition icdf_before (cdf : list Z) (i : nat) : Z :=
  match i with
  | O => 0
  | S j => AOM_ICDF (nth j cdf 0)
  end.

(** The probability mass of symbol [i], floored at [EC_MIN_PROB]. *)
Definition symbol_mass (cdf : list Z) (i : nat) : Z :=
  Z.max EC_MIN_PROB (AOM_ICDF (nth i cdf 0) - icdf_before cdf i).

(** Where the cost of symbol [i] goes. *)
Definition cost_index (inv_map : option (list Z)) (i : nat) : Z :=
  match inv_map with
  | Some m => nth i m 0
  | None => Z.of_nat i
  end.

(** The write that symbol [i] causes, and the array after a list of
    writes. *)
Definition symbol_write (cdf : list Z) (inv_map : option (list Z)) (i : nat) : Z * Z :=
  (cost_index inv_map i, av1_cost_symbol (symbol_mass cdf i)).

Definition apply_writes (costs : list Z) (writes : list (Z * Z)) : list Z :=
  fold_left (fun c w => <[Z.to_nat (fst w) := snd w]> c) writes costs.

(** The writes of symbols 0..[k] stay inside the cost array (and inside
    the inverse map when there is one). *)
Definition writes_in_bounds (costs : list Z) (inv_map : option (list Z)) (k : nat) : Prop :=
  (∀ m, inv_map = Some m → (k < length m)%nat) ∧
  (∀ i, (i ≤ k)%nat → 0 ≤ cost_index inv_map i < Z.of_nat (length costs)).

(** A CDF array with its sentinel at index [k]: the inverse cumulative
    values do not decrease, reach [CDF_PROB_TOP] at [k] and not before. *)
Definition cdf_ends_at (cdf : list Z) (k : nat) : Prop :=
  (k < length cdf)%nat ∧
  AOM_ICDF (nth k cdf 0) = CDF_PROB_TOP ∧
  (∀ i, (i < k)%nat → AOM_ICDF (nth i cdf 0) ≠ CDF_PROB_TOP) ∧
  (∀ i, (i ≤ k)%nat → icdf_before cdf i ≤ AOM_ICDF (nth i cdf 0)).

End TokensFromCdf.

(** **** The walk on any array *)

Section TokensFromAnyArray.

Variable AOM_ICDF : Z → Z.
Variable CDF_PROB_TOP : Z.
Variable EC_MIN_PROB : Z.
Variable av1_cost_symbol : Z → Z.

(** The test that ends the loop, [cdf[i] == AOM_ICDF(CDF_PROB_TOP)], holds
    at index [k] and at no index before. *)
Definition first_sentinel_at (cdf : list Z) (k : nat) : Prop :=
  (k < length cdf)%nat ∧
  nth k cdf 0 = AOM_ICDF CDF_PROB_TOP ∧
  (∀ i, (i < k)%nat → nth i cdf 0 ≠ AOM_ICDF CDF_PROB_TOP).

(** The value of [p15] for symbol [i] of any array: the difference of two
    successive inverse values as an [aom_cdf_prob], floored. *)
Definition walked_mass (cdf : list Z) (i : nat) : Z :=
  Z.max EC_MIN_PROB
        (to_cdf_prob (AOM_ICDF (nth i cdf 0) - icdf_before AOM_ICDF cdf i)).

Definition walked_cost (cdf : list Z) (i : nat) : Z :=
  av1_cost_symbol (walked_mass cdf i).

Definition walked_write (cdf : list Z) (inv_map : option (list Z)) (i : nat) : Z * Z :=
  (cost_index inv_map i, walked_cost cdf i).

End TokensFromAnyArray.

(** Modelled from the spec: [AOM_ICDF] and [CDF_PROB_TOP] are macros of
    [aom_dsp/prob.h] and [EC_MIN_PROB] one of [aom_dsp/entcode.h]; the
    headers are not among the sources.  The spec calls the stored values
    inverse-scaled 15-bit cumulative probabilities ending in the maximum
    value, and the floor a small positive minimum. *)
Definition CDF_PROB_BITS : Z := 15.
Definition CDF_PROB_TOP : Z := 2 ^ CDF_PROB_BITS.
Definition AOM_ICDF (x : Z) : Z := CDF_PROB_TOP - x.
Definition EC_MIN_PROB : Z := 4.

(** Modelled from the spec: [av1_cost_symbol] and its helpers are defined in
    [av1/encoder/cost.h] and [aom_dsp/prob.h], which are not among the
    sources.  The spec has the clamped probability converted to a cost by
    table lookup, the cost being [-log2(p)] in units of
    [2^-AV1_PROB_COST_SHIFT] bits, and the table maps an 8-bit binary
    probability to its cost.  So the 15-bit probability is normalised into
    the upper half of the range by a left shift, every position shifted
    costs one whole bit, and the normalised probability, rounded to 8 bits
    and clipped to [1, 255], indexes the table. *)
Definition AV1_PROB_COST_SHIFT : Z := 9.

Definition get_msb (n : Z) : Z := Z.log2 n.

Definition clip_prob (p : Z) : Z :=
  if p >? 255 then 255 else if p <? 1 then 1 else p.

Definition get_prob (num den : Z) : Z :=
  clip_prob ((num * 256 + Z.shiftr den 1) / den).

Definition av1_cost_zero (prob : Z) : Z := nth (Z.to_nat prob) av1_prob_cost 0.

Definition av1_cost_literal (n : Z) : Z := n * Z.shiftl 1 AV1_PROB_COST_SHIFT.

Definition av1_cost_symbol (p15 : Z) : Z :=
  let shift := CDF_PROB_BITS - 1 - get_msb p15 in
  av1_cost_zero (get_prob (Z.shiftl p15 shift) CDF_PROB_TOP)
  + av1_cost_literal shift.

(** [check p && check (p + 1) && ...], [fuel] values from [p] on. *)
Fixpoint all_from (fuel : nat) (p : Z) (check : Z → bool) : bool :=
  match fuel with
  | O => true
  | S fuel' => check p && all_from fuel' (p + 1) check
  end.

(** The cost the walk produced for symbol [i]: the value of its write. *)
Definition produced_cost (r : cost_result) (i : nat) : Z :=
  snd (nth i (res_writes r) (0, 0)).

(** **** The table against its formula

    An enclosure [(lo, hi, e)] of a number [x] says
    [lo * 2^e ≤ x ≤ hi * 2^e].  Squaring an enclosure squares both ends
    and drops the low bits beyond 128, rounding [lo] down and [hi] up. *)
Definition encloses (s : Z * Z * Z) (x : Z) : Prop :=
  let '(lo, hi, e) := s in
  0 ≤ lo ∧ 0 ≤ e ∧ lo * 2 ^ e ≤ x ≤ hi * 2 ^ e.

Definition sq_enclosure (s : Z * Z * Z) : Z * Z * Z :=
  let '(lo, hi, e) := s in
  let t := Z.max 0 (Z.log2 (hi * hi) - 127) in
  (Z.shiftr (lo * lo) t, Z.shiftr (hi * hi + Z.shiftl 1 t - 1) t, 2 * e + t).

(** Whether [c] is [512 * log2(256 / i)] rounded to the nearest integer,
    decided on an enclosure of [i ^ 1024]. *)
Definition rounds_log2 (i c : Z) : bool :=
  let '(lo, hi, e) := Nat.iter 10 sq_enclosure (i, i, 0) in
  (1 <=? c)
  && (Z.shiftl hi (e + (2 * c - 1)) <=? Z.shiftl 1 8192)
  && (Z.shiftl 1 8192 <=? Z.shiftl lo (e + (2 * c + 1))).

End Cost.

(** *** selfguided_avx2.c *)

Module Sgr.

(** **** Lanes and registers *)

(** The bit pattern of a 32-bit lane, and the [int32_t] it stands for. *)
Definition wrap32 (x : Z) : Z := x mod 2 ^ 32.
Definition signed32 (x : Z) : Z :=
  let y := wrap32 x in if y <? 2 ^ 31 then y else y - 2 ^ 32.

(** The same for the 16-bit halves and the bytes of a lane. *)
Definition wrap16 (x : Z) : Z := x mod 2 ^ 16.
Definition signed16 (x : Z) : Z :=
  let y := wrap16 x in if y <? 2 ^ 15 then y else y - 2 ^ 16.
Definition wrap8 (x : Z) : Z := x mod 2 ^ 8.

(** The two halves of a lane, and the lane of two halves. *)
Definition lo16 (x : Z) : Z := wrap16 x.
Definition hi16 (x : Z) : Z := wrap32 x / 2 ^ 16.
Definition pack16 (lo hi : Z) : Z := wrap16 lo + 2 ^ 16 * wrap16 hi.

(** Byte [t] (0..3) of a lane and the lane of four bytes. *)
Definition byte_of (x : Z) (t : Z) : Z := wrap8 (wrap32 x / 2 ^ (8 * t)).
Definition pack8 (b0 b1 b2 b3 : Z) : Z :=
  wrap8 b0 + 2 ^ 8 * wrap8 b1 + 2 ^ 16 * wrap8 b2 + 2 ^ 24 * wrap8 b3.

(** [__m256i]: eight 32-bit lanes, lane 0 the least significant;
    [__m128i]: four. *)
Record m256i : Set := mk256 { ln0 : Z; ln1 : Z; ln2 : Z; ln3 : Z;
                              ln4 : Z; ln5 : Z; ln6 : Z; ln7 : Z }.
Record m128i : Set := mk128 { qn0 : Z; qn1 : Z; qn2 : Z; qn3 : Z }.

Definition lane (v : m256i) (k : Z) : Z :=
  match k with
  | 0 => ln0 v | 1 => ln1 v | 2 => ln2 v | 3 => ln3 v
  | 4 => ln4 v | 5 => ln5 v | 6 => ln6 v | _ => ln7 v
  end.

Definition lane128 (v : m128i) (k : Z) : Z :=
  match k with 0 => qn0 v | 1 => qn1 v | 2 => qn2 v | _ => qn3 v end.

Definition map256 (f : Z → Z) (a : m256i) : m256i :=
  mk256 (f (ln0 a)) (f (ln1 a)) (f (ln2 a)) (f (ln3 a))
        (f (ln4 a)) (f (ln5 a)) (f (ln6 a)) (f (ln7 a)).

Definition zip256 (f : Z → Z → Z) (a b : m256i) : m256i :=
  mk256 (f (ln0 a) (ln0 b)) (f (ln1 a) (ln1 b)) (f (ln2 a) (ln2 b)) (f (ln3 a) (ln3 b))
        (f (ln4 a) (ln4 b)) (f (ln5 a) (ln5 b)) (f (ln6 a) (ln6 b)) (f (ln7 a) (ln7 b)).

(** **** The intrinsics the kernels use *)

Definition _mm256_setzero_si256 : m256i := mk256 0 0 0 0 0 0 0 0.
Definition _mm256_set1_epi32 (a : Z) : m256i :=
  let a := wrap32 a in mk256 a a a a a a a a.
Definition _mm_set1_epi32 (a : Z) : m128i :=
  let a := wrap32 a in mk128 a a a a.
Definition _mm_cvtsi32_si128 (a : Z) : m128i := mk128 (wrap32 a) 0 0 0.
Definition _mm256_set1_epi16 (a : Z) : m256i :=
  let x := pack16 a a in mk256 x x x x x x x x.

Definition _mm256_add_epi32 : m256i → m256i → m256i :=
  zip256 (fun a b => wrap32 (a + b)).
Definition _mm256_sub_epi32 : m256i → m256i → m256i :=
  zip256 (fun a b => wrap32 (a - b)).
Definition _mm256_mullo_epi32 : m256i → m256i → m256i :=
  zip256 (fun a b => wrap32 (a * b)).
Definition _mm256_and_si256 : m256i → m256i → m256i :=
  zip256 (fun a b => Z.land (wrap32 a) (wrap32 b)).

(** Multiply the signed 16-bit halves pairwise and add the two products. *)
Definition _mm256_madd_epi16 : m256i → m256i → m256i :=
  zip256 (fun a b =>
    wrap32 (signed16 (lo16 a) * signed16 (lo16 b)
            + signed16 (hi16 a) * signed16 (hi16 b))).

Definition _mm256_min_epi32 : m256i → m256i → m256i :=
  zip256 (fun a b => if signed32 a <? signed32 b then wrap32 a else wrap32 b).
Definition _mm256_max_epi32 : m256i → m256i → m256i :=
  zip256 (fun a b => if signed32 a >? signed32 b then wrap32 a else wrap32 b).

Definition min_s16 (a b : Z) : Z :=
  if signed16 a <? signed16 b then wrap16 a else wrap16 b.
Definition _mm256_min_epi16 : m256i → m256i → m256i :=
  zip256 (fun a b => pack16 (min_s16 (lo16 a) (lo16 b))
                            (min_s16 (hi16 a) (hi16 b))).

(** Shifts of every lane by an immediate count; counts above 31 clear the
    lane (logical shifts) or fill it with the sign (arithmetic shift). *)
Definition sll32 (count a : Z) : Z :=
  if count >? 31 then 0 else wrap32 (Z.shiftl (wrap32 a) count).
Definition srl32 (count a : Z) : Z :=
  if count >? 31 then 0 else Z.shiftr (wrap32 a) count.
Definition sra32 (count a : Z) : Z :=
  wrap32 (Z.shiftr (signed32 a) (Z.min count 31)).

Definition _mm256_slli_epi32 (a : m256i) (imm8 : Z) : m256i := map256 (sll32 imm8) a.
Definition _mm256_srli_epi32 (a : m256i) (imm8 : Z) : m256i := map256 (srl32 imm8) a.
Definition _mm256_srai_epi32 (a : m256i) (imm8 : Z) : m256i := map256 (sra32 imm8) a.

(** The count of [_mm256_srl_epi32] is the low 64 bits of a register. *)
Definition _mm256_srl_epi32 (a : m256i) (count : m128i) : m256i :=
  map256 (srl32 (wrap32 (qn0 count) + 2 ^ 32 * wrap32 (qn1 count))) a.

(** Byte shift to the left inside each 128-bit half.  The kernels shift by
    whole lanes (4 or 8 bytes) only; [imm8] is rounded down to lanes. *)
Definition _mm256_slli_si256 (a : m256i) (imm8 : Z) : m256i :=
  match imm8 / 4 with
  | 0 => a
  | 1 => mk256 0 (ln0 a) (ln1 a) (ln2 a) 0 (ln4 a) (ln5 a) (ln6 a)
  | 2 => mk256 0 0 (ln0 a) (ln1 a) 0 0 (ln4 a) (ln5 a)
  | 3 => mk256 0 0 0 (ln0 a) 0 0 0 (ln4 a)
  | _ => _mm256_setzero_si256
  end.

(** Byte shift to the right of a 128-bit register, by whole lanes. *)
Definition _mm_srli_si128 (a : m128i) (imm8 : Z) : m128i :=
  match imm8 / 4 with
  | 0 => a
  | 1 => mk128 (qn1 a) (qn2 a) (qn3 a) 0
  | 2 => mk128 (qn2 a) (qn3 a) 0 0
  | 3 => mk128 (qn3 a) 0 0 0
  | _ => mk128 0 0 0 0
  end.

Definition _mm256_extract_epi32 (a : m256i) (index : Z) : Z :=
  signed32 (lane a (index mod 8)).

Definition _mm256_insertf128_si256 (a : m256i) (b : m128i) (imm8 : Z) : m256i :=
  if Z.testbit imm8 0
  then mk256 (ln0 a) (ln1 a) (ln2 a) (ln3 a) (qn0 b) (qn1 b) (qn2 b) (qn3 b)
  else mk256 (qn0 b) (qn1 b) (qn2 b) (qn3 b) (ln4 a) (ln5 a) (ln6 a) (ln7 a).

Definition _mm256_castsi256_si128 (a : m256i) : m128i :=
  mk128 (ln0 a) (ln1 a) (ln2 a) (ln3 a).

(** Zero extension of the low eight bytes, resp. of the eight halves. *)
Definition _mm256_cvtepu8_epi32 (a : m128i) : m256i :=
  mk256 (byte_of (qn0 a) 0) (byte_of (qn0 a) 1) (byte_of (qn0 a) 2) (byte_of (qn0 a) 3)
        (byte_of (qn1 a) 0) (byte_of (qn1 a) 1) (byte_of (qn1 a) 2) (byte_of (qn1 a) 3).
Definition _mm256_cvtepu16_epi32 (a : m128i) : m256i :=
  mk256 (lo16 (qn0 a)) (hi16 (qn0 a)) (lo16 (qn1 a)) (hi16 (qn1 a))
        (lo16 (qn2 a)) (hi16 (qn2 a)) (lo16 (qn3 a)) (hi16 (qn3 a)).

(** Saturation of a signed value into the range of a narrower type. *)
Definition saturate (lo hi x : Z) : Z := if x <? lo then lo else if x >? hi then hi else x.
Definition sat_u16 (x : Z) : Z := saturate 0 65535 (signed32 x).
Definition sat_s16 (x : Z) : Z := wrap16 (saturate (-32768) 32767 (signed32 x)).
Definition sat_u8 (x : Z) : Z := saturate 0 255 (signed16 x).

(** Packs work on the two 128-bit halves separately: in each half first
    the four lanes of [a], then the four lanes of [b]. *)
Definition pack32 (sat : Z → Z) (a b : m256i) : m256i :=
  mk256 (pack16 (sat (ln0 a)) (sat (ln1 a))) (pack16 (sat (ln2 a)) (sat (ln3 a)))
        (pack16 (sat (ln0 b)) (sat (ln1 b))) (pack16 (sat (ln2 b)) (sat (ln3 b)))
        (pack16 (sat (ln4 a)) (sat (ln5 a))) (pack16 (sat (ln6 a)) (sat (ln7 a)))
        (pack16 (sat (ln4 b)) (sat (ln5 b))) (pack16 (sat (ln6 b)) (sat (ln7 b))).
Definition _mm256_packus_epi32 : m256i → m256i → m256i := pack32 sat_u16.
Definition _mm256_packs_epi32 : m256i → m256i → m256i := pack32 sat_s16.

Definition pack_u8_pair (x y : Z) : Z :=
  pack8 (sat_u8 (lo16 x)) (sat_u8 (hi16 x)) (sat_u8 (lo16 y)) (sat_u8 (hi16 y)).
Definition _mm256_packus_epi16 (a b : m256i) : m256i :=
  mk256 (pack_u8_pair (ln0 a) (ln1 a)) (pack_u8_pair (ln2 a) (ln3 a))
        (pack_u8_pair (ln0 b) (ln1 b)) (pack_u8_pair (ln2 b) (ln3 b))
        (pack_u8_pair (ln4 a) (ln5 a)) (pack_u8_pair (ln6 a) (ln7 a))
        (pack_u8_pair (ln4 b) (ln5 b)) (pack_u8_pair (ln6 b) (ln7 b)).

(** Quadword [q] (0..3) of the result is quadword [(imm8 >> 2q) & 3] of
    the source. *)
Definition quad (a : m256i) (q : Z) : Z * Z := (lane a (2 * q), lane a (2 * q + 1)).
Definition _mm256_permute4x64_epi64 (a : m256i) (imm8 : Z) : m256i :=
  let sel q := quad a (Z.land (Z.shiftr imm8 (2 * q)) 3) in
  mk256 (fst (sel 0)) (snd (sel 0)) (fst (sel 1)) (snd (sel 1))
        (fst (sel 2)) (snd (sel 2)) (fst (sel 3)) (snd (sel 3)).

(** Gather with scale 4 from a table of 32-bit entries: lane [k] of the
    result is the entry the signed lane [k] of the index selects. *)
Definition _mm256_i32gather_epi32 (base : Z → Z) (vindex : m256i) : m256i :=
  map256 (fun z => wrap32 (base (signed32 z))) vindex.

(** **** Buffers

    A buffer is seen from the pointer a function is given: offset 0 is the
    element the pointer points at, and offsets may be negative.  [m +> d]
    is the buffer seen from [m + d]. *)
Definition buffer : Type := Z → Z.

Definition shift_view (m : buffer) (d : Z) : buffer := fun q => m (d + q).
Infix "+>" := shift_view (at level 45, left associativity).

Definition store1 (m : buffer) (p v : Z) : buffer :=
  fun q => if q =? p then v else m q.

(** [memset(m, 0, sizeof( *m ) * n)]. *)
Definition memset0 (m : buffer) (n : Z) : buffer :=
  fun q => if (0 <=? q) && (q <? n) then 0 else m q.

(** Aligned and unaligned loads and stores of eight lanes. *)
Definition yy_loadu_256 (m : buffer) (p : Z) : m256i :=
  mk256 (m p) (m (p + 1)) (m (p + 2)) (m (p + 3))
        (m (p + 4)) (m (p + 5)) (m (p + 6)) (m (p + 7)).
Definition yy_load_256 := yy_loadu_256.

Definition yy_storeu_256 (m : buffer) (p : Z) (v : m256i) : buffer :=
  fun q => if (p <=? q) && (q <? p + 8) then lane v (q - p) else m q.
Definition yy_store_256 := yy_storeu_256.

(** Loads from a plane of pixels.  A plane is a buffer of samples: of
    bytes, or of halfwords behind [CONVERT_TO_SHORTPTR], which turns the
    byte pointer of a high-bit-depth plane into its [uint16_t] pointer so
    that offsets count samples in both cases. *)
Definition xx_loadl_64 (m : buffer) (p : Z) : m128i :=
  mk128 (pack8 (m p) (m (p + 1)) (m (p + 2)) (m (p + 3)))
        (pack8 (m (p + 4)) (m (p + 5)) (m (p + 6)) (m (p + 7))) 0 0.

Definition xx_loadu_128 (m : buffer) (p : Z) : m128i :=
  mk128 (pack8 (m p) (m (p + 1)) (m (p + 2)) (m (p + 3)))
        (pack8 (m (p + 4)) (m (p + 5)) (m (p + 6)) (m (p + 7)))
        (pack8 (m (p + 8)) (m (p + 9)) (m (p + 10)) (m (p + 11)))
        (pack8 (m (p + 12)) (m (p + 13)) (m (p + 14)) (m (p + 15))).

Definition xx_loadu_128_short (m : buffer) (p : Z) : m128i :=
  mk128 (pack16 (m p) (m (p + 1))) (pack16 (m (p + 2)) (m (p + 3)))
        (pack16 (m (p + 4)) (m (p + 5))) (pack16 (m (p + 6)) (m (p + 7))).

(** Stores into a plane of pixels: sixteen bytes, resp. sixteen
    halfwords. *)
Definition xx_store_128 (m : buffer) (p : Z) (v : m128i) : buffer :=
  fun q => if (p <=? q) && (q <? p + 16)
           then byte_of (lane128 v ((q - p) / 4)) ((q - p) mod 4) else m q.

Definition yy_store_256_short (m : buffer) (p : Z) (v : m256i) : buffer :=
  fun q => if (p <=? q) && (q <? p + 16)
           then (if (q - p) mod 2 =? 0 then lo16 (lane v ((q - p) / 2))
                 else hi16 (lane v ((q - p) / 2)))
           else m q.

(** [for (i = start; i < bound; i += step)] run for [n] rounds. *)
Fixpoint for_loop {St : Type} (n : nat) (i step : Z) (body : Z → St → St) (s : St) : St :=
  match n with
  | O => s
  | S n' => for_loop n' (i + step) step body (body i s)
  end.

(** The number of rounds of [for (i = start; i < bound; i += step)]. *)
Definition rounds (start bound step : Z) : nat :=
  Z.to_nat ((bound - start + step - 1) / step).

(** **** The kernels *)

(** Load 8 bytes, extend each byte to 32-bit precision. *)
Definition yy256_load_extend_8_32 (m : buffer) (p : Z) : m256i :=
  _mm256_cvtepu8_epi32 (xx_loadl_64 m p).

(** Load 8 halfwords, extend each halfword to 32-bit precision. *)
Definition yy256_load_extend_16_32 (m : buffer) (p : Z) : m256i :=
  _mm256_cvtepu16_epi32 (xx_loadu_128_short m p).

(** The scan of a register: x0, x0+x1, ..., x0+x1+...+x7. *)
Definition scan_32 (x : m256i) : m256i :=
  let x01 := _mm256_slli_si256 x 4 in
  let x02 := _mm256_add_epi32 x x01 in
  let x03 := _mm256_slli_si256 x02 8 in
  let x04 := _mm256_add_epi32 x02 x03 in
  let s := _mm256_extract_epi32 x04 3 in
  let s01 := _mm_set1_epi32 s in
  let s02 := _mm256_insertf128_si256 _mm256_setzero_si256 s01 1 in
  _mm256_add_epi32 x04 s02.

(** The state of the loop over the columns of one row: the two images and
    the two running differences. *)
Definition ii_state : Type := buffer * buffer * m256i * m256i.

(** [integral_images] and [integral_images_highbd] are the same text up to
    the load of the eight samples, which is the parameter [load_extend]. *)
Section IntegralImages.

Variable load_extend : buffer → Z → m256i.
Variable src : buffer.
Variable src_stride : Z.
Variable buf_stride : Z.

Definition integral_chunk (i j : Z) (st : ii_state) : ii_state :=
  let '(A, B, ldiff1, ldiff2) := st in
  let ABj := 1 + j in
  let above1 := yy_load_256 B (ABj + i * buf_stride) in
  let above2 := yy_load_256 A (ABj + i * buf_stride) in
  let x1 := load_extend src (j + i * src_stride) in
  let x2 := _mm256_madd_epi16 x1 x1 in
  let sc1 := scan_32 x1 in
  let sc2 := scan_32 x2 in
  let row1 := _mm256_add_epi32 (_mm256_add_epi32 sc1 above1) ldiff1 in
  let row2 := _mm256_add_epi32 (_mm256_add_epi32 sc2 above2) ldiff2 in
  let B := yy_store_256 B (ABj + (i + 1) * buf_stride) row1 in
  let A := yy_store_256 A (ABj + (i + 1) * buf_stride) row2 in
  (* Calculate the new H - D. *)
  let ldiff1 :=
    _mm256_set1_epi32 (_mm256_extract_epi32 (_mm256_sub_epi32 row1 above1) 7) in
  let ldiff2 :=
    _mm256_set1_epi32 (_mm256_extract_epi32 (_mm256_sub_epi32 row2 above2) 7) in
  (A, B, ldiff1, ldiff2).

Definition integral_row (width : Z) (i : Z) (AB : buffer * buffer) : buffer * buffer :=
  let '(A, B) := AB in
  (* Zero the left column. *)
  let B := store1 B ((i + 1) * buf_stride) 0 in
  let A := store1 A ((i + 1) * buf_stride) 0 in
  let zero := _mm256_setzero_si256 in
  let '(A, B, _, _) :=
    for_loop (rounds 0 width 8) 0 8 (integral_chunk i) (A, B, zero, zero) in
  (A, B).

Definition integral_images_with (width height : Z) (A B : buffer) : buffer * buffer :=
  (* Write out the zero top row *)
  let A := memset0 A (width + 1) in
  let B := memset0 B (width + 1) in
  for_loop (rounds 0 height 1) 0 1 (integral_row width) (A, B).

End IntegralImages.

(** Two integral images from [src]: [B] sums elements, [A] their squares. *)
Definition integral_images (src : buffer) (src_stride width height : Z)
  (A B : buffer) (buf_stride : Z) : buffer * buffer :=
  integral_images_with yy256_load_extend_8_32 src src_stride buf_stride width height A B.

Definition integral_images_highbd (src : buffer) (src_stride width height : Z)
  (A B : buffer) (buf_stride : Z) : buffer * buffer :=
  integral_images_with yy256_load_extend_16_32 src src_stride buf_stride width height A B.

(** Eight values of boxsum from the integral image; [ii] points at the
    middle of the box of the first value, [r] is the box radius. *)
Definition boxsum_from_ii (ii : buffer) (stride r : Z) : m256i :=
  let tl := yy_loadu_256 ii (- (r + 1) - (r + 1) * stride) in
  let tr := yy_loadu_256 ii ((r + 0) - (r + 1) * stride) in
  let bl := yy_loadu_256 ii (- (r + 1) + r * stride) in
  let br := yy_loadu_256 ii ((r + 0) + r * stride) in
  let u := _mm256_sub_epi32 tr tl in
  let v := _mm256_sub_epi32 br bl in
  _mm256_sub_epi32 v u.

Definition round_for_shift (shift : Z) : m256i :=
  _mm256_set1_epi32 (Z.shiftr (Z.shiftl 1 shift) 1).

Definition compute_p (sum1 sum2 : m256i) (bit_depth n : Z) : m256i :=
  if bit_depth >? 8 then
    let rounding_a := round_for_shift (2 * (bit_depth - 8)) in
    let rounding_b := round_for_shift (bit_depth - 8) in
    let shift_a := _mm_cvtsi32_si128 (2 * (bit_depth - 8)) in
    let shift_b := _mm_cvtsi32_si128 (bit_depth - 8) in
    let a := _mm256_srl_epi32 (_mm256_add_epi32 sum2 rounding_a) shift_a in
    let b := _mm256_srl_epi32 (_mm256_add_epi32 sum1 rounding_b) shift_b in
    (* b < 2^14, so a 16-bit madd squares it *)
    let bb := _mm256_madd_epi16 b b in
    let an := _mm256_max_epi32 (_mm256_mullo_epi32 a (_mm256_set1_epi32 n)) bb in
    _mm256_sub_epi32 an bb
  else
    let bb := _mm256_madd_epi16 sum1 sum1 in
    let an := _mm256_mullo_epi32 sum2 (_mm256_set1_epi32 n) in
    _mm256_sub_epi32 an bb.

(** The cross sum at [buf]: a 3x3 filter where the four corners have
    weight 3 and all other pixels have weight 4. *)
Definition cross_sum (buf : buffer) (stride : Z) : m256i :=
  let xtl := yy_loadu_256 buf (- 1 - stride) in
  let xt := yy_loadu_256 buf (- stride) in
  let xtr := yy_loadu_256 buf (1 - stride) in
  let xl := yy_loadu_256 buf (- 1) in
  let x := yy_loadu_256 buf 0 in
  let xr := yy_loadu_256 buf 1 in
  let xbl := yy_loadu_256 buf (- 1 + stride) in
  let xb := yy_loadu_256 buf stride in
  let xbr := yy_loadu_256 buf (1 + stride) in
  let fours :=
    _mm256_add_epi32 xl
      (_mm256_add_epi32 xt (_mm256_add_epi32 xr (_mm256_add_epi32 xb x))) in
  let threes :=
    _mm256_add_epi32 xtl
      (_mm256_add_epi32 xtr (_mm256_add_epi32 xbr xbl)) in
  _mm256_sub_epi32 (_mm256_slli_epi32 (_mm256_add_epi32 fours threes) 2) threes.

(** The literal 9-tap sum of the comment: weight 3 at the corners, 4
    elsewhere, in 32-bit arithmetic; lane [k] is the sum around
    [buf + k]. *)
Definition nine_tap (buf : buffer) (stride : Z) (k : Z) : Z :=
  wrap32 (3 * buf (k - 1 - stride) + 4 * buf (k - stride) + 3 * buf (k + 1 - stride)
          + 4 * buf (k - 1) + 4 * buf k + 4 * buf (k + 1)
          + 3 * buf (k - 1 + stride) + 4 * buf (k + stride) + 3 * buf (k + 1 + stride)).

(** [4 * (sum of all nine) - (sum of the corners)], the form of the spec. *)
Definition four_all_minus_corners (buf : buffer) (stride : Z) (k : Z) : Z :=
  let corners := buf (k - 1 - stride) + buf (k + 1 - stride)
                 + buf (k - 1 + stride) + buf (k + 1 + stride) in
  let all := corners + buf (k - stride) + buf (k - 1) + buf k + buf (k + 1)
             + buf (k + stride) in
  wrap32 (4 * all - corners).

(** [sgr_params_type]: the two radius/strength pairs of a parameter set. *)
Record sgr_params_type : Set := { r1 : Z; e1 : Z; r2 : Z; e2 : Z }.

(** ALIGN_POWER_OF_TWO(value, n): [(value + ((1 << n) - 1)) & ~((1 << n) - 1)]. *)
Definition ALIGN_POWER_OF_TWO (value n : Z) : Z :=
  Z.land (value + (Z.shiftl 1 n - 1)) (Z.lnot (Z.shiftl 1 n - 1)).

Section Restoration.

(** The constants and tables of [av1/common/restoration.h] and
    [restoration.c], and [decode_xq]; none of them is among the sources. *)
Variable SGRPROJ_BORDER_VERT SGRPROJ_BORDER_HORZ : Z.
Variable SGRPROJ_MTABLE_BITS SGRPROJ_RECIP_BITS : Z.
Variable SGRPROJ_SGR_BITS SGRPROJ_RST_BITS SGRPROJ_PRJ_BITS : Z.
Variable sgrproj_mtable : Z → Z → Z.
Variable one_by_x : Z → Z.
Variable x_by_xplus1 : Z → Z.
Variable sgr_params : Z → sgr_params_type.
Variable decode_xq : buffer → Z * Z.

Definition SGRPROJ_SGR : Z := Z.shiftl 1 SGRPROJ_SGR_BITS.

(** The index [z] into [x_by_xplus1] that [calc_ab] derives from [p]. *)
Definition calc_ab_z (p s : m256i) : m256i :=
  let rnd_z := round_for_shift SGRPROJ_MTABLE_BITS in
  _mm256_min_epi32
    (_mm256_srli_epi32 (_mm256_add_epi32 (_mm256_mullo_epi32 p s) rnd_z)
                       SGRPROJ_MTABLE_BITS)
    (_mm256_set1_epi32 255).

(** The variance proxy at position ([i], [j]) and the seven to its right
    (the build without [CONFIG_DEBUG], where the sums are not masked). *)
Definition calc_ab_p (C D : buffer) (buf_stride bit_depth r i j : Z) : m256i :=
  let n := (2 * r + 1) * (2 * r + 1) in
  let Cij := C +> (i * buf_stride + j) in
  let Dij := D +> (i * buf_stride + j) in
  let sum1 := boxsum_from_ii Dij buf_stride r in
  let sum2 := boxsum_from_ii Cij buf_stride r in
  compute_p sum1 sum2 bit_depth n.

Definition calc_ab_index (C D : buffer) (buf_stride eps bit_depth r i j : Z) : m256i :=
  let n := (2 * r + 1) * (2 * r + 1) in
  let s := _mm256_set1_epi32 (sgrproj_mtable (eps - 1) (n - 1)) in
  calc_ab_z (calc_ab_p C D buf_stride bit_depth r i j) s.

Definition calc_ab_chunk (C D : buffer) (buf_stride eps bit_depth r i j : Z)
  (AB : buffer * buffer) : buffer * buffer :=
  let '(A, B) := AB in
  let n := (2 * r + 1) * (2 * r + 1) in
  (* one_over_n[n-1] is 2^12/n, so easily fits in an int16 *)
  let one_over_n := _mm256_set1_epi32 (one_by_x (n - 1)) in
  let rnd_res := round_for_shift SGRPROJ_RECIP_BITS in
  let sum1 := boxsum_from_ii (D +> (i * buf_stride + j)) buf_stride r in
  let z := calc_ab_index C D buf_stride eps bit_depth r i j in
  let a_res := _mm256_i32gather_epi32 x_by_xplus1 z in
  let A := yy_storeu_256 A (i * buf_stride + j) a_res in
  let a_complement := _mm256_sub_epi32 (_mm256_set1_epi32 SGRPROJ_SGR) a_res in
  let a_comp_over_n := _mm256_madd_epi16 a_complement one_over_n in
  let b_int := _mm256_mullo_epi32 a_comp_over_n sum1 in
  let b_res :=
    _mm256_srli_epi32 (_mm256_add_epi32 b_int rnd_res) SGRPROJ_RECIP_BITS in
  let B := yy_storeu_256 B (i * buf_stride + j) b_res in
  (A, B).

(** [C], [D] are the integral images, seen from logical position (0, 0)
    like [A] and [B]. *)
Definition calc_ab (A B C D : buffer)
  (width height buf_stride eps bit_depth r : Z) : buffer * buffer :=
  for_loop (rounds (-1) (height + 1) 1) (-1) 1
    (fun i =>
       for_loop (rounds (-1) (width + 1) 8) (-1) 8
         (fun j => calc_ab_chunk C D buf_stride eps bit_depth r i j))
    (A, B).

(** The final filter: a weighted average across [A], [B] with cross sums.
    [dgd] is the plane of samples behind [dgd8]. *)
Definition final_filter (dst : buffer) (dst_stride : Z) (A B : buffer)
  (buf_stride : Z) (dgd : buffer) (dgd_stride width height : Z) (highbd : bool)
  : buffer :=
  let nb := 5 in
  let rounding := round_for_shift (SGRPROJ_SGR_BITS + nb - SGRPROJ_RST_BITS) in
  for_loop (rounds 0 height 1) 0 1
    (fun i =>
       for_loop (rounds 0 width 4) 0 4
         (fun j dst =>
            let a := cross_sum (A +> (i * buf_stride + j)) buf_stride in
            let b := cross_sum (B +> (i * buf_stride + j)) buf_stride in
            let src :=
              if highbd
              then _mm256_cvtepu16_epi32 (xx_loadu_128_short dgd (i * dgd_stride + j))
              else _mm256_cvtepu8_epi32 (xx_loadu_128 dgd (i * dgd_stride + j)) in
            let v := _mm256_add_epi32 (_mm256_madd_epi16 a src) b in
            let w := _mm256_srai_epi32 (_mm256_add_epi32 v rounding)
                       (SGRPROJ_SGR_BITS + nb - SGRPROJ_RST_BITS) in
            yy_storeu_256 dst (i * dst_stride + j) w))
    dst.

(** Where the integral images and the coefficient maps lie.  The four
    working arrays are the four quarters of [buf], each seen from its "tl"
    pointer; the pointers used by [calc_ab] and [final_filter] are one row
    and one column further, past the border. *)
Definition width_ext (width : Z) : Z := width + 2 * SGRPROJ_BORDER_HORZ.
Definition height_ext (height : Z) : Z := height + 2 * SGRPROJ_BORDER_VERT.
Definition sgr_buf_stride (width : Z) : Z := ALIGN_POWER_OF_TWO (width_ext width + 16) 3.
Definition buf_diag_border (buf_stride : Z) : Z :=
  SGRPROJ_BORDER_HORZ + buf_stride * SGRPROJ_BORDER_VERT.
Definition origin (buf_stride : Z) : Z := 1 + buf_stride + buf_diag_border buf_stride.

(** The first part of [av1_selfguided_restoration_avx2]: the integral
    images [C] (sums of squares) and [D] (sums) of the plane with its
    border, both seen from logical position (0, 0). *)
Definition sgr_integral_images (dgd : buffer) (width height dgd_stride : Z)
  (highbd : bool) : buffer * buffer :=
  (* memset(buf, 0, sizeof(buf)) *)
  let Ctl : buffer := fun _ => 0 in
  let Dtl : buffer := fun _ => 0 in
  let buf_stride := sgr_buf_stride width in
  let dgd_diag_border := SGRPROJ_BORDER_HORZ + dgd_stride * SGRPROJ_BORDER_VERT in
  let dgd0 := dgd +> (- dgd_diag_border) in
  let '(Ctl, Dtl) :=
    if highbd
    then integral_images_highbd dgd0 dgd_stride (width_ext width) (height_ext height)
           Ctl Dtl buf_stride
    else integral_images dgd0 dgd_stride (width_ext width) (height_ext height)
           Ctl Dtl buf_stride in
  (Ctl +> origin buf_stride, Dtl +> origin buf_stride).

Definition av1_selfguided_restoration_avx2 (dgd : buffer) (width height dgd_stride : Z)
  (flt1 flt2 : buffer) (flt_stride : Z) (params : sgr_params_type)
  (bit_depth : Z) (highbd : bool) : buffer * buffer :=
  (* memset(buf, 0, sizeof(buf)) *)
  let Atl : buffer := fun _ => 0 in
  let Btl : buffer := fun _ => 0 in
  let buf_stride := sgr_buf_stride width in
  let A := Atl +> origin buf_stride in
  let B := Btl +> origin buf_stride in
  (* C will contain sums of squares; D will contain just sums *)
  let '(C, D) := sgr_integral_images dgd width height dgd_stride highbd in
  (* Write to flt1 and flt2 *)
  let '(A, B) := calc_ab A B C D width height buf_stride (e1 params) bit_depth (r1 params) in
  let flt1 := final_filter flt1 flt_stride A B buf_stride dgd dgd_stride width height highbd in
  let '(A, B) := calc_ab A B C D width height buf_stride (e2 params) bit_depth (r2 params) in
  let flt2 := final_filter flt2 flt_stride A B buf_stride dgd dgd_stride width height highbd in
  (flt1, flt2).

(** The two blended registers [w_0], [w_1] of one batch of sixteen pixels:
    [ep_0], [ep_1] are the source pixels, [k] the offset into the two
    filtered planes. *)
Definition blend_w (xq0 xq1 : m256i) (flt1 flt2 : buffer) (k : Z) (ep : m256i) : m256i :=
  let u := _mm256_slli_epi32 ep SGRPROJ_RST_BITS in
  let f1 := _mm256_sub_epi32 (yy_loadu_256 flt1 k) u in
  let f2 := _mm256_sub_epi32 (yy_loadu_256 flt2 k) u in
  let v :=
    _mm256_add_epi32
      (_mm256_add_epi32 (_mm256_mullo_epi32 xq0 f1) (_mm256_mullo_epi32 xq1 f2))
      (_mm256_slli_epi32 u SGRPROJ_PRJ_BITS) in
  let rounding := round_for_shift (SGRPROJ_PRJ_BITS + SGRPROJ_RST_BITS) in
  _mm256_srai_epi32 (_mm256_add_epi32 v rounding)
                    (SGRPROJ_PRJ_BITS + SGRPROJ_RST_BITS).

(** Pack into 16 bits and clamp to [0, 2^bit_depth), then store. *)
Definition store_highbd (dst : buffer) (m : Z) (w_0 w_1 : m256i) (bit_depth : Z) : buffer :=
  let tmp := _mm256_packus_epi32 w_0 w_1 in
  let tmp2 := _mm256_permute4x64_epi64 tmp 216 in
  let max := _mm256_set1_epi16 (Z.shiftl 1 bit_depth - 1) in
  let res := _mm256_min_epi16 tmp2 max in
  yy_store_256_short dst m res.

(** Pack into 8 bits and clamp to [0, 256), then store. *)
Definition store_lowbd (dst : buffer) (m : Z) (w_0 w_1 : m256i) : buffer :=
  let tmp := _mm256_packs_epi32 w_0 w_1 in
  let tmp2 := _mm256_permute4x64_epi64 tmp 216 in
  let res := _mm256_packus_epi16 tmp2 tmp2 in
  let res2 := _mm256_castsi256_si128 (_mm256_permute4x64_epi64 res 216) in
  xx_store_128 dst m res2.

(** The blended value of the pixel at offset [t] (0..15) of a batch. *)
Definition batch_lane (w_0 w_1 : m256i) (t : Z) : Z :=
  if t <? 8 then lane w_0 t else lane w_1 (t - 8).

(** The two registers [w_0], [w_1] of the batch at row [i], column [j]. *)
Definition batch_blend (dat : buffer) (width stride : Z) (xq : Z * Z)
  (flt1 flt2 : buffer) (highbd : bool) (i j : Z) : m256i * m256i :=
  let xq0 := _mm256_set1_epi32 (fst xq) in
  let xq1 := _mm256_set1_epi32 (snd xq) in
  let k := i * width + j in
  let datij := dat +> (i * stride + j) in
  let '(ep_0, ep_1) :=
    if highbd then
      let src_0 := xx_loadu_128_short datij 0 in
      let src_1 := xx_loadu_128_short datij 8 in
      (_mm256_cvtepu16_epi32 src_0, _mm256_cvtepu16_epi32 src_1)
    else
      let src_0 := xx_loadu_128 datij 0 in
      (_mm256_cvtepu8_epi32 src_0, _mm256_cvtepu8_epi32 (_mm_srli_si128 src_0 8)) in
  let w_0 := blend_w xq0 xq1 flt1 flt2 k ep_0 in
  let w_1 := blend_w xq0 xq1 flt1 flt2 (k + 8) ep_1 in
  (w_0, w_1).

(** One batch of 16 pixels of the blend. *)
Definition blend_batch (dat : buffer) (width stride : Z) (xq : Z * Z)
  (flt1 flt2 : buffer) (dst_stride bit_depth : Z) (highbd : bool)
  (i j : Z) (dst : buffer) : buffer :=
  let m := i * dst_stride + j in
  let '(w_0, w_1) := batch_blend dat width stride xq flt1 flt2 highbd i j in
  if highbd then store_highbd dst m w_0 w_1 bit_depth
  else store_lowbd dst m w_0 w_1.

(** [dat] and [dst] are the planes behind [dat8] and [dst8]; [flt1] and
    [flt2] are the two halves of [tmpbuf]. *)
Definition apply_selfguided_restoration_avx2 (dat : buffer) (width height stride eps : Z)
  (xqd : buffer) (dst : buffer) (dst_stride : Z) (flt1 flt2 : buffer)
  (bit_depth : Z) (highbd : bool) : buffer :=
  let '(flt1, flt2) :=
    av1_selfguided_restoration_avx2 dat width height stride flt1 flt2 width
      (sgr_params eps) bit_depth highbd in
  let xq := decode_xq xqd in
  for_loop (rounds 0 height 1) 0 1
    (fun i =>
       (* Calculate output in batches of 16 pixels *)
       for_loop (rounds 0 width 16) 0 16
         (blend_batch dat width stride xq flt1 flt2 dst_stride bit_depth highbd i))
    dst.

End Restoration.

(** **** Sums over a plane, for the statements *)

(** [g 0 + g 1 + ... + g (n - 1)]. *)
Fixpoint sum_upto (n : nat) (g : Z → Z) : Z :=
  match n with
  | O => 0
  | S n' => sum_upto n' g + g (Z.of_nat n')
  end.

(** The sum of [g lo .. g (hi - 1)]. *)
Definition sum_range (lo hi : Z) (g : Z → Z) : Z :=
  sum_upto (Z.to_nat (hi - lo)) (fun t => g (lo + t)).

(** The sum of [f y' x'] over all [y' < y] and [x' < x] (from 0). *)
Definition prefix_sum (f : Z → Z → Z) (y x : Z) : Z :=
  sum_range 0 y (fun y' => sum_range 0 x (fun x' => f y' x')).

(** The sum of row [y] up to column [x], which links a row of the integral
    image to the row above it. *)
Definition row_sum (f : Z → Z → Z) (y x : Z) : Z := sum_range 0 x (fun x' => f y x').

(** The brute-force sum over the (2r+1)x(2r+1) window around ([y], [x]). *)
Definition window_sum (f : Z → Z → Z) (r y x : Z) : Z :=
  sum_range (y - r) (y + r + 1) (fun y' =>
    sum_range (x - r) (x + r + 1) (fun x' => f y' x')).

(** **** Invariants of the integral images

    [image_rows]: the rows 0..[Y] of the image hold the prefix sums of [g],
    in 32-bit arithmetic, in the columns 0..[width].  [row_inv]: row
    [i + 1] is built up to column [J], the running difference is the sum
    of row [i] up to [J], and nothing else has changed since [M0]. *)
Definition image_rows (buf_stride width : Z) (g : Z → Z → Z) (M : buffer) (Y : Z) : Prop :=
  ∀ y x, 0 ≤ y ≤ Y → 0 ≤ x ≤ width →
    M (y * buf_stride + x) = wrap32 (prefix_sum g y x).

Definition row_inv (buf_stride width : Z) (g : Z → Z → Z) (M0 M : buffer)
  (ldiff : m256i) (i J : Z) : Prop :=
  (∀ k, lane ldiff k = wrap32 (row_sum g i J)) ∧
  (∀ x, 0 ≤ x ≤ J → x ≤ width →
     M ((i + 1) * buf_stride + x) = wrap32 (prefix_sum g (i + 1) x)) ∧
  (∀ q, ¬ ((i + 1) * buf_stride ≤ q ≤ (i + 1) * buf_stride + J) → M q = M0 q).

(** The samples of a plane of bytes, resp. of halfwords, by row and
    column, and their squares. *)
Definition pixel8 (src : buffer) (stride : Z) (y x : Z) : Z := wrap8 (src (x + y * stride)).
Definition pixel16 (src : buffer) (stride : Z) (y x : Z) : Z := wrap16 (src (x + y * stride)).
Definition sq (f : Z → Z → Z) (y x : Z) : Z := f y x * f y x.

(** The square that [_mm256_madd_epi16] makes of a sample: the sample is
    read as a signed halfword. *)
Definition madd_sq (f : Z → Z → Z) (y x : Z) : Z := signed16 (f y x) * signed16 (f y x).

(** The sample of the plane with its border at row [y], column [x],
    counted from the top-left corner of the border. *)
Definition padded_pixel (border_vert border_horz : Z) (dgd : buffer) (dgd_stride : Z)
  (highbd : bool) (y x : Z) : Z :=
  let dgd0 := dgd +> (- (border_horz + dgd_stride * border_vert)) in
  if highbd then pixel16 dgd0 dgd_stride y x else pixel8 dgd0 dgd_stride y x.

(** **** The sample of the final filter

    What [final_filter] computes for the pixel in row [i], column [c]:
    the cross sums of [A] and [B] around the pixel, the low half of the
    first multiplied with the sample as signed halfwords, the second
    added, and the sum rounded and shifted, all in 32-bit arithmetic. *)
Definition final_filter_sample (sgr_bits rst_bits : Z) (A B : buffer) (buf_stride : Z)
  (dgd : buffer) (dgd_stride : Z) (highbd : bool) (i c : Z) : Z :=
  let shift := sgr_bits + 5 - rst_bits in
  let a := nine_tap (A +> (i * buf_stride)) buf_stride c in
  let b := nine_tap (B +> (i * buf_stride)) buf_stride c in
  let src := if highbd then wrap16 (dgd (i * dgd_stride + c))
             else wrap8 (dgd (i * dgd_stride + c)) in
  let v := wrap32 (wrap32 (signed16 a * signed16 src) + b) in
  sra32 shift (wrap32 (v + wrap32 (Z.shiftr (Z.shiftl 1 shift) 1))).

(** The sample of a plane at row [i], column [c]. *)
Definition plane_sample (dat : buffer) (stride : Z) (highbd : bool) (i c : Z) : Z :=
  if highbd then pixel16 dat stride i c else pixel8 dat stride i c.

(** The register [w] that [final_filter] stores for the chunk at row [i],
    column [j]. *)
Definition final_filter_w (sgr_bits rst_bits : Z) (A B : buffer) (buf_stride : Z)
  (dgd : buffer) (dgd_stride : Z) (highbd : bool) (i j : Z) : m256i :=
  let nb := 5 in
  let rounding := round_for_shift (sgr_bits + nb - rst_bits) in
  let a := cross_sum (A +> (i * buf_stride + j)) buf_stride in
  let b := cross_sum (B +> (i * buf_stride + j)) buf_stride in
  let src :=
    if highbd
    then _mm256_cvtepu16_epi32 (xx_loadu_128_short dgd (i * dgd_stride + j))
    else _mm256_cvtepu8_epi32 (xx_loadu_128 dgd (i * dgd_stride + j)) in
  let v := _mm256_add_epi32 (_mm256_madd_epi16 a src) b in
  _mm256_srai_epi32 (_mm256_add_epi32 v rounding) (sgr_bits + nb - rst_bits).

(** **** The blend of one pixel

    [blend_sample]: the value [w] of the source sample [ep] and the two
    filtered samples [f1], [f2] under the weights [xq], in 32-bit
    arithmetic.  [stored_sample]: what the store makes of [w]. *)
Definition blend_sample (rst_bits prj_bits : Z) (xq : Z * Z) (f1 f2 ep : Z) : Z :=
  let u := sll32 rst_bits ep in
  let v := wrap32 (wrap32 (wrap32 (fst xq * wrap32 (f1 - u))
                           + wrap32 (snd xq * wrap32 (f2 - u)))
                   + sll32 prj_bits u) in
  sra32 (prj_bits + rst_bits)
        (wrap32 (v + wrap32 (Z.shiftr (Z.shiftl 1 (prj_bits + rst_bits)) 1))).

Definition stored_sample (highbd : bool) (bit_depth w : Z) : Z :=
  if highbd then min_s16 (sat_u16 w) (Z.shiftl 1 bit_depth - 1)
  else saturate 0 255 (signed32 w).

End Sgr.

(** ** Part II.  The properties *)

(** *** Transform sizes and entropy contexts *)

Section EntropyFacts.
Import Entropy.

Lemma cat6_raw_bits_by_side t b :
  cat6_raw_bits t b
  = bit_depth_val b + 3 + Z.min 3 (Z.log2 (tx_longer_side t) - 2).
Proof. destruct t, b; reflexivity. Qed.

Lemma tx_longer_side_cases t :
  In (tx_longer_side t) [4; 8; 16; 32; 64].
Proof. destruct t; cbn; tauto. Qed.

Lemma round_up_4 x :
  Z.land (x + 3) (Z.lnot 3) = 4 * ((x + 3) / 4).
Proof.
  change (Z.lnot 3) with (Z.lnot (Z.ones 2)).
  rewrite <- Z.ldiff_land, Z.ldiff_ones_r by lia.
  rewrite Z.shiftr_div_pow2, Z.shiftl_mul_pow2 by lia.
  change (2 ^ 2) with 4. lia.
Qed.

Lemma cat6_closed_form t b :
  av1_get_cat6_extrabits_size t b
  = Z.min CAT6_BIT_SIZE (4 * ((cat6_raw_bits t b + 3) / 4)).
Proof.
  unfold av1_get_cat6_extrabits_size, AOMMIN. rewrite round_up_4.
  destruct (Z.ltb_spec CAT6_BIT_SIZE (4 * ((cat6_raw_bits t b + 3) / 4))); lia.
Qed.

(** C8: the cat6 extra-bit count does not decrease when the transform gets
    longer or the bit depth higher; it is the raw count rounded up to the
    next multiple of 4 and then capped; it never exceeds 18. *)
Theorem cat6_extrabits_monotone_and_capped (t1 t2 : TX_SIZE) (b1 b2 : aom_bit_depth_t) :
  tx_longer_side t1 ≤ tx_longer_side t2 →
  bit_depth_val b1 ≤ bit_depth_val b2 →
  av1_get_cat6_extrabits_size t1 b1 ≤ av1_get_cat6_extrabits_size t2 b2
  ∧ (∃ m, m mod 4 = 0 ∧ cat6_raw_bits t1 b1 ≤ m < cat6_raw_bits t1 b1 + 4
          ∧ av1_get_cat6_extrabits_size t1 b1 = Z.min CAT6_BIT_SIZE m)
  ∧ av1_get_cat6_extrabits_size t1 b1 ≤ CAT6_BIT_SIZE.
Proof.
  intros Hside Hdepth. rewrite !cat6_closed_form. repeat split.
  - apply Z.min_le_compat_l.
    assert (cat6_raw_bits t1 b1 ≤ cat6_raw_bits t2 b2) as Hraw.
    { rewrite !cat6_raw_bits_by_side.
      pose proof (tx_longer_side_cases t1) as H1.
      pose proof (tx_longer_side_cases t2) as H2.
      assert (Z.log2 (tx_longer_side t1) ≤ Z.log2 (tx_longer_side t2)).
      { apply Z.log2_le_mono, Hside. }
      lia. }
    pose proof (Z.div_le_mono (cat6_raw_bits t1 b1 + 3) (cat6_raw_bits t2 b2 + 3) 4).
    lia.
  - exists (4 * ((cat6_raw_bits t1 b1 + 3) / 4)). split; [|split; [|reflexivity]].
    + rewrite Z.mul_comm. apply Z.mod_mul. lia.
    + pose proof (Z.div_mod (cat6_raw_bits t1 b1 + 3) 4).
      pose proof (Z.mod_pos_bound (cat6_raw_bits t1 b1 + 3) 4). lia.
  - apply Z.le_min_l.
Qed.

Lemma cat6_extrabits_monotone_and_capped_witness :
  av1_get_cat6_extrabits_size TX_4X8 AOM_BITS_8
  ≤ av1_get_cat6_extrabits_size TX_64X16 AOM_BITS_12.
Proof.
  apply (cat6_extrabits_monotone_and_capped TX_4X8 TX_64X16 AOM_BITS_8 AOM_BITS_12);
    vm_compute; discriminate.
Defined.

End EntropyFacts.

Section EntropyContextFacts.
Import Entropy.

Lemma le_combine_cons (h : ENTROPY_CONTEXT) (t : list ENTROPY_CONTEXT) :
  le_combine (h :: t) = Z.lor (byte.unsigned h) (Z.shiftl (le_combine t) 8).
Proof. reflexivity. Qed.

Lemma le_combine_nonneg (p : list ENTROPY_CONTEXT) : 0 ≤ le_combine p.
Proof.
  induction p as [|h t IH]; [reflexivity|]. rewrite le_combine_cons.
  apply Z.lor_nonneg. split.
  - apply byte.unsigned_range.
  - apply Z.shiftl_nonneg, IH.
Qed.

(** A wide read is zero exactly when every byte it covers is. *)
Lemma c_nonzero_le_combine (p : list ENTROPY_CONTEXT) :
  c_nonzero (le_combine p)
  = b2z (existsb (fun b => negb (byte.unsigned b =? 0)) p).
Proof.
  induction p as [|h t IH]; [reflexivity|].
  rewrite le_combine_cons; cbn [existsb]. unfold c_nonzero in *.
  destruct (Z.eqb_spec (byte.unsigned h) 0) as [Hh|Hh]; cbn [negb orb].
  - rewrite Hh, Z.lor_0_l.
    destruct (Z.eqb_spec (le_combine t) 0) as [Ht|Ht].
    + rewrite Ht, Z.shiftl_0_l. cbn. exact IH.
    + destruct (Z.eqb_spec (Z.shiftl (le_combine t) 8) 0) as [Hs|Hs].
      * apply Z.shiftl_eq_0_iff in Hs; [contradiction|lia].
      * exact IH.
  - destruct (Z.eqb_spec (Z.lor (byte.unsigned h) (Z.shiftl (le_combine t) 8)) 0) as [Hs|Hs].
    + apply Z.lor_eq_0_iff in Hs. tauto.
    + reflexivity.
Qed.

Lemma c_nonzero_idem x : c_nonzero (c_nonzero x) = c_nonzero x.
Proof. unfold c_nonzero. destruct (x =? 0); reflexivity. Qed.

Lemma c_nonzero_lor x y ex ey :
  c_nonzero x = b2z ex → c_nonzero y = b2z ey →
  c_nonzero (Z.lor x y) = b2z (ex || ey).
Proof.
  unfold c_nonzero.
  destruct (Z.eqb_spec x 0) as [->|Hx0].
  - rewrite Z.lor_0_l. destruct ex; cbn; [discriminate|]. intros _ Hy. exact Hy.
  - destruct (Z.eqb_spec (Z.lor x y) 0) as [H0|H0].
    + apply Z.lor_eq_0_iff in H0. tauto.
    + destruct ex; cbn; [reflexivity|discriminate].
Qed.

Lemma load_le_window (n : nat) (p : list ENTROPY_CONTEXT) :
  (n ≤ length p)%nat →
  ∃ v, load_le n p = Some v ∧ c_nonzero v = b2z (window_nonzero n p).
Proof.
  intros Hn. unfold load_le. rewrite decide_True by exact Hn.
  eexists. split; [reflexivity|]. apply c_nonzero_le_combine.
Qed.

Lemma load_u64x2_window (p : list ENTROPY_CONTEXT) :
  (16 ≤ length p)%nat →
  ∃ v, load_u64x2 p = Some v ∧ c_nonzero v = b2z (window_nonzero 16 p).
Proof.
  intros Hn. unfold load_u64x2, load_u64, load_le.
  rewrite !decide_True by (rewrite ?length_skipn; lia).
  cbn [mbind option_bind]. eexists. split; [reflexivity|].
  unfold window_nonzero.
  change 16%nat with (8 + 8)%nat. rewrite <- take_take_drop, existsb_app.
  apply c_nonzero_lor; apply c_nonzero_le_combine.
Qed.

(** The read of [get_entropy_context] for a window of [n] context bytes. *)
Lemma window_read (n : nat) (rd : list ENTROPY_CONTEXT → option Z) (p : list ENTROPY_CONTEXT) :
  (n = 1%nat ∧ rd = load_u8) ∨ (n = 2%nat ∧ rd = load_u16) ∨
  (n = 4%nat ∧ rd = load_u32) ∨ (n = 8%nat ∧ rd = load_u64) ∨
  (n = 16%nat ∧ rd = load_u64x2) →
  (n ≤ length p)%nat →
  ∃ v, rd p = Some v ∧ c_nonzero v = b2z (window_nonzero n p).
Proof.
  intros [[-> ->]|[[-> ->]|[[-> ->]|[[-> ->]|[-> ->]]]]] Hn;
    first [ apply load_u64x2_window, Hn | apply load_le_window, Hn ].
Qed.

(** C4: for every transform size of the switch, the context is the number
    of non-zero neighbour windows, above and left: a value among 0, 1
    and 2, which is 0 when both windows are all zero and 2 when both are
    non-zero. *)
Theorem get_entropy_context_counts_nonzero_windows
  (tx_size : TX_SIZE) (a l : list ENTROPY_CONTEXT) :
  (tx_size_wide_unit tx_size ≤ length a)%nat →
  (tx_size_high_unit tx_size ≤ length l)%nat →
  let above := window_nonzero (tx_size_wide_unit tx_size) a in
  let left := window_nonzero (tx_size_high_unit tx_size) l in
  ∃ ctx, get_entropy_context tx_size a l = Some ctx
    ∧ ctx = b2z above + b2z left
    ∧ (ctx = 0 ∨ ctx = 1 ∨ ctx = 2)
    ∧ (above = false → left = false → ctx = 0)
    ∧ (above = true → left = true → ctx = 2).
Proof.
  intros Ha Hl above left.
  assert (∀ ra rl,
    (∃ v, ra a = Some v ∧ c_nonzero v = b2z above) →
    (∃ v, rl l = Some v ∧ c_nonzero v = b2z left) →
    (above' ← ra a; left' ← rl l;
     Some (combine_entropy_contexts (c_nonzero above') (c_nonzero left')))
    = Some (b2z above + b2z left)) as Hctx.
  { intros ra rl (va & -> & Hva) (vl & -> & Hvl). cbn [mbind option_bind].
    unfold combine_entropy_contexts. rewrite !c_nonzero_idem, Hva, Hvl. reflexivity. }
  exists (b2z above + b2z left). split; [|split; [reflexivity|]].
  - subst above left.
    destruct tx_size; cbn [get_entropy_context]; apply Hctx;
      (apply window_read; [tauto | assumption]).
  - destruct above, left; cbn; repeat split; intros; try congruence; tauto.
Qed.

Lemma get_entropy_context_counts_nonzero_windows_witness :
  ∃ ctx, get_entropy_context TX_8X16 [Byte.x00; Byte.x03] [Byte.x00; Byte.x00; Byte.x00; Byte.x00]
         = Some ctx ∧ ctx = 1.
Proof.
  destruct (get_entropy_context_counts_nonzero_windows TX_8X16
              [Byte.x00; Byte.x03] [Byte.x00; Byte.x00; Byte.x00; Byte.x00])
    as (ctx & Hrun & Hval & _); [vm_compute; lia | vm_compute; lia |].
  exists ctx. split; [exact Hrun | exact Hval].
Defined.

End EntropyContextFacts.

(** *** Tile aggregation *)

Section TileAggregation.
Import Entropy.

Lemma accumulate_tiles_closed (i : nat) (tiles : list tile_cdf) (acc : Z * Z) :
  fold_left (accumulate_tile i) tiles acc
  = (fst acc + weighted_total i tiles, snd acc + count_total tiles).
Proof.
  revert acc. induction tiles as [|t tiles IH]; intros [s n]; cbn.
  - f_equal; lia.
  - rewrite IH. unfold accumulate_tile. cbn. f_equal; lia.
Qed.

Lemma weighted_total_perm (i : nat) (ts ts' : list tile_cdf) :
  Permutation ts ts' → weighted_total i ts = weighted_total i ts'.
Proof. induction 1; cbn; lia. Qed.

Lemma count_total_perm (ts ts' : list tile_cdf) :
  Permutation ts ts' → count_total ts = count_total ts'.
Proof. induction 1; cbn; lia. Qed.

(** C9: presenting the same per-tile (CDF, count) pairs in another order
    gives the same merged CDF. *)
Theorem average_tile_cdfs_order_independent
  (cdf_size : nat) (tiles tiles' : list tile_cdf) :
  Permutation tiles tiles' →
  av1_average_tile_cdfs cdf_size tiles = av1_average_tile_cdfs cdf_size tiles'.
Proof.
  intros Hperm. unfold av1_average_tile_cdfs. apply map_ext. intros i.
  unfold average_tile_entry. rewrite !accumulate_tiles_closed. cbn [fst snd].
  rewrite (weighted_total_perm i _ _ Hperm), (count_total_perm _ _ Hperm).
  reflexivity.
Qed.

Lemma average_tile_cdfs_order_independent_witness :
  let t1 := {| tile_values := [32768; 16384; 0]; tile_count := 3 |} in
  let t2 := {| tile_values := [20000; 4000; 0]; tile_count := 1 |} in
  let t3 := {| tile_values := [30000; 10000; 0]; tile_count := 6 |} in
  av1_average_tile_cdfs 3 [t1; t2; t3] = av1_average_tile_cdfs 3 [t3; t1; t2].
Proof.
  intros t1 t2 t3.
  apply (average_tile_cdfs_order_independent 3 [t1; t2; t3] [t3; t1; t2]).
  apply Permutation_sym. apply (Permutation_cons_app [t1; t2] [] t3). reflexivity.
Defined.

End TileAggregation.

(** *** The walk over a CDF *)

Section CostWalk.
Import Cost.

Variable AOM_ICDF : Z → Z.
Variables CDF_PROB_TOP EC_MIN_PROB : Z.
Variable av1_cost_symbol : Z → Z.

(** What the walk needs of the absent macros: the stored sentinel
    [AOM_ICDF(CDF_PROB_TOP)] is the only value whose inverse is
    [CDF_PROB_TOP], and probabilities fit [aom_cdf_prob]. *)
Hypothesis ICDF_sentinel : ∀ x, AOM_ICDF x = CDF_PROB_TOP ↔ x = AOM_ICDF CDF_PROB_TOP.
Hypothesis TOP_fits : CDF_PROB_TOP < 2 ^ 16.

Local Abbreviation icdf cdf i := (AOM_ICDF (nth i cdf 0)).
Local Abbreviation before := (icdf_before AOM_ICDF).
Local Abbreviation mass := (symbol_mass AOM_ICDF EC_MIN_PROB).
Local Abbreviation write := (symbol_write AOM_ICDF EC_MIN_PROB av1_cost_symbol).
Local Abbreviation ends_at := (cdf_ends_at AOM_ICDF CDF_PROB_TOP).
Local Abbreviation loop := (cost_tokens_loop AOM_ICDF CDF_PROB_TOP EC_MIN_PROB av1_cost_symbol).

Lemma lookup_nth_lt (l : list Z) (i : nat) :
  (i < length l)%nat → l !! i = Some (nth i l 0).
Proof.
  intros H. destruct (lookup_lt_is_Some_2 l i H) as [x Hx].
  rewrite Hx. f_equal. symmetry. apply nth_lookup_Some, Hx.
Qed.

Lemma icdf_before_range (cdf : list Z) (k i : nat) :
  ends_at cdf k → (i ≤ k)%nat → 0 ≤ before cdf i ∧ icdf cdf i ≤ CDF_PROB_TOP.
Proof.
  intros (Hlen & Htop & Hfirst & Hmono) Hi. split.
  - clear Htop Hfirst. induction i as [|i IH]; [cbn; lia|].
    cbn [icdf_before]. specialize (IH ltac:(lia)).
    specialize (Hmono i ltac:(lia)). lia.
  - rewrite <- Htop. clear Htop Hfirst.
    induction k as [|k IH]; [replace i with 0%nat by lia; lia|].
    destruct (decide (i = S k)) as [->|Hne]; [lia|].
    pose proof (Hmono (S k) ltac:(lia)) as Hk. cbn [icdf_before] in Hk.
    etransitivity; [|exact Hk]. apply IH; [lia| |lia].
    intros j Hj. apply Hmono. lia.
Qed.

Lemma clamped_mass_symbol (cdf : list Z) (k i : nat) :
  ends_at cdf k → (i ≤ k)%nat →
  clamped_mass EC_MIN_PROB (icdf cdf i) (before cdf i) = mass cdf i
  ∧ to_cdf_prob (icdf cdf i) = before cdf (S i).
Proof.
  intros Hcdf Hi. pose proof (icdf_before_range cdf k i Hcdf Hi) as [H0 Htop].
  destruct Hcdf as (_ & _ & _ & Hmono). specialize (Hmono i Hi).
  unfold clamped_mass, symbol_mass, to_cdf_prob. split.
  - rewrite Z.mod_small by lia.
    destruct (Z.ltb_spec (icdf cdf i - before cdf i) EC_MIN_PROB); lia.
  - cbn [icdf_before]. apply Z.mod_small. lia.
Qed.

Lemma store_cost_in_bounds (costs : list Z) (idx v : Z) :
  0 ≤ idx < Z.of_nat (length costs) →
  store_cost costs idx v = Some (<[Z.to_nat idx := v]> costs).
Proof. intros H. unfold store_cost. rewrite decide_True by exact H. reflexivity. Qed.

(** The walk from symbol [i] on, [n] symbols before the sentinel. *)
Lemma cost_tokens_loop_from (cdf : list Z) (inv_map : option (list Z)) (k : nat) :
  ends_at cdf k →
  ∀ (n i : nat) (costs : list Z) (writes : list (Z * Z)),
    (i + n = k)%nat →
    writes_in_bounds costs inv_map k →
    loop (drop i cdf) i (before cdf i) inv_map costs writes
    = Some {| res_costs := apply_writes costs (map (write cdf inv_map) (seq i (S n)));
              res_writes := writes ++ map (write cdf inv_map) (seq i (S n)) |}.
Proof.
  intros Hcdf n. induction n as [|n IH]; intros i costs writes Hin Hb.
  all: assert (i ≤ k)%nat as Hik by lia.
  all: pose proof (clamped_mass_symbol cdf k i Hcdf Hik) as [Hmass Hprev].
  all: pose proof Hcdf as (Hlen & Htop & Hfirst & _).
  all: pose proof Hb as (Hinv & Hidx).
  all: rewrite (drop_S cdf (nth i cdf 0) i) by (apply lookup_nth_lt; lia).
  all: cbn [cost_tokens_loop]; rewrite Hmass, Hprev.
  all: assert (match inv_map with Some m => m !! i | None => Some (Z.of_nat i) end
               = Some (cost_index inv_map i)) as ->
         by (destruct inv_map as [m|]; [|reflexivity]; cbn [cost_index];
             apply lookup_nth_lt; specialize (Hinv m eq_refl); lia).
  all: cbn [mbind option_bind]; rewrite store_cost_in_bounds by (apply Hidx; lia).
  all: cbn [mbind option_bind].
  - replace i with k by lia.
    apply ICDF_sentinel in Htop. rewrite Htop, Z.eqb_refl. reflexivity.
  - destruct (Z.eqb_spec (nth i cdf 0) (AOM_ICDF CDF_PROB_TOP)) as [Hs|Hs].
    + apply ICDF_sentinel in Hs. exfalso. apply (Hfirst i); [lia|exact Hs].
    + rewrite IH; [| lia |].
      * cbn [seq map apply_writes fold_left]. rewrite <- app_assoc. reflexivity.
      * destruct Hb as [Hb1 Hb2]. split; [exact Hb1|].
        intros j Hj. rewrite length_insert. apply Hb2, Hj.
Qed.

Lemma apply_writes_length (costs : list Z) (ws : list (Z * Z)) :
  length (apply_writes costs ws) = length costs.
Proof.
  revert costs. induction ws as [|w ws IH]; intros costs; [reflexivity|].
  cbn. unfold apply_writes in IH. rewrite IH, length_insert. reflexivity.
Qed.

(** A write stays visible unless a later write goes to the same place. *)
Lemma apply_writes_last (costs : list Z) (ws1 ws2 : list (Z * Z)) (idx v : Z) :
  (Z.to_nat idx < length costs)%nat →
  Forall (fun w => Z.to_nat (fst w) ≠ Z.to_nat idx) ws2 →
  apply_writes costs (ws1 ++ (idx, v) :: ws2) !! Z.to_nat idx = Some v.
Proof.
  intros Hlen Hlater. unfold apply_writes. rewrite fold_left_app. cbn [fold_left fst snd].
  fold (apply_writes costs ws1).
  assert (<[Z.to_nat idx := v]> (apply_writes costs ws1) !! Z.to_nat idx = Some v) as Hnow.
  { apply list_lookup_insert_eq. rewrite apply_writes_length. exact Hlen. }
  revert Hnow. generalize (<[Z.to_nat idx := v]> (apply_writes costs ws1)).
  induction Hlater as [|w ws2 Hw _ IH]; intros c Hc; [exact Hc|].
  cbn [fold_left]. apply IH. rewrite list_lookup_insert_ne by exact Hw. exact Hc.
Qed.

(** The walk as a whole: it returns, and leaves the writes of the symbols
    0..[k], in this order, applied to the cost array. *)
Lemma cost_tokens_from_cdf_run
  (costs cdf : list Z) (inv_map : option (list Z)) (k : nat) :
  ends_at cdf k →
  writes_in_bounds costs inv_map k →
  av1_cost_tokens_from_cdf AOM_ICDF CDF_PROB_TOP EC_MIN_PROB av1_cost_symbol
    costs cdf inv_map
  = Some {| res_costs := apply_writes costs (map (write cdf inv_map) (seq 0 (S k)));
            res_writes := map (write cdf inv_map) (seq 0 (S k)) |}.
Proof.
  intros Hcdf Hb. unfold av1_cost_tokens_from_cdf.
  apply (cost_tokens_loop_from cdf inv_map k Hcdf k 0%nat costs []); [lia|exact Hb].
Qed.

(** C2: on a CDF array whose inverse cumulative values reach
    [CDF_PROB_TOP] at index [k], the walk returns after the symbols 0..[k]:
    it makes exactly [k + 1] writes, the one of symbol [i] at index [i]
    (at [inv_map[i]] under an inverse map) with the cost of the mass
    [AOM_ICDF(cdf[i]) - AOM_ICDF(cdf[i-1])] floored at [EC_MIN_PROB], the
    value before the first symbol being zero. *)
Theorem cost_tokens_from_cdf_walk
  (costs cdf : list Z) (inv_map : option (list Z)) (k : nat) :
  ends_at cdf k →
  writes_in_bounds costs inv_map k →
  ∃ r, av1_cost_tokens_from_cdf AOM_ICDF CDF_PROB_TOP EC_MIN_PROB av1_cost_symbol
         costs cdf inv_map = Some r
    ∧ res_writes r = map (write cdf inv_map) (seq 0 (S k))
    ∧ length (res_writes r) = S k
    ∧ res_costs r = apply_writes costs (res_writes r)
    ∧ (∀ i, (i ≤ k)%nat →
         (∀ j, (i < j ≤ k)%nat → cost_index inv_map j ≠ cost_index inv_map i) →
         res_costs r !! Z.to_nat (cost_index inv_map i)
         = Some (av1_cost_symbol (mass cdf i))).
Proof.
  intros Hcdf Hb. eexists. split.
  { apply (cost_tokens_from_cdf_run costs cdf inv_map k Hcdf Hb). }
  cbn [res_writes res_costs app]. repeat split.
  - rewrite length_map, length_seq. reflexivity.
  - intros i Hi Hlater. destruct Hb as [_ Hidx].
    replace (S k) with (i + S (k - i))%nat by lia.
    rewrite seq_app, map_app. change (0 + i)%nat with i.
    cbn [seq map]. unfold symbol_write at 2.
    apply apply_writes_last.
    + specialize (Hidx i Hi). lia.
    + apply List.Forall_forall. intros w Hw. apply List.in_map_iff in Hw as (j & <- & Hj).
      apply List.in_seq in Hj. cbn [fst symbol_write].
      pose proof (Hidx i Hi). pose proof (Hidx j ltac:(lia)).
      specialize (Hlater j ltac:(lia)). lia.
Qed.

End CostWalk.

Lemma cost_tokens_from_cdf_walk_witness :
  ∃ r, Cost.av1_cost_tokens_from_cdf Cost.AOM_ICDF Cost.CDF_PROB_TOP Cost.EC_MIN_PROB
         Cost.av1_cost_symbol [0; 0; 0; 0] [16384; 16384; 0; 7] (Some [2; 1; 0])
       = Some r
    ∧ Cost.res_writes r = [(2, 512); (1, 6656); (0, 512)].
Proof.
  destruct (cost_tokens_from_cdf_walk Cost.AOM_ICDF Cost.CDF_PROB_TOP Cost.EC_MIN_PROB
              Cost.av1_cost_symbol
              ltac:(intros x; unfold Cost.AOM_ICDF; change Cost.CDF_PROB_TOP with 32768; lia)
              ltac:(reflexivity)
              [0; 0; 0; 0] [16384; 16384; 0; 7] (Some [2; 1; 0]) 2%nat)
    as (r & Hrun & Hwrites & _).
  - unfold Cost.cdf_ends_at, Cost.AOM_ICDF. change Cost.CDF_PROB_TOP with 32768.
    repeat split; [cbn; lia | | ].
    + intros i Hi. destruct i as [|[|i]]; cbn; lia.
    + intros i Hi. destruct i as [|[|[|i]]]; cbn; lia.
  - unfold Cost.writes_in_bounds. split.
    + intros m [= <-]. cbn. lia.
    + intros i Hi. destruct i as [|[|[|i]]]; cbn; lia.
  - exists r. split; [exact Hrun | exact Hwrites].
Defined.

(** *** The cost of a symbol *)

Section CostValues.
Import Cost.

Lemma all_from_spec (check : Z → bool) (fuel : nat) (p : Z) :
  all_from fuel p check = true →
  ∀ q, p ≤ q < p + Z.of_nat fuel → check q = true.
Proof.
  revert p. induction fuel as [|fuel IH]; intros p Hall q Hq; [lia|].
  cbn [all_from] in Hall. apply andb_true_iff in Hall as [Hp Hrest].
  destruct (Z.eq_dec q p) as [->|Hne]; [exact Hp|].
  apply (IH (p + 1) Hrest). lia.
Qed.

(** The cost table does not increase along its index and stays within
    16 bits. *)
Lemma av1_prob_cost_sorted (i j : Z) :
  0 ≤ i → i ≤ j → j < 256 → av1_cost_zero j ≤ av1_cost_zero i.
Proof.
  assert (all_from 255 0 (fun i => av1_cost_zero (i + 1) <=? av1_cost_zero i) = true)
    as Hadj by (vm_compute; reflexivity).
  intros Hi Hij Hj. revert Hj. pattern j. apply (Zlt_lower_bound_ind _ i); [|exact Hij].
  clear j Hij. intros j IH Hij Hj.
  destruct (Z.eq_dec j i) as [->|Hne]; [lia|].
  etransitivity; [|apply (IH (j - 1)); lia].
  pose proof (all_from_spec _ _ _ Hadj (j - 1) ltac:(lia)) as Hstep.
  cbv beta in Hstep. replace (j - 1 + 1) with j in Hstep by lia.
  apply Z.leb_le, Hstep.
Qed.

Lemma av1_prob_cost_range (i : Z) :
  0 ≤ i < 256 → 0 < av1_cost_zero i < 2 ^ 16.
Proof.
  assert (all_from 256 0 (fun i => (0 <? av1_cost_zero i) && (av1_cost_zero i <? 2 ^ 16)) = true)
    as Hall by (vm_compute; reflexivity).
  intros Hi. pose proof (all_from_spec _ _ _ Hall i ltac:(lia)) as H.
  cbv beta in H. apply andb_true_iff in H as [H1 H2]. apply Z.ltb_lt in H1, H2. lia.
Qed.

(** One step up in probability never costs more, and no cost is
    negative. *)
Lemma av1_cost_symbol_step (p : Z) :
  1 ≤ p < CDF_PROB_TOP - 1 →
  av1_cost_symbol (p + 1) ≤ av1_cost_symbol p ∧ 0 ≤ av1_cost_symbol (p + 1).
Proof.
  assert (all_from (Z.to_nat 32766) 1
            (fun p => (av1_cost_symbol (p + 1) <=? av1_cost_symbol p)
                      && (0 <=? av1_cost_symbol (p + 1))) = true)
    as Hadj by (vm_compute; reflexivity).
  change CDF_PROB_TOP with 32768. intros Hp.
  pose proof (all_from_spec _ _ _ Hadj p ltac:(lia)) as H. cbv beta in H.
  apply andb_true_iff in H as [H1 H2]. apply Z.leb_le in H1, H2. lia.
Qed.

Lemma av1_cost_symbol_antitone (p q : Z) :
  1 ≤ p → p ≤ q → q < CDF_PROB_TOP → av1_cost_symbol q ≤ av1_cost_symbol p.
Proof.
  intros Hp Hpq. pattern q. apply (Zlt_lower_bound_ind _ p); [|exact Hpq].
  clear q Hpq. intros q IH Hpq Hq.
  destruct (Z.eq_dec q p) as [->|Hne]; [lia|].
  etransitivity; [|apply (IH (q - 1)); lia].
  replace q with (q - 1 + 1) at 1 by lia. apply av1_cost_symbol_step. lia.
Qed.

Lemma av1_cost_symbol_nonneg (p : Z) :
  1 ≤ p < CDF_PROB_TOP → 0 ≤ av1_cost_symbol p.
Proof.
  intros Hp. destruct (Z.eq_dec p 1) as [->|Hne]; [vm_compute; discriminate|].
  replace p with (p - 1 + 1) by lia. apply av1_cost_symbol_step. lia.
Qed.

(** C3: on a valid CDF array the produced costs do not increase as the
    clamped probability mass of a symbol increases, and each of them lies
    between 0 and the cost of the minimum probability [EC_MIN_PROB]. *)
Theorem cost_tokens_monotone_and_bounded
  (costs cdf : list Z) (inv_map : option (list Z)) (k : nat) :
  cdf_ends_at AOM_ICDF CDF_PROB_TOP cdf k →
  writes_in_bounds costs inv_map k →
  (∀ i, (i ≤ k)%nat → symbol_mass AOM_ICDF EC_MIN_PROB cdf i < CDF_PROB_TOP) →
  ∃ r, av1_cost_tokens_from_cdf AOM_ICDF CDF_PROB_TOP EC_MIN_PROB av1_cost_symbol
         costs cdf inv_map = Some r
    ∧ (∀ i j, (i ≤ k)%nat → (j ≤ k)%nat →
         symbol_mass AOM_ICDF EC_MIN_PROB cdf i ≤ symbol_mass AOM_ICDF EC_MIN_PROB cdf j →
         produced_cost r j ≤ produced_cost r i)
    ∧ (∀ i, (i ≤ k)%nat →
         0 ≤ produced_cost r i ≤ av1_cost_symbol EC_MIN_PROB).
Proof.
  intros Hcdf Hb Hmass. eexists. split.
  { apply (cost_tokens_from_cdf_run AOM_ICDF CDF_PROB_TOP EC_MIN_PROB av1_cost_symbol
             ltac:(intros x; unfold AOM_ICDF; change CDF_PROB_TOP with 32768; lia)
             ltac:(reflexivity) costs cdf inv_map k Hcdf Hb). }
  assert (∀ i, (i ≤ k)%nat →
            produced_cost
              {| res_costs := apply_writes costs
                   (map (symbol_write AOM_ICDF EC_MIN_PROB av1_cost_symbol cdf inv_map)
                        (seq 0 (S k)));
                 res_writes :=
                   map (symbol_write AOM_ICDF EC_MIN_PROB av1_cost_symbol cdf inv_map)
                       (seq 0 (S k)) |} i
            = av1_cost_symbol (symbol_mass AOM_ICDF EC_MIN_PROB cdf i))
    as Hcost.
  { intros i Hi. unfold produced_cost. cbn [res_writes].
    rewrite (nth_indep _ (0, 0)
               (symbol_write AOM_ICDF EC_MIN_PROB av1_cost_symbol cdf inv_map 0%nat))
      by (rewrite length_map, length_seq; lia).
    rewrite map_nth, seq_nth by lia. reflexivity. }
  assert (∀ i, (i ≤ k)%nat →
            EC_MIN_PROB ≤ symbol_mass AOM_ICDF EC_MIN_PROB cdf i) as Hfloor.
  { intros i _. unfold symbol_mass. lia. }
  assert (1 ≤ EC_MIN_PROB) as Hmin by (vm_compute; discriminate).
  split.
  - intros i j Hi Hj Hij. rewrite !Hcost by assumption.
    apply av1_cost_symbol_antitone; [|exact Hij|apply Hmass, Hj].
    specialize (Hfloor i Hi). lia.
  - intros i Hi. rewrite Hcost by assumption. split.
    + apply av1_cost_symbol_nonneg. specialize (Hfloor i Hi).
      specialize (Hmass i Hi). lia.
    + apply av1_cost_symbol_antitone; [exact Hmin|apply Hfloor, Hi|apply Hmass, Hi].
Qed.

Lemma cost_tokens_monotone_and_bounded_witness :
  ∃ r, av1_cost_tokens_from_cdf AOM_ICDF CDF_PROB_TOP EC_MIN_PROB av1_cost_symbol
         [0; 0; 0; 0] [16384; 16384; 0; 7] None = Some r
    ∧ 0 ≤ produced_cost r 1 ≤ av1_cost_symbol EC_MIN_PROB.
Proof.
  destruct (cost_tokens_monotone_and_bounded [0; 0; 0; 0] [16384; 16384; 0; 7] None 2%nat)
    as (r & Hrun & _ & Hbound).
  - unfold cdf_ends_at, AOM_ICDF. change CDF_PROB_TOP with 32768.
    repeat split; [cbn; lia | | ].
    + intros i Hi. destruct i as [|[|i]]; cbn; lia.
    + intros i Hi. destruct i as [|[|[|i]]]; cbn; lia.
  - unfold writes_in_bounds. split; [discriminate|].
    intros i Hi. destruct i as [|[|[|i]]]; cbn; lia.
  - intros i Hi. destruct i as [|[|[|i]]]; [vm_compute; reflexivity..|lia].
  - exists r. split; [exact Hrun | apply Hbound; lia].
Defined.

End CostValues.

(** *** Lanes *)

Section LaneFacts.
Import Sgr.

Lemma wrap32_range x : 0 ≤ wrap32 x < 2 ^ 32.
Proof. unfold wrap32. apply Z.mod_pos_bound. lia. Qed.

Lemma wrap32_small x : 0 ≤ x < 2 ^ 32 → wrap32 x = x.
Proof. unfold wrap32. apply Z.mod_small. Qed.

Lemma wrap32_idem x : wrap32 (wrap32 x) = wrap32 x.
Proof. unfold wrap32. apply Z.mod_mod. lia. Qed.

Lemma signed32_range x : - 2 ^ 31 ≤ signed32 x < 2 ^ 31.
Proof.
  unfold signed32. pose proof (wrap32_range x).
  destruct (Z.ltb_spec (wrap32 x) (2 ^ 31)); lia.
Qed.

Lemma signed32_small x : - 2 ^ 31 ≤ x < 2 ^ 31 → signed32 x = x.
Proof.
  intros Hx. unfold signed32, wrap32.
  destruct (Z.ltb_spec (x mod 2 ^ 32) (2 ^ 31)) as [H|H];
    revert H; Z.div_mod_to_equations; lia.
Qed.

Lemma signed32_nonneg_small x : 0 ≤ x < 2 ^ 31 → signed32 x = x.
Proof. intros. apply signed32_small. lia. Qed.

(** The lanes of a load are the elements at the eight offsets. *)
Lemma lane_cases (P : Z → Prop) :
  P 0 → P 1 → P 2 → P 3 → P 4 → P 5 → P 6 → P 7 →
  ∀ k, 0 ≤ k < 8 → P k.
Proof.
  intros H0 H1 H2 H3 H4 H5 H6 H7 k Hk.
  assert (k = 0 ∨ k = 1 ∨ k = 2 ∨ k = 3 ∨ k = 4 ∨ k = 5 ∨ k = 6 ∨ k = 7)
    as [->|[->|[->|[->|[->|[->|[->| ->]]]]]]] by lia; assumption.
Qed.

Lemma lane_loadu (m : buffer) (p k : Z) :
  0 ≤ k < 8 → lane (yy_loadu_256 m p) k = m (p + k).
Proof.
  revert k. apply lane_cases; cbn; try reflexivity. f_equal. lia.
Qed.

Lemma lane_map256 (f : Z → Z) (a : m256i) (k : Z) :
  lane (map256 f a) k = f (lane a k).
Proof. destruct a. unfold lane. cbn. repeat (destruct k as [|[k|k|]|]; try reflexivity). Qed.

Lemma lane_zip256 (f : Z → Z → Z) (a b : m256i) (k : Z) :
  lane (zip256 f a b) k = f (lane a k) (lane b k).
Proof. destruct a, b. unfold lane. cbn. repeat (destruct k as [|[k|k|]|]; try reflexivity). Qed.

Lemma lane_add (a b : m256i) k :
  lane (_mm256_add_epi32 a b) k = wrap32 (lane a k + lane b k).
Proof. apply lane_zip256. Qed.

Lemma lane_sub (a b : m256i) k :
  lane (_mm256_sub_epi32 a b) k = wrap32 (lane a k - lane b k).
Proof. apply lane_zip256. Qed.

Lemma lane_mullo (a b : m256i) k :
  lane (_mm256_mullo_epi32 a b) k = wrap32 (lane a k * lane b k).
Proof. apply lane_zip256. Qed.

Lemma lane_set1 (a k : Z) : lane (_mm256_set1_epi32 a) k = wrap32 a.
Proof. unfold lane. cbn. repeat (destruct k as [|[k|k|]|]; try reflexivity). Qed.

Lemma sll32_mul (count a : Z) :
  0 ≤ count ≤ 31 → sll32 count a = wrap32 (a * 2 ^ count).
Proof.
  intros Hc. unfold sll32. destruct (Z.gtb_spec count 31); [lia|].
  rewrite Z.shiftl_mul_pow2 by lia. unfold wrap32. Z.mod_equality.
Qed.

End LaneFacts.

(** *** The cross sum *)

Section CrossSum.
Import Sgr.

(** C7: every lane of [cross_sum], computed as
    [((fours + threes) << 2) - threes], is the 9-tap sum with weight 3 at
    the corners and 4 elsewhere, which is also four times the sum of all
    nine minus the sum of the corners (32-bit arithmetic throughout). *)
Theorem cross_sum_is_nine_tap (buf : buffer) (stride k : Z) :
  0 ≤ k < 8 →
  lane (cross_sum buf stride) k = nine_tap buf stride k
  ∧ lane (cross_sum buf stride) k = four_all_minus_corners buf stride k.
Proof.
  intros Hk. unfold cross_sum.
  rewrite lane_sub. unfold _mm256_slli_epi32. rewrite lane_map256, sll32_mul by lia.
  rewrite !lane_add, !lane_loadu by exact Hk.
  unfold nine_tap, four_all_minus_corners.
  replace (-1 - stride + k) with (k - 1 - stride) by lia.
  replace (- stride + k) with (k - stride) by lia.
  replace (1 - stride + k) with (k + 1 - stride) by lia.
  replace (-1 + k) with (k - 1) by lia.
  replace (0 + k) with k by lia.
  replace (1 + k) with (k + 1) by lia.
  replace (-1 + stride + k) with (k - 1 + stride) by lia.
  replace (stride + k) with (k + stride) by lia.
  replace (1 + stride + k) with (k + 1 + stride) by lia.
  unfold wrap32. change (2 ^ 2) with 4. split; Z.mod_equality.
Qed.

Lemma cross_sum_is_nine_tap_witness :
  let buf : buffer := fun q => 1000000 * q * q + 4294967000 in
  lane (cross_sum buf 16) 3 = nine_tap buf 16 3
  ∧ lane (cross_sum buf 16) 3 = four_all_minus_corners buf 16 3.
Proof.
  intros buf. exact (cross_sum_is_nine_tap buf 16 3 ltac:(lia)).
Defined.

End CrossSum.

(** *** The index into the reciprocal table *)

Section TableIndex.
Import Sgr.

Lemma srl32_range (count a : Z) :
  1 ≤ count → 0 ≤ srl32 count a < 2 ^ 31.
Proof.
  intros Hc. unfold srl32. destruct (Z.gtb_spec count 31); [lia|].
  rewrite Z.shiftr_div_pow2 by lia. pose proof (wrap32_range a) as Ha.
  assert (2 ^ 1 ≤ 2 ^ count) as Hpow by (apply Z.pow_le_mono_r; lia).
  change (2 ^ 1) with 2 in Hpow. split.
  - apply Z.div_pos; lia.
  - apply Z.div_lt_upper_bound; lia.
Qed.

Lemma min_epi32_255 (t : Z) :
  0 ≤ t < 2 ^ 31 →
  0 ≤ (if signed32 t <? signed32 (wrap32 255) then wrap32 t else wrap32 (wrap32 255)) ≤ 255.
Proof.
  intros Ht. change (wrap32 255) with 255. change (signed32 255) with 255.
  rewrite signed32_nonneg_small by exact Ht. rewrite wrap32_small by lia.
  change (wrap32 255) with 255. destruct (Z.ltb_spec t 255); lia.
Qed.

(** C10: whatever the variance proxy [p] and the multiplier [s] are, also
    when their 32-bit product wraps, every lane of the index [z] lies in
    [0, 255]; so does every index that [calc_ab] gathers with. *)
Theorem calc_ab_index_in_table (SGRPROJ_MTABLE_BITS : Z) :
  1 ≤ SGRPROJ_MTABLE_BITS →
  (∀ (p s : m256i) (k : Z),
     0 ≤ signed32 (lane (calc_ab_z SGRPROJ_MTABLE_BITS p s) k) ≤ 255)
  ∧ (∀ (sgrproj_mtable : Z → Z → Z) (C D : buffer)
       (buf_stride eps bit_depth r i j k : Z),
       0 ≤ signed32 (lane (calc_ab_index SGRPROJ_MTABLE_BITS sgrproj_mtable
                             C D buf_stride eps bit_depth r i j) k) ≤ 255).
Proof.
  intros Hbits.
  assert (∀ (p s : m256i) (k : Z),
            0 ≤ signed32 (lane (calc_ab_z SGRPROJ_MTABLE_BITS p s) k) ≤ 255) as Hz.
  { intros p s k. unfold calc_ab_z, _mm256_min_epi32, _mm256_srli_epi32.
    rewrite lane_zip256, lane_map256, lane_set1.
    match goal with |- context [srl32 ?c ?a] =>
      pose proof (min_epi32_255 (srl32 c a) (srl32_range c a Hbits)) as Hmin end.
    rewrite signed32_nonneg_small; [exact Hmin | lia]. }
  split; [exact Hz|]. intros. unfold calc_ab_index. apply Hz.
Qed.

Lemma calc_ab_index_in_table_witness :
  0 ≤ signed32 (lane (calc_ab_z 20 (_mm256_set1_epi32 (-7)) (_mm256_set1_epi32 3236)) 5) ≤ 255.
Proof.
  exact (proj1 (calc_ab_index_in_table 20 ltac:(lia))
           (_mm256_set1_epi32 (-7)) (_mm256_set1_epi32 3236) 5).
Defined.

End TableIndex.

(** *** The clamp of the blended samples *)

Section Clamp.
Import Sgr.

Lemma wrap16_range x : 0 ≤ wrap16 x < 2 ^ 16.
Proof. unfold wrap16. apply Z.mod_pos_bound. lia. Qed.

Lemma wrap8_range x : 0 ≤ wrap8 x < 2 ^ 8.
Proof. unfold wrap8. apply Z.mod_pos_bound. lia. Qed.

Lemma wrap16_small x : 0 ≤ x < 2 ^ 16 → wrap16 x = x.
Proof. unfold wrap16. apply Z.mod_small. Qed.

Lemma wrap8_small x : 0 ≤ x < 2 ^ 8 → wrap8 x = x.
Proof. unfold wrap8. apply Z.mod_small. Qed.

Lemma lo16_pack16 a b : lo16 (pack16 a b) = wrap16 a.
Proof.
  unfold lo16, pack16. pose proof (wrap16_range a). pose proof (wrap16_range b).
  generalize dependent (wrap16 a). generalize dependent (wrap16 b). intros y Hy x Hx.
  unfold wrap16. Z.div_mod_to_equations. lia.
Qed.

Lemma hi16_pack16 a b : hi16 (pack16 a b) = wrap16 b.
Proof.
  unfold hi16, pack16. pose proof (wrap16_range a). pose proof (wrap16_range b).
  generalize dependent (wrap16 a). generalize dependent (wrap16 b). intros y Hy x Hx.
  rewrite wrap32_small by lia. Z.div_mod_to_equations. lia.
Qed.

Lemma byte_of_pack8 b0 b1 b2 b3 :
  byte_of (pack8 b0 b1 b2 b3) 0 = wrap8 b0 ∧ byte_of (pack8 b0 b1 b2 b3) 1 = wrap8 b1 ∧
  byte_of (pack8 b0 b1 b2 b3) 2 = wrap8 b2 ∧ byte_of (pack8 b0 b1 b2 b3) 3 = wrap8 b3.
Proof.
  unfold byte_of, pack8.
  pose proof (wrap8_range b0). pose proof (wrap8_range b1).
  pose proof (wrap8_range b2). pose proof (wrap8_range b3).
  generalize dependent (wrap8 b0). generalize dependent (wrap8 b1).
  generalize dependent (wrap8 b2). generalize dependent (wrap8 b3).
  intros x3 H3 x2 H2 x1 H1 x0 H0.
  rewrite wrap32_small by lia. unfold wrap8.
  change (2 ^ (8 * 0)) with 1. change (2 ^ (8 * 1)) with (2 ^ 8).
  change (2 ^ (8 * 2)) with (2 ^ 16). change (2 ^ (8 * 3)) with (2 ^ 24).
  repeat split; Z.div_mod_to_equations; lia.
Qed.

Lemma signed16_small x : - 2 ^ 15 ≤ x < 2 ^ 15 → signed16 x = x.
Proof.
  intros Hx. unfold signed16, wrap16.
  destruct (Z.ltb_spec (x mod 2 ^ 16) (2 ^ 15)) as [H|H];
    revert H; Z.div_mod_to_equations; lia.
Qed.

Lemma signed16_wrap16 x : signed16 (wrap16 x) = signed16 x.
Proof. unfold signed16, wrap16. rewrite Z.mod_mod by lia. reflexivity. Qed.

Lemma saturate_range lo hi x : lo ≤ hi → lo ≤ saturate lo hi x ≤ hi.
Proof.
  intros H. unfold saturate.
  destruct (Z.ltb_spec x lo); [lia|]. destruct (Z.gtb_spec x hi); lia.
Qed.

(** Signed saturation to 16 bits followed by unsigned saturation to 8
    bits clamps to [0, 255]. *)
Lemma sat_u8_sat_s16 x : sat_u8 (wrap16 (sat_s16 x)) = saturate 0 255 (signed32 x).
Proof.
  unfold sat_u8, sat_s16. rewrite !signed16_wrap16.
  pose proof (saturate_range (-32768) 32767 (signed32 x) ltac:(lia)) as Hs.
  rewrite signed16_small by lia. unfold saturate.
  destruct (Z.ltb_spec (signed32 x) (-32768)), (Z.gtb_spec (signed32 x) 32767);
    cbn; try lia;
    destruct (Z.ltb_spec (signed32 x) 0), (Z.gtb_spec (signed32 x) 255); lia.
Qed.

Lemma sixteen_cases (P : Z → Prop) :
  P 0 → P 1 → P 2 → P 3 → P 4 → P 5 → P 6 → P 7 →
  P 8 → P 9 → P 10 → P 11 → P 12 → P 13 → P 14 → P 15 →
  ∀ t, 0 ≤ t < 16 → P t.
Proof.
  intros H0 H1 H2 H3 H4 H5 H6 H7 H8 H9 H10 H11 H12 H13 H14 H15 t Ht.
  assert (t = 0 ∨ t = 1 ∨ t = 2 ∨ t = 3 ∨ t = 4 ∨ t = 5 ∨ t = 6 ∨ t = 7 ∨
          t = 8 ∨ t = 9 ∨ t = 10 ∨ t = 11 ∨ t = 12 ∨ t = 13 ∨ t = 14 ∨ t = 15)
    as Hcases by lia.
  repeat (destruct Hcases as [->|Hcases]; [assumption|]). subst. assumption.
Qed.

Lemma permute_216 (a : m256i) :
  _mm256_permute4x64_epi64 a 216
  = mk256 (ln0 a) (ln1 a) (ln4 a) (ln5 a) (ln2 a) (ln3 a) (ln6 a) (ln7 a).
Proof. destruct a. reflexivity. Qed.

(** The 8-bit store writes, at offset [t] of the batch, the blended value
    clamped to [0, 255]. *)
Lemma store_lowbd_sample (dst : buffer) (m : Z) (w_0 w_1 : m256i) (t : Z) :
  0 ≤ t < 16 →
  store_lowbd dst m w_0 w_1 (m + t) = saturate 0 255 (signed32 (batch_lane w_0 w_1 t)).
Proof.
  intros Ht. unfold store_lowbd, xx_store_128.
  replace (m + t - m) with t by lia.
  replace ((m <=? m + t) && (m + t <? m + 16)) with true
    by (symmetry; apply andb_true_iff; split; [apply Z.leb_le|apply Z.ltb_lt]; lia).
  rewrite !permute_216. destruct w_0, w_1.
  cbv [_mm256_castsi256_si128 _mm256_packus_epi16 _mm256_packs_epi32 pack32
       ln0 ln1 ln2 ln3 ln4 ln5 ln6 ln7].
  revert t Ht. apply sixteen_cases.
  all: match goal with |- byte_of (lane128 _ (?t / 4)) (?t mod 4) = _ =>
      let q := eval vm_compute in (t / 4) in
      let r := eval vm_compute in (t mod 4) in
      change (t / 4) with q; change (t mod 4) with r
    end.
  all: cbv [lane128 qn0 qn1 qn2 qn3 pack_u8_pair].
  all: rewrite ?lo16_pack16, ?hi16_pack16, ?sat_u8_sat_s16.
  all: match goal with |- byte_of (pack8 ?a ?b ?c ?d) _ = saturate _ _ (signed32 ?l) =>
      destruct (byte_of_pack8 a b c d) as (E0 & E1 & E2 & E3);
      first [rewrite E0 | rewrite E1 | rewrite E2 | rewrite E3];
      let v := eval vm_compute in l in change l with v
    end.
  all: apply wrap8_small; match goal with |- context [saturate 0 255 ?x] =>
         pose proof (saturate_range 0 255 x ltac:(lia)) end; lia.
Qed.

Lemma min_s16_wrap16 a b : min_s16 (wrap16 a) (wrap16 b) = min_s16 a b.
Proof.
  unfold min_s16. rewrite !signed16_wrap16. unfold wrap16.
  rewrite !Z.mod_mod by lia. reflexivity.
Qed.

Lemma wrap16_min_s16 a b : wrap16 (min_s16 a b) = min_s16 a b.
Proof.
  unfold min_s16. destruct (signed16 a <? signed16 b); unfold wrap16;
    apply Z.mod_mod; lia.
Qed.

Lemma sat_u16_range x : 0 ≤ sat_u16 x < 2 ^ 16.
Proof.
  unfold sat_u16. pose proof (saturate_range 0 65535 (signed32 x) ltac:(lia)). lia.
Qed.

(** The high-bit-depth store writes, at offset [t] of the batch, the signed
    16-bit minimum of the blended value saturated to [0, 65535] and of
    [(1 << bit_depth) - 1]. *)
Lemma store_highbd_sample (dst : buffer) (m : Z) (w_0 w_1 : m256i) (bit_depth t : Z) :
  0 ≤ t < 16 →
  store_highbd dst m w_0 w_1 bit_depth (m + t)
  = min_s16 (sat_u16 (batch_lane w_0 w_1 t)) (Z.shiftl 1 bit_depth - 1).
Proof.
  intros Ht. unfold store_highbd, yy_store_256_short.
  replace (m + t - m) with t by lia.
  replace ((m <=? m + t) && (m + t <? m + 16)) with true
    by (symmetry; apply andb_true_iff; split; [apply Z.leb_le|apply Z.ltb_lt]; lia).
  rewrite !permute_216. destruct w_0, w_1.
  generalize (Z.shiftl 1 bit_depth - 1). intros M.
  cbv [_mm256_packus_epi32 pack32 _mm256_min_epi16 _mm256_set1_epi16 zip256
       ln0 ln1 ln2 ln3 ln4 ln5 ln6 ln7].
  revert t Ht. apply sixteen_cases.
  all: match goal with |- (if ?t mod 2 =? 0 then _ else _) = _ =>
      let q := eval vm_compute in (t / 2) in
      let r := eval vm_compute in (t mod 2 =? 0) in
      change (t / 2) with q; change (t mod 2 =? 0) with r
    end.
  all: cbv [lane ln0 ln1 ln2 ln3 ln4 ln5 ln6 ln7].
  all: rewrite ?lo16_pack16, ?hi16_pack16, ?min_s16_wrap16, ?wrap16_min_s16.
  all: match goal with |- _ = min_s16 (sat_u16 ?l) _ =>
      let v := eval vm_compute in l in change l with v
    end.
  all: reflexivity.
Qed.

Lemma store_lowbd_frame (dst : buffer) (m : Z) (w_0 w_1 : m256i) (q : Z) :
  ¬ (m ≤ q < m + 16) → store_lowbd dst m w_0 w_1 q = dst q.
Proof.
  intros Hq. unfold store_lowbd, xx_store_128.
  destruct (Z.leb_spec m q), (Z.ltb_spec q (m + 16)); cbn; try reflexivity; lia.
Qed.

Lemma store_highbd_frame (dst : buffer) (m : Z) (w_0 w_1 : m256i) (bit_depth q : Z) :
  ¬ (m ≤ q < m + 16) → store_highbd dst m w_0 w_1 bit_depth q = dst q.
Proof.
  intros Hq. unfold store_highbd, yy_store_256_short.
  destruct (Z.leb_spec m q), (Z.ltb_spec q (m + 16)); cbn; try reflexivity; lia.
Qed.

(** When the signed 16-bit minimum clamps and when it does not. *)
Lemma min_s16_clamps (w bit_depth : Z) :
  1 ≤ bit_depth ≤ 15 →
  let sample := min_s16 (sat_u16 w) (Z.shiftl 1 bit_depth - 1) in
  (signed32 w < 2 ^ 15 →
     sample = Z.min (Z.max 0 (signed32 w)) (2 ^ bit_depth - 1)
     ∧ 0 ≤ sample ≤ 2 ^ bit_depth - 1)
  ∧ (2 ^ 15 ≤ signed32 w →
     sample = Z.min (signed32 w) 65535 ∧ 2 ^ bit_depth - 1 < sample).
Proof.
  intros Hbd sample. subst sample.
  rewrite Z.shiftl_mul_pow2, Z.mul_1_l by lia.
  assert (2 ^ 1 ≤ 2 ^ bit_depth ≤ 2 ^ 15) as Hpow
    by (split; apply Z.pow_le_mono_r; lia).
  change (2 ^ 1) with 2 in Hpow. change (2 ^ 15) with 32768 in *.
  unfold min_s16, sat_u16, saturate.
  rewrite (signed16_small (2 ^ bit_depth - 1)) by lia.
  rewrite (wrap16_small (2 ^ bit_depth - 1)) by lia.
  split; intros Hw.
  - destruct (Z.ltb_spec (signed32 w) 0).
    + change (signed16 0) with 0. change (wrap16 0) with 0.
      destruct (Z.ltb_spec 0 (2 ^ bit_depth - 1)); lia.
    + destruct (Z.gtb_spec (signed32 w) 65535); [lia|].
      rewrite signed16_small, wrap16_small by lia.
      destruct (Z.ltb_spec (signed32 w) (2 ^ bit_depth - 1)); lia.
  - destruct (Z.ltb_spec (signed32 w) 0); [lia|].
    destruct (Z.gtb_spec (signed32 w) 65535).
    + change (signed16 65535) with (-1). change (wrap16 65535) with 65535.
      destruct (Z.ltb_spec (-1) (2 ^ bit_depth - 1)); lia.
    + assert (signed16 (signed32 w) = signed32 w - 65536) as ->.
      { unfold signed16, wrap16. rewrite Z.mod_small by lia.
        destruct (Z.ltb_spec (signed32 w) (2 ^ 15)); change (2 ^ 16) with 65536; lia. }
      rewrite wrap16_small by lia.
      destruct (Z.ltb_spec (signed32 w - 65536) (2 ^ bit_depth - 1)); lia.
Qed.

End Clamp.

(** *** Sums over ranges *)

Section RangeSums.
Import Sgr.

Lemma sum_upto_ext (n : nat) (g h : Z → Z) :
  (∀ t, 0 ≤ t < Z.of_nat n → g t = h t) → sum_upto n g = sum_upto n h.
Proof.
  induction n as [|n IH]; intros Hgh; [reflexivity|].
  cbn [sum_upto]. rewrite IH, Hgh by (intros; try apply Hgh; lia). reflexivity.
Qed.

Lemma sum_upto_add (n : nat) (g h : Z → Z) :
  sum_upto n (fun t => g t + h t) = sum_upto n g + sum_upto n h.
Proof. induction n as [|n IH]; cbn [sum_upto]; lia. Qed.

Lemma sum_upto_app (n m : nat) (g : Z → Z) :
  sum_upto (n + m) g = sum_upto n g + sum_upto m (fun t => g (Z.of_nat n + t)).
Proof.
  induction m as [|m IH]; cbn [sum_upto]; [rewrite Nat.add_0_r; lia|].
  rewrite Nat.add_succ_r. cbn [sum_upto]. rewrite IH, Nat2Z.inj_add. lia.
Qed.

Lemma sum_range_empty (lo : Z) (g : Z → Z) : sum_range lo lo g = 0.
Proof. unfold sum_range. rewrite Z.sub_diag. reflexivity. Qed.

Lemma sum_range_succ (lo hi : Z) (g : Z → Z) :
  lo ≤ hi → sum_range lo (hi + 1) g = sum_range lo hi g + g hi.
Proof.
  intros H. unfold sum_range.
  replace (Z.to_nat (hi + 1 - lo)) with (S (Z.to_nat (hi - lo))) by lia.
  cbn [sum_upto]. rewrite Z2Nat.id by lia. do 2 f_equal. lia.
Qed.

Lemma sum_range_split (lo mid hi : Z) (g : Z → Z) :
  lo ≤ mid → mid ≤ hi → sum_range lo hi g = sum_range lo mid g + sum_range mid hi g.
Proof.
  intros H1 H2. unfold sum_range.
  replace (Z.to_nat (hi - lo)) with (Z.to_nat (mid - lo) + Z.to_nat (hi - mid))%nat by lia.
  rewrite sum_upto_app. f_equal. apply sum_upto_ext. intros t Ht.
  f_equal. lia.
Qed.

Lemma sum_range_ext (lo hi : Z) (g h : Z → Z) :
  (∀ t, lo ≤ t < hi → g t = h t) → sum_range lo hi g = sum_range lo hi h.
Proof.
  intros Hgh. unfold sum_range. apply sum_upto_ext. intros t Ht. apply Hgh. lia.
Qed.

Lemma sum_range_add (lo hi : Z) (g h : Z → Z) :
  sum_range lo hi (fun t => g t + h t) = sum_range lo hi g + sum_range lo hi h.
Proof. unfold sum_range. apply sum_upto_add. Qed.

Lemma sum_range_nonneg (lo hi : Z) (g : Z → Z) :
  (∀ t, lo ≤ t < hi → 0 ≤ g t) → 0 ≤ sum_range lo hi g.
Proof.
  intros Hg. unfold sum_range.
  assert (∀ n : nat, Z.of_nat n ≤ Z.max 0 (hi - lo) →
                     0 ≤ sum_upto n (fun t => g (lo + t))) as H.
  { induction n as [|n IH]; intros Hn; cbn [sum_upto]; [lia|].
    specialize (IH ltac:(lia)). specialize (Hg (lo + Z.of_nat n) ltac:(lia)). lia. }
  apply H. lia.
Qed.

Lemma prefix_sum_row0 f x : prefix_sum f 0 x = 0.
Proof. apply sum_range_empty. Qed.

Lemma prefix_sum_col0 f y : prefix_sum f y 0 = 0.
Proof.
  unfold prefix_sum, sum_range at 1.
  induction (Z.to_nat (y - 0)) as [|n IH]; cbn [sum_upto]; [reflexivity|].
  rewrite IH, sum_range_empty. reflexivity.
Qed.

Lemma prefix_sum_next_row f y x :
  0 ≤ y → prefix_sum f (y + 1) x = prefix_sum f y x + row_sum f y x.
Proof. intros Hy. unfold prefix_sum. rewrite sum_range_succ by lia. reflexivity. Qed.

(** The second difference of the prefix sums is the sum over the
    rectangle. *)
Lemma prefix_sum_rectangle f y1 y2 x1 x2 :
  0 ≤ y1 → y1 ≤ y2 → 0 ≤ x1 → x1 ≤ x2 →
  prefix_sum f y2 x2 - prefix_sum f y2 x1 - (prefix_sum f y1 x2 - prefix_sum f y1 x1)
  = sum_range y1 y2 (fun y' => sum_range x1 x2 (fun x' => f y' x')).
Proof.
  intros Hy1 Hy Hx1 Hx.
  assert (∀ y, prefix_sum f y x2 - prefix_sum f y x1
               = sum_range 0 y (fun y' => sum_range x1 x2 (fun x' => f y' x'))) as Hcols.
  { intros y. unfold prefix_sum.
    rewrite (sum_range_ext 0 y (fun y' => sum_range 0 x2 (fun x' => f y' x'))
               (fun y' => sum_range 0 x1 (fun x' => f y' x')
                          + sum_range x1 x2 (fun x' => f y' x'))).
    - rewrite sum_range_add. lia.
    - intros t _. apply sum_range_split; lia. }
  rewrite !Hcols. rewrite (sum_range_split 0 y1 y2) by lia. lia.
Qed.

End RangeSums.

(** *** The integral images *)

Section ScanFacts.
Import Sgr.

Lemma wrap32_signed32 x : wrap32 (signed32 x) = wrap32 x.
Proof.
  unfold signed32. destruct (wrap32 x <? 2 ^ 31); [apply wrap32_idem|].
  unfold wrap32. Z.div_mod_to_equations. lia.
Qed.

(** Lane [k] of the scan is the sum of the lanes 0..[k]. *)
Lemma lane_scan_32 (x : m256i) (k : Z) :
  0 ≤ k < 8 →
  lane (scan_32 x) k = wrap32 (sum_upto (Z.to_nat (k + 1)) (lane x)).
Proof.
  destruct x as [a0 a1 a2 a3 a4 a5 a6 a7]. revert k.
  unfold scan_32, _mm256_slli_si256.
  change (4 / 4) with 1. change (8 / 4) with 2.
  unfold _mm256_extract_epi32. change (3 mod 8) with 3.
  unfold _mm256_insertf128_si256. change (Z.testbit 1 0) with true.
  cbv [_mm256_add_epi32 zip256 _mm_set1_epi32 _mm256_setzero_si256
       ln0 ln1 ln2 ln3 ln4 ln5 ln6 ln7 qn0 qn1 qn2 qn3].
  apply lane_cases.
  all: match goal with |- context [Z.to_nat ?e] =>
         let v := eval vm_compute in (Z.to_nat e) in change (Z.to_nat e) with v end.
  all: cbv [sum_upto lane Z.of_nat Pos.of_succ_nat Pos.succ
            ln0 ln1 ln2 ln3 ln4 ln5 ln6 ln7].
  all: rewrite ?wrap32_signed32; unfold wrap32; Z.mod_equality.
Qed.

End ScanFacts.

Section IntegralImageFacts.
Import Sgr.

(** A loop keeps what each of its rounds keeps. *)
Lemma for_loop_inv {St : Type} (Inv : nat → St → Prop) (body : Z → St → St)
  (step : Z) (n : nat) (i0 : Z) (s0 : St) :
  (∀ t s, (t < n)%nat → Inv t s → Inv (S t) (body (i0 + Z.of_nat t * step) s)) →
  Inv 0%nat s0 → Inv n (for_loop n i0 step body s0).
Proof.
  revert Inv i0 s0. induction n as [|n IH]; intros Inv i0 s0 Hstep H0; [exact H0|].
  cbn [for_loop]. apply (IH (fun t s => Inv (S t) s)).
  - intros t s Ht Hs.
    replace (i0 + step + Z.of_nat t * step) with (i0 + Z.of_nat (S t) * step) by lia.
    apply Hstep; [lia|exact Hs].
  - specialize (Hstep 0%nat s0 ltac:(lia) H0).
    replace (i0 + Z.of_nat 0 * step) with i0 in Hstep by lia. exact Hstep.
Qed.

Lemma wrap32_sum_upto_congr (n : nat) (a b : Z → Z) :
  (∀ t, 0 ≤ t < Z.of_nat n → wrap32 (a t) = wrap32 (b t)) →
  wrap32 (sum_upto n a) = wrap32 (sum_upto n b).
Proof.
  induction n as [|n IH]; intros Hab; [reflexivity|].
  cbn [sum_upto]. unfold wrap32 in *.
  rewrite Z.add_mod, IH, Hab, <- Z.add_mod by (intros; try apply Hab; lia).
  reflexivity.
Qed.

Lemma row_sum_extend (g : Z → Z → Z) (i J : Z) (n : nat) :
  0 ≤ J →
  row_sum g i (J + Z.of_nat n) = row_sum g i J + sum_upto n (fun t => g i (J + t)).
Proof.
  intros HJ. unfold row_sum.
  rewrite (sum_range_split 0 J (J + Z.of_nat n)) by lia. f_equal.
  unfold sum_range. replace (Z.to_nat (J + Z.of_nat n - J)) with n by lia. reflexivity.
Qed.

Lemma lane_store (M : buffer) (p : Z) (v : m256i) (q : Z) :
  yy_store_256 M p v q = if (p <=? q) && (q <? p + 8) then lane v (q - p) else M q.
Proof. reflexivity. Qed.

Section OneImage.

Variables buf_stride width : Z.
Variable g : Z → Z → Z.

(** One chunk of eight columns, for one of the two images: [x] holds the
    eight new terms of row [i] from column [J] on. *)
Lemma image_chunk_step (M0 M : buffer) (ldiff x : m256i) (i J : Z) :
  0 ≤ i → 0 ≤ J → J + 8 < buf_stride →
  (∀ c, 0 ≤ c ≤ width → M0 (i * buf_stride + c) = wrap32 (prefix_sum g i c)) →
  (∀ k, 0 ≤ k < 8 → wrap32 (lane x k) = wrap32 (g i (J + k))) →
  row_inv buf_stride width g M0 M ldiff i J →
  let above := yy_load_256 M (1 + J + i * buf_stride) in
  let row := _mm256_add_epi32 (_mm256_add_epi32 (scan_32 x) above) ldiff in
  row_inv buf_stride width g M0
    (yy_store_256 M (1 + J + (i + 1) * buf_stride) row)
    (_mm256_set1_epi32 (_mm256_extract_epi32 (_mm256_sub_epi32 row above) 7))
    i (J + 8).
Proof.
  intros Hi HJ Hs Habove Hx (Hld & Hcols & Hframe) above row.
  assert (∀ k, 0 ≤ k < 8 →
            wrap32 (sum_upto (Z.to_nat (k + 1)) (lane x))
            = wrap32 (sum_upto (Z.to_nat (k + 1)) (fun t => g i (J + t)))) as Hscan.
  { intros k Hk. apply wrap32_sum_upto_congr. intros t Ht. apply Hx. lia. }
  assert (∀ k, 0 ≤ k < 8 →
            wrap32 (lane row k - lane above k) = wrap32 (row_sum g i (J + (k + 1)))) as Hdiff.
  { intros k Hk. subst row. rewrite !lane_add, lane_scan_32, Hld by exact Hk.
    replace (k + 1) with (Z.of_nat (Z.to_nat (k + 1))) at 2 by lia.
    rewrite row_sum_extend by lia. specialize (Hscan k Hk). revert Hscan.
    generalize (sum_upto (Z.to_nat (k + 1)) (lane x)).
    generalize (sum_upto (Z.to_nat (k + 1)) (fun t => g i (J + t))).
    intros u v Huv. unfold wrap32 in *.
    transitivity ((v mod 2 ^ 32 + row_sum g i J) mod 2 ^ 32); [Z.mod_equality|].
    rewrite Huv. Z.mod_equality. }
  split; [|split].
  - intros k. rewrite lane_set1. unfold _mm256_extract_epi32.
    change (7 mod 8) with 7. rewrite wrap32_signed32, lane_sub, wrap32_idem.
    rewrite (Hdiff 7) by lia. reflexivity.
  - intros c Hc Hcw. rewrite lane_store.
    destruct (Z_le_gt_dec c J) as [HcJ|HcJ].
    { replace ((1 + J + (i + 1) * buf_stride <=? (i + 1) * buf_stride + c)
               && ((i + 1) * buf_stride + c <? 1 + J + (i + 1) * buf_stride + 8))
        with false by (symmetry; apply andb_false_iff; left; apply Z.leb_gt; lia).
      apply Hcols; lia. }
    assert (∃ k, 0 ≤ k < 8 ∧ c = J + (k + 1)) as (k & Hk & ->)
      by (exists (c - J - 1); lia).
    replace ((1 + J + (i + 1) * buf_stride <=? (i + 1) * buf_stride + (J + (k + 1)))
             && ((i + 1) * buf_stride + (J + (k + 1)) <? 1 + J + (i + 1) * buf_stride + 8))
      with true
      by (symmetry; apply andb_true_iff; split; [apply Z.leb_le|apply Z.ltb_lt]; lia).
    replace ((i + 1) * buf_stride + (J + (k + 1)) - (1 + J + (i + 1) * buf_stride))
      with k by lia.
    assert (lane above k = wrap32 (prefix_sum g i (J + (k + 1)))) as Hab.
    { subst above. unfold yy_load_256. rewrite lane_loadu by exact Hk.
      rewrite Hframe by nia. rewrite <- Habove by lia. f_equal. lia. }
    rewrite prefix_sum_next_row by lia.
    specialize (Hdiff k Hk). revert Hdiff. rewrite Hab.
    assert (lane row k = wrap32 (lane row k)) as Hrow
      by (subst row; rewrite lane_add, wrap32_idem; reflexivity).
    revert Hrow.
    generalize (lane row k) (prefix_sum g i (J + (k + 1))) (row_sum g i (J + (k + 1))).
    intros a b c' -> H. unfold wrap32 in *.
    transitivity (((a mod 2 ^ 32 - b mod 2 ^ 32) mod 2 ^ 32 + b) mod 2 ^ 32);
      [Z.mod_equality|].
    rewrite H. Z.mod_equality.
  - intros q Hq. rewrite lane_store.
    replace ((1 + J + (i + 1) * buf_stride <=? q) && (q <? 1 + J + (i + 1) * buf_stride + 8))
      with false
      by (symmetry; apply andb_false_iff;
          destruct (Z_le_gt_dec (1 + J + (i + 1) * buf_stride) q);
          [right; apply Z.ltb_ge|left; apply Z.leb_gt]; lia).
    apply Hframe. lia.
Qed.

Lemma row_inv_start (M : buffer) (i : Z) :
  row_inv buf_stride width g (store1 M ((i + 1) * buf_stride) 0)
    (store1 M ((i + 1) * buf_stride) 0) _mm256_setzero_si256 i 0.
Proof.
  split; [|split].
  - intros k. unfold row_sum. rewrite sum_range_empty.
    unfold lane. cbn. repeat (destruct k as [|[k|k|]|]; try reflexivity).
  - intros x Hx _. assert (x = 0) as -> by lia.
    rewrite prefix_sum_col0, Z.add_0_r. unfold store1. rewrite Z.eqb_refl. reflexivity.
  - reflexivity.
Qed.

Lemma row_inv_finish (M M' : buffer) (ldiff : m256i) (i J : Z) :
  0 ≤ i → 0 ≤ width → width ≤ J → width < buf_stride →
  image_rows buf_stride width g M i →
  row_inv buf_stride width g (store1 M ((i + 1) * buf_stride) 0) M' ldiff i J →
  image_rows buf_stride width g M' (i + 1).
Proof.
  intros Hi Hw HJ Hs Hrows (_ & Hcols & Hframe) y x Hy Hx.
  destruct (Z.eq_dec y (i + 1)) as [->|Hne].
  - apply Hcols; lia.
  - rewrite Hframe by nia. unfold store1.
    destruct (Z.eqb_spec (y * buf_stride + x) ((i + 1) * buf_stride)); [nia|].
    apply Hrows; lia.
Qed.

End OneImage.

(** One row of both images. *)
Lemma integral_row_rows (load_extend : buffer → Z → m256i) (src : buffer)
  (src_stride buf_stride width : Z) (g1 g2 : Z → Z → Z) (i : Z) (A B : buffer) :
  0 ≤ i → 0 ≤ width → 8 * Z.of_nat (rounds 0 width 8) < buf_stride →
  (∀ j k, 0 ≤ k < 8 →
     wrap32 (lane (load_extend src (j + i * src_stride)) k) = wrap32 (g1 i (j + k))) →
  (∀ j k, 0 ≤ k < 8 →
     wrap32 (lane (_mm256_madd_epi16 (load_extend src (j + i * src_stride))
                                     (load_extend src (j + i * src_stride))) k)
     = wrap32 (g2 i (j + k))) →
  image_rows buf_stride width g2 A i →
  image_rows buf_stride width g1 B i →
  image_rows buf_stride width g2
    (fst (integral_row load_extend src src_stride buf_stride width i (A, B))) (i + 1)
  ∧ image_rows buf_stride width g1
      (snd (integral_row load_extend src src_stride buf_stride width i (A, B))) (i + 1).
Proof.
  intros Hi Hw Hs Hx1 Hx2 HA HB.
  assert (width ≤ 8 * Z.of_nat (rounds 0 width 8)) as Hcover.
  { unfold rounds. rewrite Z2Nat.id by (apply Z.div_pos; lia).
    pose proof (Z.div_mod (width - 0 + 8 - 1) 8 ltac:(lia)).
    pose proof (Z.mod_pos_bound (width - 0 + 8 - 1) 8 ltac:(lia)). lia. }
  unfold integral_row.
  set (A1 := store1 A ((i + 1) * buf_stride) 0).
  set (B1 := store1 B ((i + 1) * buf_stride) 0).
  pose (Inv := fun (t : nat) (st : ii_state) =>
    let '(A', B', ld1, ld2) := st in
    row_inv buf_stride width g2 A1 A' ld2 i (8 * Z.of_nat t)
    ∧ row_inv buf_stride width g1 B1 B' ld1 i (8 * Z.of_nat t)).
  assert (Inv (rounds 0 width 8)
            (for_loop (rounds 0 width 8) 0 8
               (integral_chunk load_extend src src_stride buf_stride i)
               (A1, B1, _mm256_setzero_si256, _mm256_setzero_si256))) as Hend.
  { apply for_loop_inv.
    - intros t [[[A' B'] ld1] ld2] Ht [HA' HB']. unfold Inv, integral_chunk.
      replace (0 + Z.of_nat t * 8) with (8 * Z.of_nat t) by lia.
      rewrite Nat2Z.inj_succ. unfold Z.succ.
      replace (8 * (Z.of_nat t + 1)) with (8 * Z.of_nat t + 8) by lia.
      split.
      + apply image_chunk_step; try lia; try assumption.
        * intros c Hc. subst A1. unfold store1.
          destruct (Z.eqb_spec (i * buf_stride + c) ((i + 1) * buf_stride)); [nia|].
          apply HA; lia.
        * intros k Hk. apply Hx2, Hk.
      + apply image_chunk_step; try lia; try assumption.
        * intros c Hc. subst B1. unfold store1.
          destruct (Z.eqb_spec (i * buf_stride + c) ((i + 1) * buf_stride)); [nia|].
          apply HB; lia.
        * intros k Hk. apply Hx1, Hk.
    - unfold Inv. change (8 * Z.of_nat 0) with 0. split; apply row_inv_start. }
  destruct (for_loop _ _ _ _ _) as [[[A' B'] ld1] ld2]. unfold Inv in Hend.
  destruct Hend as [HA' HB']. cbn [fst snd]. split.
  - apply (row_inv_finish buf_stride width g2 A A' ld2 i _ Hi Hw Hcover ltac:(lia) HA HA').
  - apply (row_inv_finish buf_stride width g1 B B' ld1 i _ Hi Hw Hcover ltac:(lia) HB HB').
Qed.

(** Both images, all rows. *)
Lemma integral_images_rows (load_extend : buffer → Z → m256i) (src : buffer)
  (src_stride buf_stride width height : Z) (g1 g2 : Z → Z → Z) (A B : buffer) :
  0 ≤ width → 0 ≤ height → 8 * Z.of_nat (rounds 0 width 8) < buf_stride →
  (∀ i j k, 0 ≤ k < 8 →
     wrap32 (lane (load_extend src (j + i * src_stride)) k) = wrap32 (g1 i (j + k))) →
  (∀ i j k, 0 ≤ k < 8 →
     wrap32 (lane (_mm256_madd_epi16 (load_extend src (j + i * src_stride))
                                     (load_extend src (j + i * src_stride))) k)
     = wrap32 (g2 i (j + k))) →
  image_rows buf_stride width g2
    (fst (integral_images_with load_extend src src_stride buf_stride width height A B)) height
  ∧ image_rows buf_stride width g1
      (snd (integral_images_with load_extend src src_stride buf_stride width height A B)) height.
Proof.
  intros Hw Hh Hs Hx1 Hx2. unfold integral_images_with.
  pose (Inv := fun (t : nat) (AB : buffer * buffer) =>
    image_rows buf_stride width g2 (fst AB) (Z.of_nat t)
    ∧ image_rows buf_stride width g1 (snd AB) (Z.of_nat t)).
  assert (Inv (rounds 0 height 1)
            (for_loop (rounds 0 height 1) 0 1
               (integral_row load_extend src src_stride buf_stride width)
               (memset0 A (width + 1), memset0 B (width + 1)))) as Hend.
  { apply for_loop_inv.
    - intros t [A' B'] Ht [HA' HB']. unfold Inv in *. cbv [fst snd] in HA', HB'.
      replace (0 + Z.of_nat t * 1) with (Z.of_nat t) by lia.
      rewrite Nat2Z.inj_succ. unfold Z.succ.
      apply integral_row_rows; try assumption; try lia.
      + intros j k Hk. apply Hx1, Hk.
      + intros j k Hk. apply Hx2, Hk.
    - unfold Inv. cbv [fst snd]. split; intros y x Hy Hx; assert (y = 0) as -> by lia;
        rewrite prefix_sum_row0; unfold memset0;
        replace ((0 <=? 0 * buf_stride + x) && (0 * buf_stride + x <? width + 1)) with true
          by (symmetry; apply andb_true_iff; split; [apply Z.leb_le|apply Z.ltb_lt]; lia);
        reflexivity. }
  unfold Inv in Hend. replace (Z.of_nat (rounds 0 height 1)) with height in Hend.
  - exact Hend.
  - unfold rounds. rewrite Z2Nat.id by (apply Z.div_pos; lia).
    replace (height - 0 + 1 - 1) with height by lia. rewrite Z.div_1_r. reflexivity.
Qed.

End IntegralImageFacts.

(** *** Box sums *)

Section BoxSums.
Import Sgr.

Lemma lane_load_extend_8 (src : buffer) (p k : Z) :
  0 ≤ k < 8 → lane (yy256_load_extend_8_32 src p) k = wrap8 (src (p + k)).
Proof.
  unfold yy256_load_extend_8_32, xx_loadl_64, _mm256_cvtepu8_epi32. cbv [qn0 qn1].
  destruct (byte_of_pack8 (src p) (src (p + 1)) (src (p + 2)) (src (p + 3)))
    as (E0 & E1 & E2 & E3).
  destruct (byte_of_pack8 (src (p + 4)) (src (p + 5)) (src (p + 6)) (src (p + 7)))
    as (E4 & E5 & E6 & E7).
  rewrite E0, E1, E2, E3, E4, E5, E6, E7. revert k.
  apply lane_cases; cbv [lane ln0 ln1 ln2 ln3 ln4 ln5 ln6 ln7]; try reflexivity.
  do 2 f_equal. lia.
Qed.

Lemma lane_load_extend_16 (src : buffer) (p k : Z) :
  0 ≤ k < 8 → lane (yy256_load_extend_16_32 src p) k = wrap16 (src (p + k)).
Proof.
  unfold yy256_load_extend_16_32, xx_loadu_128_short, _mm256_cvtepu16_epi32.
  cbv [qn0 qn1 qn2 qn3]. rewrite !lo16_pack16, !hi16_pack16. revert k.
  apply lane_cases; cbv [lane ln0 ln1 ln2 ln3 ln4 ln5 ln6 ln7]; try reflexivity.
  do 2 f_equal. lia.
Qed.

(** [madd] squares a lane that holds an unsigned halfword, read as a
    signed one. *)
Lemma lane_madd_square (x : m256i) (k : Z) :
  0 ≤ lane x k < 2 ^ 16 →
  lane (_mm256_madd_epi16 x x) k = wrap32 (signed16 (lane x k) * signed16 (lane x k)).
Proof.
  intros Hv. unfold _mm256_madd_epi16. rewrite lane_zip256.
  unfold lo16, hi16. rewrite !signed16_wrap16, (wrap32_small (lane x k)) by lia.
  rewrite Z.div_small by exact Hv. change (signed16 0) with 0.
  f_equal. lia.
Qed.

Lemma align_8 (v : Z) : ALIGN_POWER_OF_TWO v 3 = 8 * ((v + 7) / 8).
Proof.
  unfold ALIGN_POWER_OF_TWO. change (Z.shiftl 1 3 - 1) with (Z.ones 3).
  rewrite <- Z.ldiff_land, Z.ldiff_ones_r by lia.
  rewrite Z.shiftr_div_pow2, Z.shiftl_mul_pow2 by lia.
  change (Z.ones 3) with 7. change (2 ^ 3) with 8. lia.
Qed.

(** Four-corner differencing on an image that holds prefix sums gives the
    sum over the window, in 32-bit arithmetic.  ([y0], [x0]) are the row
    and column, in the image, of the element [ii] points at. *)
Lemma boxsum_from_ii_window (M ii : buffer) (buf_stride width Y : Z) (g : Z → Z → Z)
  (r y0 x0 k : Z) :
  image_rows buf_stride width g M Y →
  (∀ q, ii q = M (y0 * buf_stride + x0 + q)) →
  0 ≤ r → 0 ≤ k < 8 →
  r + 1 ≤ y0 → y0 + r ≤ Y → r + 1 ≤ x0 + k → x0 + k + r ≤ width →
  lane (boxsum_from_ii ii buf_stride r) k
  = wrap32 (window_sum g r (y0 - 1) (x0 + k - 1)).
Proof.
  intros Hrows Hii Hr Hk Hy1 Hy2 Hx1 Hx2. unfold boxsum_from_ii.
  rewrite !lane_sub, !lane_loadu by exact Hk. rewrite !Hii.
  replace (y0 * buf_stride + x0 + (r + 0 + r * buf_stride + k))
    with ((y0 + r) * buf_stride + (x0 + k + r)) by lia.
  replace (y0 * buf_stride + x0 + (- (r + 1) + r * buf_stride + k))
    with ((y0 + r) * buf_stride + (x0 + k - r - 1)) by lia.
  replace (y0 * buf_stride + x0 + (r + 0 - (r + 1) * buf_stride + k))
    with ((y0 - r - 1) * buf_stride + (x0 + k + r)) by lia.
  replace (y0 * buf_stride + x0 + (- (r + 1) - (r + 1) * buf_stride + k))
    with ((y0 - r - 1) * buf_stride + (x0 + k - r - 1)) by lia.
  rewrite !Hrows by lia.
  unfold window_sum.
  replace (y0 - 1 - r) with (y0 - r - 1) by lia.
  replace (y0 - 1 + r + 1) with (y0 + r) by lia.
  replace (x0 + k - 1 - r) with (x0 + k - r - 1) by lia.
  replace (x0 + k - 1 + r + 1) with (x0 + k + r) by lia.
  rewrite <- (prefix_sum_rectangle g (y0 - r - 1) (y0 + r) (x0 + k - r - 1) (x0 + k + r))
    by lia.
  unfold wrap32. Z.mod_equality.
Qed.

End BoxSums.

(** *** The integral images of the restoration filter *)

Section SgrIntegralImages.
Import Sgr.

Variables SGRPROJ_BORDER_VERT SGRPROJ_BORDER_HORZ : Z.

Local Abbreviation wext := (width_ext SGRPROJ_BORDER_HORZ).
Local Abbreviation hext := (height_ext SGRPROJ_BORDER_VERT).
Local Abbreviation stride_of := (sgr_buf_stride SGRPROJ_BORDER_HORZ).
Local Abbreviation pixel_of := (padded_pixel SGRPROJ_BORDER_VERT SGRPROJ_BORDER_HORZ).
Local Abbreviation images := (sgr_integral_images SGRPROJ_BORDER_VERT SGRPROJ_BORDER_HORZ).

Lemma signed32_wrap32 x : signed32 (wrap32 x) = signed32 x.
Proof. unfold signed32. rewrite wrap32_idem. reflexivity. Qed.

Lemma padded_pixel_range (dgd : buffer) (dgd_stride : Z) (highbd : bool) (y x : Z) :
  0 ≤ pixel_of dgd dgd_stride highbd y x < 2 ^ 16.
Proof.
  unfold padded_pixel, pixel16, pixel8. destruct highbd.
  - apply wrap16_range.
  - pose proof (wrap8_range ((dgd +> - (SGRPROJ_BORDER_HORZ + dgd_stride * SGRPROJ_BORDER_VERT))
                               (x + y * dgd_stride))). lia.
Qed.

Lemma sgr_buf_stride_covers (width : Z) :
  0 ≤ wext width →
  8 * Z.of_nat (rounds 0 (wext width) 8) < stride_of width.
Proof.
  intros Hw. unfold sgr_buf_stride, rounds. rewrite align_8.
  rewrite Z2Nat.id by (apply Z.div_pos; lia).
  pose proof (Z.div_mod (wext width - 0 + 8 - 1) 8 ltac:(lia)).
  pose proof (Z.mod_pos_bound (wext width - 0 + 8 - 1) 8 ltac:(lia)).
  pose proof (Z.div_mod (wext width + 16 + 7) 8 ltac:(lia)).
  pose proof (Z.mod_pos_bound (wext width + 16 + 7) 8 ltac:(lia)).
  lia.
Qed.

Lemma lane_load_pixel16 (src : buffer) (stride i j k : Z) :
  0 ≤ k < 8 →
  lane (yy256_load_extend_16_32 src (j + i * stride)) k = pixel16 src stride i (j + k).
Proof.
  intros Hk. rewrite lane_load_extend_16 by exact Hk. unfold pixel16. do 2 f_equal. lia.
Qed.

Lemma lane_load_pixel8 (src : buffer) (stride i j k : Z) :
  0 ≤ k < 8 →
  lane (yy256_load_extend_8_32 src (j + i * stride)) k = pixel8 src stride i (j + k).
Proof.
  intros Hk. rewrite lane_load_extend_8 by exact Hk. unfold pixel8. do 2 f_equal. lia.
Qed.

(** The two images before they are seen from position (0, 0): rows and
    columns count from the top-left corner of the border. *)
Lemma sgr_integral_images_rows (dgd : buffer) (width height dgd_stride : Z) (highbd : bool) :
  0 ≤ wext width → 0 ≤ hext height →
  let pix := pixel_of dgd dgd_stride highbd in
  let s := stride_of width in
  let C := fst (images dgd width height dgd_stride highbd) in
  let D := snd (images dgd width height dgd_stride highbd) in
  image_rows s (wext width) (madd_sq pix) (C +> (- origin SGRPROJ_BORDER_VERT SGRPROJ_BORDER_HORZ s))
             (hext height)
  ∧ image_rows s (wext width) pix (D +> (- origin SGRPROJ_BORDER_VERT SGRPROJ_BORDER_HORZ s))
               (hext height).
Proof.
  intros Hw Hh pix s C D.
  pose proof (sgr_buf_stride_covers width Hw) as Hs.
  assert (∀ M : buffer, ∀ q, (M +> origin SGRPROJ_BORDER_VERT SGRPROJ_BORDER_HORZ s
                                +> (- origin SGRPROJ_BORDER_VERT SGRPROJ_BORDER_HORZ s)) q = M q)
    as Hview.
  { intros M q. unfold shift_view. f_equal. lia. }
  subst C D pix. unfold sgr_integral_images, padded_pixel. fold s.
  destruct highbd.
  - unfold integral_images_highbd.
    match goal with |- context [integral_images_with ?l ?src ?ss ?bs ?w ?h ?A ?B] =>
      pose proof (integral_images_rows l src ss bs w h
                    (pixel16 src ss) (madd_sq (pixel16 src ss)) A B
                    Hw Hh Hs) as Himg;
      destruct (integral_images_with l src ss bs w h A B) as [Ctl Dtl] end.
    cbn [fst snd] in *.
    destruct Himg as [HC HD].
    + intros i j k Hk. rewrite lane_load_pixel16 by exact Hk. reflexivity.
    + intros i j k Hk. rewrite lane_madd_square.
      * rewrite lane_load_pixel16 by exact Hk. apply wrap32_idem.
      * rewrite lane_load_pixel16 by exact Hk. apply wrap16_range.
    + split; intros y x Hy Hx; rewrite Hview; [apply HC|apply HD]; assumption.
  - unfold integral_images.
    match goal with |- context [integral_images_with ?l ?src ?ss ?bs ?w ?h ?A ?B] =>
      pose proof (integral_images_rows l src ss bs w h
                    (pixel8 src ss) (madd_sq (pixel8 src ss)) A B
                    Hw Hh Hs) as Himg;
      destruct (integral_images_with l src ss bs w h A B) as [Ctl Dtl] end.
    cbn [fst snd] in *.
    destruct Himg as [HC HD].
    + intros i j k Hk. rewrite lane_load_pixel8 by exact Hk. reflexivity.
    + intros i j k Hk. rewrite lane_madd_square.
      * rewrite lane_load_pixel8 by exact Hk. apply wrap32_idem.
      * rewrite lane_load_pixel8 by exact Hk. unfold pixel8.
        match goal with |- context [wrap8 ?v] => pose proof (wrap8_range v) end. lia.
    + split; intros y x Hy Hx; rewrite Hview; [apply HC|apply HD]; assumption.
Qed.

Lemma sum_range_rect_ext (f h : Z → Z → Z) (y1 y2 x1 x2 : Z) :
  (∀ y x, y1 ≤ y < y2 → x1 ≤ x < x2 → f y x = h y x) →
  sum_range y1 y2 (fun y' => sum_range x1 x2 (fun x' => f y' x'))
  = sum_range y1 y2 (fun y' => sum_range x1 x2 (fun x' => h y' x')).
Proof.
  intros Hfh. apply sum_range_ext. intros y Hy. apply sum_range_ext. intros x Hx.
  apply Hfh; assumption.
Qed.

Lemma sum_range_rect_nonneg (f : Z → Z → Z) (y1 y2 x1 x2 : Z) :
  (∀ y x, 0 ≤ f y x) →
  0 ≤ sum_range y1 y2 (fun y' => sum_range x1 x2 (fun x' => f y' x')).
Proof.
  intros Hf. apply sum_range_nonneg. intros y _. apply sum_range_nonneg. intros x _. apply Hf.
Qed.

Lemma signed32_exact (w : Z) : 0 ≤ w < 2 ^ 31 → signed32 (wrap32 w) = w.
Proof. intros Hw. rewrite signed32_wrap32. apply signed32_nonneg_small, Hw. Qed.

(** C1: for a plane with its border whose samples stay below 2^15 (all
    8-bit planes, and the high-bit-depth planes of the codec), and a radius
    with [r + 1 <= min(SGRPROJ_BORDER_VERT, SGRPROJ_BORDER_HORZ)]: the
    integral images hold, at row [y] and column [x], the 32-bit
    wrap-around of the sum of the samples (of their squares) above and to
    the left, with a zero first row and column; four-corner differencing
    gives, for every pixel position that [calc_ab] visits, the 32-bit
    wrap-around of the brute-force sum over the (2r+1)x(2r+1) window, which
    is that sum itself whenever it is below 2^31. *)
Theorem integral_images_box_sums
  (dgd : buffer) (width height dgd_stride : Z) (highbd : bool) (r : Z) :
  0 ≤ width → 0 ≤ height → 0 ≤ r →
  r + 1 ≤ Z.min SGRPROJ_BORDER_VERT SGRPROJ_BORDER_HORZ →
  let pix := pixel_of dgd dgd_stride highbd in
  (∀ y x, 0 ≤ y < hext height → 0 ≤ x < wext width → pix y x < 2 ^ 15) →
  let s := stride_of width in
  let C := fst (images dgd width height dgd_stride highbd) in
  let D := snd (images dgd width height dgd_stride highbd) in
  let at_ y x := (y - 1 - SGRPROJ_BORDER_VERT) * s + (x - 1 - SGRPROJ_BORDER_HORZ) in
  (∀ y x, 0 ≤ y ≤ hext height → 0 ≤ x ≤ wext width →
     D (at_ y x) = wrap32 (prefix_sum pix y x)
     ∧ C (at_ y x) = wrap32 (prefix_sum (sq pix) y x)
     ∧ (y = 0 ∨ x = 0 → D (at_ y x) = 0 ∧ C (at_ y x) = 0))
  ∧ (∀ i j k, -1 ≤ i ≤ height → -1 ≤ j + k ≤ width → 0 ≤ k < 8 →
     let sum1 := lane (boxsum_from_ii (D +> (i * s + j)) s r) k in
     let sum2 := lane (boxsum_from_ii (C +> (i * s + j)) s r) k in
     let box1 := window_sum pix r (i + SGRPROJ_BORDER_VERT) (j + k + SGRPROJ_BORDER_HORZ) in
     let box2 := window_sum (sq pix) r (i + SGRPROJ_BORDER_VERT) (j + k + SGRPROJ_BORDER_HORZ) in
     sum1 = wrap32 box1 ∧ sum2 = wrap32 box2
     ∧ (box1 < 2 ^ 31 → signed32 sum1 = box1)
     ∧ (box2 < 2 ^ 31 → signed32 sum2 = box2)).
Proof.
  intros Hw Hh Hr Hborder pix Hsmall s C D at_.
  assert (0 ≤ wext width ∧ 0 ≤ hext height) as [Hwe Hhe]
    by (unfold width_ext, height_ext; lia).
  destruct (sgr_integral_images_rows dgd width height dgd_stride highbd Hwe Hhe)
    as [HC HD]. fold pix s C D in HC, HD.
  assert (∀ y x, 0 ≤ pix y x) as Hpos by (intros; apply padded_pixel_range).
  assert (∀ y x, 0 ≤ y < hext height → 0 ≤ x < wext width →
                 madd_sq pix y x = sq pix y x) as Hsq.
  { intros y x Hy Hx. unfold madd_sq, sq.
    rewrite signed16_small; [reflexivity|].
    specialize (Hsmall y x Hy Hx). specialize (Hpos y x). lia. }
  assert (∀ y x, D (at_ y x)
                 = (D +> - origin SGRPROJ_BORDER_VERT SGRPROJ_BORDER_HORZ s) (y * s + x)
               ∧ C (at_ y x)
                 = (C +> - origin SGRPROJ_BORDER_VERT SGRPROJ_BORDER_HORZ s) (y * s + x))
    as Hat.
  { intros y x. subst at_. unfold shift_view, origin, buf_diag_border.
    split; f_equal; lia. }
  split.
  - intros y x Hy Hx. destruct (Hat y x) as [-> ->].
    rewrite (HD y x Hy Hx), (HC y x Hy Hx).
    assert (prefix_sum (madd_sq pix) y x = prefix_sum (sq pix) y x) as ->.
    { apply sum_range_rect_ext. intros y' x' Hy' Hx'. apply Hsq; lia. }
    split; [reflexivity|]. split; [reflexivity|].
    intros [-> | ->]; rewrite ?prefix_sum_row0, ?prefix_sum_col0; split; reflexivity.
  - intros i j k Hi Hjk Hk sum1 sum2 box1 box2.
    assert (sum1 = wrap32 box1) as H1.
    { subst sum1 box1.
      rewrite (boxsum_from_ii_window
                 (D +> - origin SGRPROJ_BORDER_VERT SGRPROJ_BORDER_HORZ s)
                 (D +> (i * s + j)) s (wext width) (hext height) pix r
                 (i + SGRPROJ_BORDER_VERT + 1) (j + SGRPROJ_BORDER_HORZ + 1) k HD);
        try (unfold width_ext, height_ext; lia).
      - do 2 f_equal; lia.
      - intros q. unfold shift_view, origin, buf_diag_border. f_equal. lia. }
    assert (sum2 = wrap32 box2) as H2.
    { subst sum2 box2.
      rewrite (boxsum_from_ii_window
                 (C +> - origin SGRPROJ_BORDER_VERT SGRPROJ_BORDER_HORZ s)
                 (C +> (i * s + j)) s (wext width) (hext height) (madd_sq pix) r
                 (i + SGRPROJ_BORDER_VERT + 1) (j + SGRPROJ_BORDER_HORZ + 1) k HC);
        try (unfold width_ext, height_ext; lia).
      - f_equal. unfold window_sum.
        replace (i + SGRPROJ_BORDER_VERT + 1 - 1) with (i + SGRPROJ_BORDER_VERT) by lia.
        replace (j + SGRPROJ_BORDER_HORZ + 1 + k - 1) with (j + k + SGRPROJ_BORDER_HORZ) by lia.
        apply sum_range_rect_ext. intros y' x' Hy' Hx'.
        apply Hsq; unfold width_ext, height_ext; lia.
      - intros q. unfold shift_view, origin, buf_diag_border. f_equal. lia. }
    assert (0 ≤ box1) as Hb1 by (apply sum_range_rect_nonneg; exact Hpos).
    assert (0 ≤ box2) as Hb2
      by (apply sum_range_rect_nonneg; intros; unfold sq; apply Z.square_nonneg).
    split; [exact H1|]. split; [exact H2|]. split.
    + intros Hlt. rewrite H1. apply signed32_exact. lia.
    + intros Hlt. rewrite H2. apply signed32_exact. lia.
Qed.

End SgrIntegralImages.

Section SgrIntegralImagesExamples.
Import Sgr.

Lemma integral_images_box_sums_witness :
  let dgd : buffer := fun q => 200 + q mod 7 in
  let D := snd (sgr_integral_images 3 3 dgd 2 1 16 false) in
  let s := sgr_buf_stride 3 2 in
  signed32 (lane (boxsum_from_ii (D +> (0 * s + 0)) s 2) 1)
  = window_sum (padded_pixel 3 3 dgd 16 false) 2 (0 + 3) (0 + 1 + 3).
Proof.
  intros dgd D s.
  assert (∀ y x, 0 ≤ y < height_ext 3 1 → 0 ≤ x < width_ext 3 2 →
                 padded_pixel 3 3 dgd 16 false y x < 2 ^ 15) as Hsmall.
  { intros y x _ _. unfold padded_pixel, pixel8.
    match goal with |- wrap8 ?v < _ => pose proof (wrap8_range v) end. lia. }
  destruct (integral_images_box_sums 3 3 dgd 2 1 16 false 2
              ltac:(lia) ltac:(lia) ltac:(lia) ltac:(lia) Hsmall) as [_ Hbox].
  destruct (Hbox 0 0 1 ltac:(lia) ltac:(lia) ltac:(lia)) as (_ & _ & Hexact & _).
  apply Hexact. vm_compute. reflexivity.
Defined.

(** On a 12-bit plane of 24 x 11 samples of value 4095 (18 x 5 and a border
    of 3) the sum of the squares above and left of the bottom-right corner
    is 264 * 4095^2 and does not fit 32 bits: the image of squares holds
    its wrap-around, which is another number, read as [uint32_t] or as
    [int32_t]. *)
Lemma integral_image_of_squares_wraps :
  let dgd : buffer := fun _ => 4095 in
  let C := fst (sgr_integral_images 3 3 dgd 18 5 32 true) in
  let s := sgr_buf_stride 3 18 in
  let sum := prefix_sum (sq (padded_pixel 3 3 dgd 32 true)) 11 24 in
  sum = 4427022600
  ∧ C ((11 - 1 - 3) * s + (24 - 1 - 3)) = 132055304
  ∧ C ((11 - 1 - 3) * s + (24 - 1 - 3)) ≠ sum
  ∧ signed32 (C ((11 - 1 - 3) * s + (24 - 1 - 3))) ≠ sum.
Proof.
  vm_compute. repeat split; discriminate.
Qed.

End SgrIntegralImagesExamples.

(** *** The samples that the blend writes *)

Section BlendOutput.
Import Sgr.

Variables SGRPROJ_BORDER_VERT SGRPROJ_BORDER_HORZ : Z.
Variables SGRPROJ_MTABLE_BITS SGRPROJ_RECIP_BITS : Z.
Variables SGRPROJ_SGR_BITS SGRPROJ_RST_BITS SGRPROJ_PRJ_BITS : Z.
Variable sgrproj_mtable : Z → Z → Z.
Variable one_by_x : Z → Z.
Variable x_by_xplus1 : Z → Z.
Variable sgr_params : Z → sgr_params_type.
Variable decode_xq : buffer → Z * Z.

Local Abbreviation apply_sgr :=
  (apply_selfguided_restoration_avx2
     SGRPROJ_BORDER_VERT SGRPROJ_BORDER_HORZ SGRPROJ_MTABLE_BITS SGRPROJ_RECIP_BITS
     SGRPROJ_SGR_BITS SGRPROJ_RST_BITS SGRPROJ_PRJ_BITS
     sgrproj_mtable one_by_x x_by_xplus1 sgr_params decode_xq).
Local Abbreviation batch := (blend_batch SGRPROJ_RST_BITS SGRPROJ_PRJ_BITS).
Local Abbreviation blended := (batch_blend SGRPROJ_RST_BITS SGRPROJ_PRJ_BITS).

(** What a batch stores at offset [t], and that it stores nothing else. *)
Lemma blend_batch_sample (dat : buffer) (width stride : Z) (xq : Z * Z)
  (flt1 flt2 : buffer) (dst_stride bit_depth : Z) (highbd : bool) (i j : Z)
  (dst : buffer) (t : Z) :
  0 ≤ t < 16 →
  let w := batch_lane (fst (blended dat width stride xq flt1 flt2 highbd i j))
                      (snd (blended dat width stride xq flt1 flt2 highbd i j)) t in
  batch dat width stride xq flt1 flt2 dst_stride bit_depth highbd i j dst
        (i * dst_stride + j + t)
  = if highbd then min_s16 (sat_u16 w) (Z.shiftl 1 bit_depth - 1)
    else saturate 0 255 (signed32 w).
Proof.
  intros Ht w. subst w. unfold blend_batch.
  destruct (batch_blend _ _ _ _ _ _ _ _ _ _ _) as [w_0 w_1]. cbn [fst snd].
  destruct highbd.
  - apply store_highbd_sample, Ht.
  - apply store_lowbd_sample, Ht.
Qed.

Lemma blend_batch_frame (dat : buffer) (width stride : Z) (xq : Z * Z)
  (flt1 flt2 : buffer) (dst_stride bit_depth : Z) (highbd : bool) (i j : Z)
  (dst : buffer) (q : Z) :
  ¬ (i * dst_stride + j ≤ q < i * dst_stride + j + 16) →
  batch dat width stride xq flt1 flt2 dst_stride bit_depth highbd i j dst q = dst q.
Proof.
  intros Hq. unfold blend_batch.
  destruct (batch_blend _ _ _ _ _ _ _ _ _ _ _) as [w_0 w_1].
  destruct highbd.
  - apply store_highbd_frame, Hq.
  - apply store_lowbd_frame, Hq.
Qed.

(** In the 8-bit path a sample is either left alone or within [0, 255],
    whatever the filtered planes are. *)
Lemma blend_rows_lowbd (dat : buffer) (width height stride : Z) (xq : Z * Z)
  (flt1 flt2 : buffer) (dst_stride bit_depth : Z) (dst : buffer) (q : Z) :
  let dst' :=
    for_loop (rounds 0 height 1) 0 1
      (fun i =>
         for_loop (rounds 0 width 16) 0 16
           (batch dat width stride xq flt1 flt2 dst_stride bit_depth false i))
      dst in
  dst' q = dst q ∨ 0 ≤ dst' q ≤ 255.
Proof.
  intros dst'. subst dst'.
  apply (for_loop_inv (fun _ d => d q = dst q ∨ 0 ≤ d q ≤ 255)); [|left; reflexivity].
  intros ti d _ Hd.
  apply (for_loop_inv (fun _ d => d q = dst q ∨ 0 ≤ d q ≤ 255)); [|exact Hd].
  intros tj d' _ Hd'.
  set (i := 0 + Z.of_nat ti * 1). set (j := 0 + Z.of_nat tj * 16).
  destruct (Z_le_gt_dec (i * dst_stride + j) q) as [Hlo|Hlo];
    [destruct (Z_lt_ge_dec q (i * dst_stride + j + 16)) as [Hhi|Hhi]|].
  - right. replace q with (i * dst_stride + j + (q - (i * dst_stride + j))) at 1 2 by lia.
    rewrite blend_batch_sample by lia. apply saturate_range. lia.
  - rewrite blend_batch_frame by lia. exact Hd'.
  - rewrite blend_batch_frame by lia. exact Hd'.
Qed.

(** X29: in the 8-bit path every sample that
    [apply_selfguided_restoration_avx2] writes lies in [0, 255].  A batch
    writes the sixteen samples from its offset on and nothing else.  In the
    high-bit-depth path (bit depth up to 15) a blended value [w] below 2^15
    is stored as [w] clamped to [0, 2^bit_depth - 1]. *)
Theorem blend_samples_clamped :
  (∀ (dat : buffer) (width height stride eps : Z) (xqd dst : buffer) (dst_stride : Z)
     (flt1 flt2 : buffer) (bit_depth q : Z),
     let dst' := apply_sgr dat width height stride eps xqd dst dst_stride
                   flt1 flt2 bit_depth false in
     dst' q = dst q ∨ 0 ≤ dst' q ≤ 255)
  ∧ (∀ (dat : buffer) (width stride : Z) (xq : Z * Z) (flt1 flt2 : buffer)
       (dst_stride bit_depth : Z) (highbd : bool) (i j : Z) (dst : buffer) (q : Z),
       ¬ (i * dst_stride + j ≤ q < i * dst_stride + j + 16) →
       batch dat width stride xq flt1 flt2 dst_stride bit_depth highbd i j dst q = dst q)
  ∧ (∀ (dat : buffer) (width stride : Z) (xq : Z * Z) (flt1 flt2 : buffer)
       (dst_stride bit_depth : Z) (i j : Z) (dst : buffer) (t : Z),
       1 ≤ bit_depth ≤ 15 → 0 ≤ t < 16 →
       let w := signed32 (batch_lane (fst (blended dat width stride xq flt1 flt2 true i j))
                                     (snd (blended dat width stride xq flt1 flt2 true i j)) t) in
       let sample := batch dat width stride xq flt1 flt2 dst_stride bit_depth true i j dst
                           (i * dst_stride + j + t) in
       w < 2 ^ 15 → sample = Z.min (Z.max 0 w) (2 ^ bit_depth - 1)
                    ∧ 0 ≤ sample ≤ 2 ^ bit_depth - 1).
Proof.
  split; [|split].
  - intros. subst dst'. unfold apply_selfguided_restoration_avx2.
    match goal with |- context [av1_selfguided_restoration_avx2 ?a1 ?a2 ?a3 ?a4 ?a5 ?a6
                                  ?a7 ?a8 ?a9 ?b1 ?b2 ?b3 ?b4 ?b5 ?b6 ?b7 ?b8 ?b9 ?c1] =>
      destruct (av1_selfguided_restoration_avx2 a1 a2 a3 a4 a5 a6 a7 a8 a9
                  b1 b2 b3 b4 b5 b6 b7 b8 b9 c1) as [f1 f2] end.
    apply blend_rows_lowbd.
  - intros. apply blend_batch_frame. assumption.
  - intros dat width stride xq flt1 flt2 dst_stride bit_depth i j dst t Hbd Ht w sample Hw.
    subst sample. rewrite blend_batch_sample by exact Ht. cbv beta iota.
    match goal with |- context [sat_u16 ?l] =>
      destruct (min_s16_clamps l bit_depth Hbd) as [Hlow _] end.
    apply Hlow, Hw.
Qed.

(** The clamp of the high-bit-depth path is a signed 16-bit minimum taken
    after the unsigned pack: a blended value of 2^15 or more is negative
    as a signed 16-bit number and passes it, so that the stored sample is
    above [2^bit_depth - 1]. *)
Lemma highbd_batch_sample_unclamped (dat : buffer) (width stride : Z) (xq : Z * Z)
  (flt1 flt2 : buffer) (dst_stride bit_depth : Z) (i j : Z) (dst : buffer) (t : Z) :
  1 ≤ bit_depth ≤ 15 → 0 ≤ t < 16 →
  let w := signed32 (batch_lane (fst (blended dat width stride xq flt1 flt2 true i j))
                                (snd (blended dat width stride xq flt1 flt2 true i j)) t) in
  2 ^ 15 ≤ w →
  2 ^ bit_depth - 1
  < batch dat width stride xq flt1 flt2 dst_stride bit_depth true i j dst
          (i * dst_stride + j + t).
Proof.
  intros Hbd Ht w Hw.
  rewrite blend_batch_sample by exact Ht. cbv beta iota.
  match goal with |- context [sat_u16 ?l] =>
    destruct (min_s16_clamps l bit_depth Hbd) as [_ Hhigh] end.
  apply Hhigh, Hw.
Qed.

End BlendOutput.

Section BlendOutputExamples.
Import Sgr.

Lemma blend_samples_clamped_witness :
  let dat : buffer := fun q => 500 + q in
  let flt : buffer := fun q => 16 * (500 + q) + 3 in
  let sample := blend_batch 4 7 dat 16 16 (0, 128) flt flt 16 10 true 0 0 (fun _ => 0)
                            (0 * 16 + 0 + 5) in
  sample = 505 ∧ 0 ≤ sample ≤ 2 ^ 10 - 1.
Proof.
  intros dat flt sample.
  apply (proj2 (proj2 (blend_samples_clamped 3 3 20 12 8 4 7
                         (fun _ _ => 0) (fun _ => 0) (fun _ => 0)
                         (fun _ => {| r1 := 2; e1 := 12; r2 := 1; e2 := 4 |})
                         (fun xqd => (xqd 0, 128 - xqd 0 - xqd 1))))
           dat 16 16 (0, 128) flt flt 16 10 0 0 (fun _ => 0) 5
           ltac:(lia) ltac:(lia)).
  vm_compute. reflexivity.
Defined.

(** A plane of one row of eight 10-bit samples.  [final_filter] writes the
    offsets 0..11 of each filtered plane, the blend reads the offsets 0..15
    and writes sixteen samples: those at the offsets 12..15 come from what
    the scratch buffer held before the call, whatever the tables of the
    filter are, and a large value there is stored unclamped. *)
Lemma spill_sample_from_scratch
  (sgrproj_mtable : Z → Z → Z) (one_by_x x_by_xplus1 : Z → Z) (params : sgr_params_type) :
  let dat : buffer := fun _ => 512 in
  let xqd : buffer := fun _ => 0 in
  let dst : buffer := fun _ => 0 in
  let flt1 : buffer := fun _ => 0 in
  let flt2 : buffer := fun _ => 1048576 in
  apply_selfguided_restoration_avx2 3 3 20 12 8 4 7
    sgrproj_mtable one_by_x x_by_xplus1 (fun _ => params)
    (fun xqd => (xqd 0, 128 - xqd 0 - xqd 1))
    dat 8 1 32 0 xqd dst 32 flt1 flt2 10 true 12 = 65535.
Proof.
  intros. vm_compute. reflexivity.
Qed.

(** The 8-bit path on the same scratch contents: its two saturating packs
    clamp the same blended value, and the sample written at offset 12 is
    255. *)
Lemma lowbd_spill_sample_clamped
  (sgrproj_mtable : Z → Z → Z) (one_by_x x_by_xplus1 : Z → Z) (params : sgr_params_type) :
  let dat : buffer := fun _ => 128 in
  let xqd : buffer := fun _ => 0 in
  let dst : buffer := fun _ => 0 in
  let flt1 : buffer := fun _ => 0 in
  let flt2 : buffer := fun _ => 1048576 in
  apply_selfguided_restoration_avx2 3 3 20 12 8 4 7
    sgrproj_mtable one_by_x x_by_xplus1 (fun _ => params)
    (fun xqd => (xqd 0, 128 - xqd 0 - xqd 1))
    dat 8 1 32 0 xqd dst 32 flt1 flt2 8 false 12 = 255.
Proof.
  intros. vm_compute. reflexivity.
Qed.


(** The same at the clamp itself: a blended value of 2^15 is stored as
    32768 at bit depth 10. *)
Lemma highbd_clamp_passes_large_values :
  store_highbd (fun _ => 0) 0 (_mm256_set1_epi32 32768) (_mm256_set1_epi32 0) 10 3 = 32768.
Proof. vm_compute. reflexivity. Qed.

End BlendOutputExamples.

(** *** The variance proxy of a flat window *)

Section FlatWindow.
Import Sgr.

(** In the 8-bit path the sums [n * v] and [n * v^2] of a flat window give
    [p = 0]. *)
Lemma compute_p_flat_lowbd (v n bit_depth k : Z) :
  bit_depth ≤ 8 → 0 ≤ n → 0 ≤ v → n * v < 2 ^ 15 →
  lane (compute_p (_mm256_set1_epi32 (n * v)) (_mm256_set1_epi32 (n * (v * v)))
                  bit_depth n) k = 0.
Proof.
  intros Hbd Hn Hv Hnv. unfold compute_p.
  destruct (Z.gtb_spec bit_depth 8); [lia|].
  rewrite lane_sub, lane_mullo, !lane_set1.
  assert (0 ≤ n * v) as Hnv0 by (apply Z.mul_nonneg_nonneg; lia).
  rewrite lane_madd_square by (rewrite lane_set1, wrap32_small; lia).
  rewrite lane_set1, (wrap32_small (n * v)) by lia.
  rewrite signed16_small by lia.
  unfold wrap32.
  transitivity ((n * (v * v) * n - n * v * (n * v)) mod 2 ^ 32); [Z.mod_equality|].
  replace (n * (v * v) * n - n * v * (n * v)) with 0 by ring. reflexivity.
Qed.

(** Above 8 bits the two sums are rounded before [p] is formed, and a flat
    window can give a non-zero [p]: 5 for the value 1 at bit depth 10 and
    radius 1. *)
Lemma compute_p_flat_highbd_nonzero :
  lane (compute_p (_mm256_set1_epi32 (9 * 1)) (_mm256_set1_epi32 (9 * (1 * 1))) 10 9) 0 = 5.
Proof. vm_compute. reflexivity. Qed.

End FlatWindow.

(** *** Further properties of the entropy contexts *)

Section EntropyContextReads.
Import Entropy.

Lemma load_le_take (n m : nat) (p : list ENTROPY_CONTEXT) :
  (n ≤ m)%nat → load_le n (take m p) = load_le n p.
Proof.
  intros Hnm. unfold load_le. rewrite length_take.
  change (firstn n (take m p)) with (take n (take m p)).
  rewrite take_take, (Nat.min_l n m) by exact Hnm.
  destruct (decide (n ≤ length p)%nat), (decide (n ≤ m `min` length p)%nat);
    (reflexivity || lia).
Qed.

Lemma load_u64x2_take (p : list ENTROPY_CONTEXT) :
  load_u64x2 (take 16 p) = load_u64x2 p.
Proof.
  unfold load_u64x2, load_u64.
  rewrite (load_le_take 8 16) by lia.
  change (skipn 8 (take 16 p)) with (drop 8 (take 16 p)).
  rewrite (skipn_firstn_comm 8 16 p). change (16 - 8)%nat with 8%nat.
  change (firstn 8 (skipn 8 p)) with (take 8 (skipn 8 p)).
  rewrite (load_le_take 8 8) by lia. reflexivity.
Qed.

Lemma load_le_is_Some (n : nat) (p : list ENTROPY_CONTEXT) :
  is_Some (load_le n p) ↔ (n ≤ length p)%nat.
Proof.
  unfold load_le. destruct (decide (n ≤ length p)%nat) as [H|H].
  - split; [intros _; exact H|intros _; eexists; reflexivity].
  - split; [intros [x Hx]; discriminate|intros H'; contradiction].
Qed.

Lemma load_u64x2_is_Some (p : list ENTROPY_CONTEXT) :
  is_Some (load_u64x2 p) ↔ (16 ≤ length p)%nat.
Proof.
  unfold load_u64x2, load_u64, load_le. rewrite length_skipn.
  destruct (decide (8 ≤ length p)%nat) as [H|H]; cbn [mbind option_bind].
  - destruct (decide (8 ≤ length p - 8)%nat) as [H'|H']; cbn [mbind option_bind].
    + split; [intros _; lia|intros _; eexists; reflexivity].
    + split; [intros [x Hx]; discriminate|intros; lia].
  - split; [intros [x Hx]; discriminate|intros; lia].
Qed.

(** X1: exchanging the above and the left context together with the two
    sides of the transform does not change the context: each rectangular
    case of the [switch] mirrors the case of the transposed size. *)
Theorem get_entropy_context_transpose (t : TX_SIZE) (a l : list ENTROPY_CONTEXT) :
  tx_size_wide (tx_transpose t) = tx_size_high t
  ∧ tx_size_high (tx_transpose t) = tx_size_wide t
  ∧ get_entropy_context (tx_transpose t) l a = get_entropy_context t a l.
Proof.
  split; [destruct t; reflexivity|]. split; [destruct t; reflexivity|].
  assert (∀ (ra rl : list ENTROPY_CONTEXT → option Z),
            (above ← rl l; left ← ra a;
             Some (combine_entropy_contexts (c_nonzero above) (c_nonzero left)))
            = (above ← ra a; left ← rl l;
               Some (combine_entropy_contexts (c_nonzero above) (c_nonzero left)))) as Hswap.
  { intros ra rl. destruct (ra a) as [x|], (rl l) as [y|]; cbn; try reflexivity.
    unfold combine_entropy_contexts. f_equal. lia. }
  destruct t; cbn [tx_transpose get_entropy_context]; apply Hswap.
Qed.

(** X2: the context depends on the window alone: the bytes of the two
    buffers that lie behind the width, resp. the height, of the transform
    never reach the result. *)
Theorem get_entropy_context_reads_window (t : TX_SIZE) (a a' l l' : list ENTROPY_CONTEXT) :
  take (tx_size_wide_unit t) a = take (tx_size_wide_unit t) a' →
  take (tx_size_high_unit t) l = take (tx_size_high_unit t) l' →
  get_entropy_context t a l = get_entropy_context t a' l'.
Proof.
  assert (∀ a l, get_entropy_context t (take (tx_size_wide_unit t) a)
                   (take (tx_size_high_unit t) l) = get_entropy_context t a l) as Hcut.
  { clear. intros a l.
    destruct t; cbn [get_entropy_context];
      unfold tx_size_wide_unit, tx_size_high_unit, load_u8, load_u16, load_u32, load_u64;
      cbn [tx_size_wide tx_size_high];
      repeat match goal with
        | |- context [Z.to_nat (?n / 4)] =>
            let v := eval vm_compute in (Z.to_nat (n / 4)) in
            change (Z.to_nat (n / 4)) with v
        end;
      rewrite ?load_u64x2_take, ?(load_le_take 1 1), ?(load_le_take 2 2),
        ?(load_le_take 4 4), ?(load_le_take 8 8) by lia; reflexivity. }
  intros Ha Hl. rewrite <- (Hcut a l), <- (Hcut a' l'), Ha, Hl. reflexivity.
Qed.

(** X3: each case of the [switch] reads as many context bytes as its
    transform is wide, resp. high, in 4-pixel units, and not one more: the
    reads stay inside the two buffers exactly when these hold that many
    bytes. *)
Theorem get_entropy_context_bytes_read (t : TX_SIZE) (a l : list ENTROPY_CONTEXT) :
  is_Some (get_entropy_context t a l)
  ↔ (tx_size_wide_unit t ≤ length a)%nat ∧ (tx_size_high_unit t ≤ length l)%nat.
Proof.
  assert (∀ (ra rl : list ENTROPY_CONTEXT → option Z),
            is_Some (above ← ra a; left ← rl l;
                     Some (combine_entropy_contexts (c_nonzero above) (c_nonzero left)))
            ↔ is_Some (ra a) ∧ is_Some (rl l)) as Hboth.
  { intros ra rl. rewrite !is_Some_alt.
    destruct (ra a) as [x|], (rl l) as [y|]; cbn; tauto. }
  destruct t; cbn [get_entropy_context]; rewrite Hboth;
    unfold load_u8, load_u16, load_u32, load_u64;
    rewrite ?load_le_is_Some, ?load_u64x2_is_Some; reflexivity.
Qed.

End EntropyContextReads.

Section EntropyContextExamples.
Import Entropy.

Lemma get_entropy_context_reads_window_witness :
  get_entropy_context TX_8X16 [Byte.x00; Byte.x03; Byte.x07]
                      [Byte.x00; Byte.x00; Byte.x00; Byte.x00; Byte.x09]
  = get_entropy_context TX_8X16 [Byte.x00; Byte.x03]
                        [Byte.x00; Byte.x00; Byte.x00; Byte.x00].
Proof.
  refine (get_entropy_context_reads_window TX_8X16 _ _ _ _ _ _); reflexivity.
Defined.

End EntropyContextExamples.

(** *** Further properties of the cost walk and of the cost table *)

Section CostWalkAnyArray.
Import Cost.

Variable AOM_ICDF : Z → Z.
Variables CDF_PROB_TOP EC_MIN_PROB : Z.
Variable av1_cost_symbol : Z → Z.

Local Abbreviation run := (av1_cost_tokens_from_cdf AOM_ICDF CDF_PROB_TOP EC_MIN_PROB av1_cost_symbol).
Local Abbreviation loop := (cost_tokens_loop AOM_ICDF CDF_PROB_TOP EC_MIN_PROB av1_cost_symbol).
Local Abbreviation sentinel_at := (first_sentinel_at AOM_ICDF CDF_PROB_TOP).
Local Abbreviation mass := (walked_mass AOM_ICDF EC_MIN_PROB).
Local Abbreviation cost := (walked_cost AOM_ICDF EC_MIN_PROB av1_cost_symbol).
Local Abbreviation write := (walked_write AOM_ICDF EC_MIN_PROB av1_cost_symbol).

Lemma clamped_mass_walked (cdf : list Z) (i : nat) :
  clamped_mass EC_MIN_PROB (AOM_ICDF (nth i cdf 0)) (to_cdf_prob (icdf_before AOM_ICDF cdf i))
  = mass cdf i.
Proof.
  unfold clamped_mass, walked_mass, to_cdf_prob.
  rewrite Zminus_mod_idemp_r.
  destruct (Z.ltb_spec ((AOM_ICDF (nth i cdf 0) - icdf_before AOM_ICDF cdf i) mod 2 ^ 16)
                       EC_MIN_PROB); lia.
Qed.

(** The walk from symbol [i] on, [n] symbols before the first sentinel. *)
Lemma cost_tokens_loop_any (cdf : list Z) (inv_map : option (list Z)) (k : nat) :
  sentinel_at cdf k →
  ∀ (n i : nat) (costs : list Z) (writes : list (Z * Z)),
    (i + n = k)%nat →
    writes_in_bounds costs inv_map k →
    loop (drop i cdf) i (to_cdf_prob (icdf_before AOM_ICDF cdf i)) inv_map costs writes
    = Some {| res_costs := apply_writes costs (map (write cdf inv_map) (seq i (S n)));
              res_writes := writes ++ map (write cdf inv_map) (seq i (S n)) |}.
Proof.
  intros (Hlen & Htop & Hfirst) n. induction n as [|n IH]; intros i costs writes Hin Hb.
  all: pose proof Hb as (Hinv & Hidx).
  all: rewrite (drop_S cdf (nth i cdf 0) i) by (apply lookup_nth_lt; lia).
  all: cbn [cost_tokens_loop]; rewrite clamped_mass_walked.
  all: assert (match inv_map with Some m => m !! i | None => Some (Z.of_nat i) end
               = Some (cost_index inv_map i)) as ->
         by (destruct inv_map as [m|]; [|reflexivity]; cbn [cost_index];
             apply lookup_nth_lt; specialize (Hinv m eq_refl); lia).
  all: cbn [mbind option_bind]; rewrite store_cost_in_bounds by (apply Hidx; lia).
  all: cbn [mbind option_bind].
  - replace i with k by lia. rewrite Htop, Z.eqb_refl. reflexivity.
  - destruct (Z.eqb_spec (nth i cdf 0) (AOM_ICDF CDF_PROB_TOP)) as [Hs|Hs].
    + exfalso. apply (Hfirst i); [lia|exact Hs].
    + change (to_cdf_prob (AOM_ICDF (nth i cdf 0)))
        with (to_cdf_prob (icdf_before AOM_ICDF cdf (S i))).
      rewrite IH; [| lia |].
      * cbn [seq map apply_writes fold_left]. rewrite <- app_assoc. reflexivity.
      * split; [exact Hinv|].
        intros j Hj. rewrite length_insert. apply Hidx, Hj.
Qed.

Lemma cost_tokens_any_run (costs cdf : list Z) (inv_map : option (list Z)) (k : nat) :
  sentinel_at cdf k →
  writes_in_bounds costs inv_map k →
  run costs cdf inv_map
  = Some {| res_costs := apply_writes costs (map (write cdf inv_map) (seq 0 (S k)));
            res_writes := map (write cdf inv_map) (seq 0 (S k)) |}.
Proof.
  intros Hcdf Hb. unfold av1_cost_tokens_from_cdf.
  apply (cost_tokens_loop_any cdf inv_map k Hcdf k 0%nat costs []); [lia|exact Hb].
Qed.

(** X4: on any array, monotone or not, the walk stops at the first element
    that equals the stored sentinel; up to there it makes one write per
    element, whose value is the cost of the difference of successive
    inverse values taken modulo 2^16 and floored at [EC_MIN_PROB]. *)
Theorem cost_tokens_from_any_array
  (costs cdf : list Z) (inv_map : option (list Z)) (k : nat) :
  first_sentinel_at AOM_ICDF CDF_PROB_TOP cdf k →
  writes_in_bounds costs inv_map k →
  ∃ r, av1_cost_tokens_from_cdf AOM_ICDF CDF_PROB_TOP EC_MIN_PROB av1_cost_symbol
         costs cdf inv_map = Some r
    ∧ length (res_writes r) = S k
    ∧ (∀ i, (i ≤ k)%nat →
         nth i (res_writes r) (0, 0)
         = (cost_index inv_map i,
            av1_cost_symbol
              (Z.max EC_MIN_PROB
                 ((AOM_ICDF (nth i cdf 0) - icdf_before AOM_ICDF cdf i) mod 2 ^ 16))))
    ∧ res_costs r = apply_writes costs (res_writes r).
Proof.
  intros Hcdf Hb. eexists. split; [apply (cost_tokens_any_run costs cdf inv_map k Hcdf Hb)|].
  cbn [res_writes res_costs]. split; [|split; [|reflexivity]].
  - rewrite length_map, length_seq. reflexivity.
  - intros i Hi.
    rewrite (nth_indep _ (0, 0) (write cdf inv_map 0%nat))
      by (rewrite length_map, length_seq; lia).
    rewrite map_nth, seq_nth by lia. reflexivity.
Qed.

(** X5: an array without the sentinel value never ends the loop: the walk
    reads past the last element. *)
Theorem cost_tokens_without_sentinel
  (costs cdf : list Z) (inv_map : option (list Z)) :
  (∀ x, In x cdf → x ≠ AOM_ICDF CDF_PROB_TOP) →
  av1_cost_tokens_from_cdf AOM_ICDF CDF_PROB_TOP EC_MIN_PROB av1_cost_symbol
    costs cdf inv_map = None.
Proof.
  unfold av1_cost_tokens_from_cdf. generalize 0%nat as i, 0 as prev, (@nil (Z * Z)) as writes.
  revert costs. induction cdf as [|c cdf IH]; intros costs i prev writes Hno; [reflexivity|].
  cbn [cost_tokens_loop].
  destruct (match inv_map with Some m => m !! i | None => Some (Z.of_nat i) end) as [idx|];
    [|reflexivity].
  cbn [mbind option_bind].
  destruct (store_cost costs idx _) as [costs'|]; [|reflexivity].
  cbn [mbind option_bind].
  destruct (Z.eqb_spec c (AOM_ICDF CDF_PROB_TOP)) as [Hs|Hs].
  - exfalso. apply (Hno c); [left; reflexivity|exact Hs].
  - apply IH. intros x Hx. apply Hno. right. exact Hx.
Qed.

(** X6: nothing behind the first sentinel is read: two arrays that agree up
    to and including a sentinel give the same result, whatever follows. *)
Theorem cost_tokens_ignore_tail
  (costs pre tail1 tail2 : list Z) (inv_map : option (list Z)) :
  In (AOM_ICDF CDF_PROB_TOP) pre →
  av1_cost_tokens_from_cdf AOM_ICDF CDF_PROB_TOP EC_MIN_PROB av1_cost_symbol
    costs (pre ++ tail1) inv_map
  = av1_cost_tokens_from_cdf AOM_ICDF CDF_PROB_TOP EC_MIN_PROB av1_cost_symbol
      costs (pre ++ tail2) inv_map.
Proof.
  unfold av1_cost_tokens_from_cdf. generalize 0%nat as i, 0 as prev, (@nil (Z * Z)) as writes.
  revert costs. induction pre as [|c pre IH]; intros costs i prev writes Hin; [destruct Hin|].
  cbn [app cost_tokens_loop].
  destruct (match inv_map with Some m => m !! i | None => Some (Z.of_nat i) end) as [idx|];
    [|reflexivity].
  cbn [mbind option_bind].
  destruct (store_cost costs idx _) as [costs'|]; [|reflexivity].
  cbn [mbind option_bind].
  destruct (Z.eqb_spec c (AOM_ICDF CDF_PROB_TOP)) as [Hs|Hs]; [reflexivity|].
  apply IH. destruct Hin as [Hc|Hin]; [congruence|exact Hin].
Qed.

Lemma apply_writes_app (costs : list Z) (ws1 ws2 : list (Z * Z)) :
  apply_writes costs (ws1 ++ ws2) = apply_writes (apply_writes costs ws1) ws2.
Proof. unfold apply_writes. apply fold_left_app. Qed.

(** Writes at the indices 0, 1, ..., [n - 1] in turn replace a prefix. *)
Lemma apply_writes_in_order (f : nat → Z) (n : nat) (costs : list Z) :
  (n ≤ length costs)%nat →
  apply_writes costs (map (fun i => (Z.of_nat i, f i)) (seq 0 n))
  = map f (seq 0 n) ++ drop n costs.
Proof.
  induction n as [|n IH]; intros Hn; [rewrite drop_0; reflexivity|].
  rewrite seq_S, !map_app, apply_writes_app, IH by lia.
  cbn [map apply_writes fold_left fst snd Nat.add]. rewrite Nat2Z.id.
  destruct (lookup_lt_is_Some_2 costs n ltac:(lia)) as [x Hx].
  rewrite (drop_S costs x n Hx).
  rewrite insert_app_r_alt by (rewrite length_map, length_seq; lia).
  rewrite length_map, length_seq, Nat.sub_diag. cbn [insert list_insert].
  rewrite <- app_assoc. reflexivity.
Qed.

(** X7: without an inverse map the walk replaces the first [k + 1] entries
    of the cost array by the costs of the symbols, in order, and leaves
    every entry behind them as it was. *)
Theorem cost_tokens_fill_prefix (costs cdf : list Z) (k : nat) :
  first_sentinel_at AOM_ICDF CDF_PROB_TOP cdf k →
  (k < length costs)%nat →
  ∃ r, av1_cost_tokens_from_cdf AOM_ICDF CDF_PROB_TOP EC_MIN_PROB av1_cost_symbol
         costs cdf None = Some r
    ∧ res_costs r
      = map (walked_cost AOM_ICDF EC_MIN_PROB av1_cost_symbol cdf) (seq 0 (S k))
        ++ drop (S k) costs
    ∧ length (res_costs r) = length costs.
Proof.
  intros Hcdf Hk.
  assert (writes_in_bounds costs None k) as Hb.
  { split; [discriminate|]. intros i Hi. cbn [cost_index]. lia. }
  eexists. split; [apply (cost_tokens_any_run costs cdf None k Hcdf Hb)|].
  cbn [res_costs]. split; [|apply apply_writes_length].
  apply (apply_writes_in_order (cost cdf) (S k) costs). lia.
Qed.

Lemma apply_writes_elsewhere (costs : list Z) (ws : list (Z * Z)) (q : nat) :
  Forall (fun w => Z.to_nat (fst w) ≠ q) ws →
  apply_writes costs ws !! q = costs !! q.
Proof.
  intros Hws. revert costs. induction Hws as [|w ws Hw _ IH]; intros costs; [reflexivity|].
  cbn [apply_writes fold_left]. unfold apply_writes in IH. rewrite IH.
  apply list_lookup_insert_ne. exact Hw.
Qed.

(** X8: an inverse map that sends the symbols 0..[k] to distinct places of
    the cost array only relocates the costs: the cost of symbol [i] ends
    up at [inv_map[i]], and every entry that is not the place of a symbol
    keeps its value. *)
Theorem cost_tokens_relocated_by_inv_map
  (costs cdf m : list Z) (k : nat) :
  first_sentinel_at AOM_ICDF CDF_PROB_TOP cdf k →
  writes_in_bounds costs (Some m) k →
  (∀ i j, (i < j ≤ k)%nat → nth i m 0 ≠ nth j m 0) →
  ∃ r, av1_cost_tokens_from_cdf AOM_ICDF CDF_PROB_TOP EC_MIN_PROB av1_cost_symbol
         costs cdf (Some m) = Some r
    ∧ (∀ i, (i ≤ k)%nat →
         res_costs r !! Z.to_nat (nth i m 0)
         = Some (walked_cost AOM_ICDF EC_MIN_PROB av1_cost_symbol cdf i))
    ∧ (∀ q, (∀ i, (i ≤ k)%nat → Z.to_nat (nth i m 0) ≠ q) →
         res_costs r !! q = costs !! q)
    ∧ length (res_costs r) = length costs.
Proof.
  intros Hcdf Hb Hinj.
  eexists. split; [apply (cost_tokens_any_run costs cdf (Some m) k Hcdf Hb)|].
  cbn [res_costs]. destruct Hb as [_ Hidx]. cbn [cost_index] in Hidx.
  split; [|split; [|apply apply_writes_length]].
  - intros i Hi.
    replace (S k) with (i + S (k - i))%nat by lia.
    rewrite seq_app, map_app. change (0 + i)%nat with i.
    cbn [seq map]. unfold walked_write at 2. cbn [cost_index].
    apply apply_writes_last.
    + specialize (Hidx i Hi). lia.
    + apply List.Forall_forall. intros w Hw. apply List.in_map_iff in Hw as (j & <- & Hj).
      apply List.in_seq in Hj. cbn [fst walked_write cost_index].
      pose proof (Hidx i Hi). pose proof (Hidx j ltac:(lia)).
      specialize (Hinj i j ltac:(lia)). lia.
  - intros q Hq. apply apply_writes_elsewhere.
    apply List.Forall_forall. intros w Hw. apply List.in_map_iff in Hw as (j & <- & Hj).
    apply List.in_seq in Hj. cbn [fst walked_write cost_index]. apply Hq. lia.
Qed.

End CostWalkAnyArray.

Section CostTable.
Import Cost.

Lemma sq_enclosure_sound (s : Z * Z * Z) (x : Z) :
  encloses s x → encloses (sq_enclosure s) (x * x).
Proof.
  destruct s as [[lo hi] e]. unfold encloses, sq_enclosure.
  intros (Hlo & He & Hx1 & Hx2).
  set (t := Z.max 0 (Z.log2 (hi * hi) - 127)).
  assert (0 ≤ t) as Ht by lia.
  rewrite !Z.shiftr_div_pow2, Z.shiftl_1_l by exact Ht.
  assert (0 < 2 ^ t) as Hpt by (apply Z.pow_pos_nonneg; lia).
  assert (0 < 2 ^ e) as Hpe by (apply Z.pow_pos_nonneg; lia).
  replace (2 * e + t) with (e + e + t) by lia.
  rewrite !Z.pow_add_r by lia.
  pose proof (Z.mul_div_le (lo * lo) (2 ^ t) Hpt) as Hd1.
  pose proof (Z.mul_succ_div_gt (hi * hi + 2 ^ t - 1) (2 ^ t) Hpt) as Hd2.
  assert (0 ≤ lo * lo / 2 ^ t) as Hq by (apply Z.div_pos; nia).
  split; [exact Hq|]. split; [lia|].
  assert (0 ≤ lo * 2 ^ e) by nia.
  assert (lo * 2 ^ e * (lo * 2 ^ e) ≤ x * x) by nia.
  assert (x * x ≤ hi * 2 ^ e * (hi * 2 ^ e)) by nia.
  split.
  - etransitivity; [|eassumption].
    replace (lo * 2 ^ e * (lo * 2 ^ e)) with (lo * lo * (2 ^ e * 2 ^ e)) by ring.
    replace (lo * lo / 2 ^ t * (2 ^ e * 2 ^ e * 2 ^ t))
      with (2 ^ t * (lo * lo / 2 ^ t) * (2 ^ e * 2 ^ e)) by ring.
    apply Z.mul_le_mono_nonneg_r; [nia|exact Hd1].
  - etransitivity; [eassumption|].
    replace (hi * 2 ^ e * (hi * 2 ^ e)) with (hi * hi * (2 ^ e * 2 ^ e)) by ring.
    replace ((hi * hi + 2 ^ t - 1) / 2 ^ t * (2 ^ e * 2 ^ e * 2 ^ t))
      with (2 ^ t * ((hi * hi + 2 ^ t - 1) / 2 ^ t) * (2 ^ e * 2 ^ e)) by ring.
    apply Z.mul_le_mono_nonneg_r; [nia|lia].
Qed.

Lemma iter_enclosure (n : nat) (i : Z) :
  0 ≤ i → encloses (Nat.iter n sq_enclosure (i, i, 0)) (i ^ 2 ^ Z.of_nat n).
Proof.
  intros Hi. induction n as [|n IH].
  - cbn. lia.
  - cbn [Nat.iter]. rewrite Nat2Z.inj_succ, Z.pow_succ_r by lia.
    replace (i ^ (2 * 2 ^ Z.of_nat n)) with (i ^ 2 ^ Z.of_nat n * i ^ 2 ^ Z.of_nat n).
    + apply sq_enclosure_sound, IH.
    + rewrite <- Z.pow_add_r by (apply Z.pow_nonneg; lia). f_equal. lia.
Qed.

Lemma rounds_log2_sound (i c : Z) :
  0 ≤ i → rounds_log2 i c = true →
  2 ^ (2 * c - 1) * i ^ 1024 ≤ 256 ^ 1024 ≤ 2 ^ (2 * c + 1) * i ^ 1024.
Proof.
  intros Hi. unfold rounds_log2.
  pose proof (iter_enclosure 10 i Hi) as Henc.
  change (2 ^ Z.of_nat 10) with 1024 in Henc.
  destruct (Nat.iter 10 sq_enclosure (i, i, 0)) as [[lo hi] e].
  destruct Henc as (Hlo & He & Hx1 & Hx2).
  replace (256 ^ 1024) with (2 ^ 8192)
    by (change 256 with (2 ^ 8); rewrite <- Z.pow_mul_r by lia; f_equal).
  assert (0 ≤ 8192) as HK by lia. revert HK. generalize 8192 as K. intros K HK.
  generalize dependent (i ^ 1024). intros x Hx1 Hx2.
  rewrite !andb_true_iff, !Z.leb_le. intros [[Hc H1] H2].
  rewrite !Z.shiftl_mul_pow2 in H1, H2 by lia.
  rewrite !Z.pow_add_r in H1, H2 by lia.
  assert (0 < 2 ^ (2 * c - 1)) by (apply Z.pow_pos_nonneg; lia).
  assert (0 < 2 ^ (2 * c + 1)) by (apply Z.pow_pos_nonneg; lia).
  split.
  - etransitivity; [|rewrite Z.mul_1_l in H1; exact H1].
    replace (hi * (2 ^ e * 2 ^ (2 * c - 1))) with (2 ^ (2 * c - 1) * (hi * 2 ^ e)) by ring.
    apply Z.mul_le_mono_nonneg_l; lia.
  - etransitivity; [rewrite Z.mul_1_l in H2; exact H2|].
    replace (lo * (2 ^ e * 2 ^ (2 * c + 1))) with (2 ^ (2 * c + 1) * (lo * 2 ^ e)) by ring.
    apply Z.mul_le_mono_nonneg_l; lia.
Qed.

(** X9: every entry of [av1_prob_cost] but the bogus first one is the value
    of its comment, [-log2(i/256) * 2^9] rounded to the nearest integer:
    for the entry [c] at index [i], [(256/i)^1024] lies between
    [2^(2c-1)] and [2^(2c+1)], which says
    [c - 1/2 ≤ 512 * log2(256/i) ≤ c + 1/2]. *)
Theorem av1_prob_cost_rounds_log2 (i : Z) :
  1 ≤ i < 256 →
  let c := nth (Z.to_nat i) av1_prob_cost 0 in
  2 ^ (2 * c - 1) * i ^ 1024 ≤ 256 ^ 1024 ≤ 2 ^ (2 * c + 1) * i ^ 1024.
Proof.
  assert (all_from 255 1 (fun i => rounds_log2 i (nth (Z.to_nat i) av1_prob_cost 0)) = true)
    as Hall by (vm_compute; reflexivity).
  intros Hi c. apply rounds_log2_sound; [lia|].
  apply (all_from_spec _ _ _ Hall i). lia.
Qed.

(** X10: the table never increases along its index, the bogus entry repeats
    the one behind it, and every entry is a positive [uint16_t] value of
    at most eight bits' worth of cost. *)
Theorem av1_prob_cost_decreasing (i j : Z) :
  0 ≤ i → i ≤ j → j < 256 →
  nth (Z.to_nat j) av1_prob_cost 0 ≤ nth (Z.to_nat i) av1_prob_cost 0
  ∧ 0 < nth (Z.to_nat j) av1_prob_cost 0 ≤ 8 * 2 ^ 9
  ∧ nth 0 av1_prob_cost 0 = nth 1 av1_prob_cost 0.
Proof.
  intros Hi Hij Hj.
  pose proof (av1_prob_cost_sorted i j Hi Hij Hj) as Hs.
  pose proof (av1_prob_cost_sorted 0 j ltac:(lia) ltac:(lia) Hj) as H0.
  pose proof (av1_prob_cost_range j ltac:(lia)) as Hr.
  unfold av1_cost_zero in Hs, H0, Hr. change (nth (Z.to_nat 0) av1_prob_cost 0) with 4096 in H0.
  split; [exact Hs|]. split; [lia|reflexivity].
Qed.

End CostTable.

Section CostExamples.
Import Cost.

(** A run on [16384; 20000; 0; 9] with the inverse [32768 - x]: the second
    inverse value lies below the first, the difference wraps to 61920.
    The cost function is the identity, so that the writes show the
    masses. *)
Lemma cost_tokens_from_any_array_witness :
  ∃ r, av1_cost_tokens_from_cdf (fun x => 32768 - x) 32768 4 (fun p => p)
         [0; 0; 0; 0] [16384; 20000; 0; 9] None = Some r
    ∧ nth 1 (res_writes r) (0, 0) = (1, 61920).
Proof.
  destruct (cost_tokens_from_any_array (fun x => 32768 - x) 32768 4 (fun p => p)
              [0; 0; 0; 0] [16384; 20000; 0; 9] None 2%nat)
    as (r & Hrun & _ & Hnth & _).
  - unfold first_sentinel_at. repeat split; [cbn; lia|].
    intros i Hi. destruct i as [|[|i]]; cbn; lia.
  - unfold writes_in_bounds. split; [discriminate|].
    intros i Hi. destruct i as [|[|[|i]]]; cbn; lia.
  - exists r. split; [exact Hrun|]. rewrite (Hnth 1%nat) by lia. reflexivity.
Defined.

Lemma cost_tokens_without_sentinel_witness :
  av1_cost_tokens_from_cdf AOM_ICDF CDF_PROB_TOP EC_MIN_PROB av1_cost_symbol
    [0; 0; 0; 0] [16384; 100] None = None.
Proof.
  refine (cost_tokens_without_sentinel AOM_ICDF CDF_PROB_TOP EC_MIN_PROB av1_cost_symbol
            [0; 0; 0; 0] [16384; 100] None _).
  intros x [<-|[<-|[]]]; vm_compute; discriminate.
Defined.

Lemma cost_tokens_ignore_tail_witness :
  av1_cost_tokens_from_cdf AOM_ICDF CDF_PROB_TOP EC_MIN_PROB av1_cost_symbol
    [0; 0; 0] ([16384; 0] ++ [7]) None
  = av1_cost_tokens_from_cdf AOM_ICDF CDF_PROB_TOP EC_MIN_PROB av1_cost_symbol
      [0; 0; 0] ([16384; 0] ++ [1; 2; 3]) None.
Proof.
  refine (cost_tokens_ignore_tail AOM_ICDF CDF_PROB_TOP EC_MIN_PROB av1_cost_symbol
            [0; 0; 0] [16384; 0] [7] [1; 2; 3] None _).
  right. left. reflexivity.
Defined.

Lemma cost_tokens_fill_prefix_witness :
  ∃ r, av1_cost_tokens_from_cdf AOM_ICDF CDF_PROB_TOP EC_MIN_PROB av1_cost_symbol
         [9; 9; 9; 9; 9] [16384; 8192; 0; 5] None = Some r
    ∧ res_costs r = [512; 1024; 1024; 9; 9].
Proof.
  destruct (cost_tokens_fill_prefix AOM_ICDF CDF_PROB_TOP EC_MIN_PROB av1_cost_symbol
              [9; 9; 9; 9; 9] [16384; 8192; 0; 5] 2%nat)
    as (r & Hrun & Hcosts & _).
  - unfold first_sentinel_at. repeat split; [cbn; lia|].
    intros i Hi. destruct i as [|[|i]]; vm_compute; [discriminate..|lia].
  - cbn. lia.
  - exists r. split; [exact Hrun|]. rewrite Hcosts. vm_compute. reflexivity.
Defined.

Lemma cost_tokens_relocated_by_inv_map_witness :
  ∃ r, av1_cost_tokens_from_cdf AOM_ICDF CDF_PROB_TOP EC_MIN_PROB av1_cost_symbol
         [9; 9; 9; 9] [16384; 8192; 0; 5] (Some [2; 0; 3]) = Some r
    ∧ res_costs r !! 0%nat = Some 1024
    ∧ res_costs r !! 1%nat = Some 9.
Proof.
  destruct (cost_tokens_relocated_by_inv_map AOM_ICDF CDF_PROB_TOP EC_MIN_PROB av1_cost_symbol
              [9; 9; 9; 9] [16384; 8192; 0; 5] [2; 0; 3] 2%nat)
    as (r & Hrun & Hplace & Hrest & _).
  - unfold first_sentinel_at. repeat split; [cbn; lia|].
    intros i Hi. destruct i as [|[|i]]; vm_compute; [discriminate..|lia].
  - unfold writes_in_bounds. split.
    + intros m [= <-]. cbn. lia.
    + intros i Hi. destruct i as [|[|[|i]]]; cbn; lia.
  - intros i j Hij. destruct i as [|[|i]], j as [|[|[|j]]]; cbn; lia.
  - exists r. split; [exact Hrun|]. split.
    + exact (Hplace 1%nat ltac:(lia)).
    + refine (Hrest 1%nat _).
      intros i Hi. destruct i as [|[|[|i]]]; cbn; lia.
Defined.

Lemma av1_prob_cost_rounds_log2_witness :
  nth 3 av1_prob_cost 0 = 3284
  ∧ 2 ^ (2 * 3284 - 1) * 3 ^ 1024 ≤ 256 ^ 1024 ≤ 2 ^ (2 * 3284 + 1) * 3 ^ 1024.
Proof.
  split; [reflexivity|]. exact (av1_prob_cost_rounds_log2 3 ltac:(lia)).
Defined.

Lemma av1_prob_cost_decreasing_witness :
  nth (Z.to_nat 200) av1_prob_cost 0 ≤ nth (Z.to_nat 10) av1_prob_cost 0.
Proof.
  exact (proj1 (av1_prob_cost_decreasing 10 200 ltac:(lia) ltac:(lia) ltac:(lia))).
Defined.

End CostExamples.

(** *** Further properties of the restoration kernels *)

Section KernelFacts.
Import Sgr.

(** X11: [scan_32] turns the eight lanes of a register into their running
    sums, in 32-bit arithmetic: the two in-half shifts and the broadcast
    of lane 3 into the upper half add up to a full prefix sum. *)
Theorem scan_32_running_sums (a0 a1 a2 a3 a4 a5 a6 a7 : Z) :
  scan_32 (mk256 a0 a1 a2 a3 a4 a5 a6 a7)
  = mk256 (wrap32 a0) (wrap32 (a0 + a1)) (wrap32 (a0 + a1 + a2))
          (wrap32 (a0 + a1 + a2 + a3)) (wrap32 (a0 + a1 + a2 + a3 + a4))
          (wrap32 (a0 + a1 + a2 + a3 + a4 + a5))
          (wrap32 (a0 + a1 + a2 + a3 + a4 + a5 + a6))
          (wrap32 (a0 + a1 + a2 + a3 + a4 + a5 + a6 + a7)).
Proof.
  assert (∀ v : m256i, v = mk256 (lane v 0) (lane v 1) (lane v 2) (lane v 3)
                                 (lane v 4) (lane v 5) (lane v 6) (lane v 7)) as Heta
    by (intros []; reflexivity).
  rewrite (Heta (scan_32 _)). rewrite !lane_scan_32 by lia.
  cbv [Z.to_nat Z.add Pos.add Pos.to_nat Pos.iter_op Nat.add Pos.succ
       sum_upto lane Z.of_nat Pos.of_succ_nat ln0 ln1 ln2 ln3 ln4 ln5 ln6 ln7].
  reflexivity.
Qed.

(** X12: the two loads zero-extend: lane [k] holds sample [k] from the
    pointer on, read as an unsigned byte, resp. as an unsigned halfword,
    and is never negative as an [int32_t]. *)
Theorem load_extend_zero_extends (src : buffer) (p k : Z) :
  0 ≤ k < 8 →
  signed32 (lane (yy256_load_extend_8_32 src p) k) = src (p + k) mod 2 ^ 8
  ∧ signed32 (lane (yy256_load_extend_16_32 src p) k) = src (p + k) mod 2 ^ 16.
Proof.
  intros Hk. rewrite lane_load_extend_8, lane_load_extend_16 by exact Hk.
  pose proof (wrap8_range (src (p + k))). pose proof (wrap16_range (src (p + k))).
  split; rewrite signed32_nonneg_small by lia; reflexivity.
Qed.

(** The variance proxy above 8 bits. *)
Lemma madd_square_range (b : Z) :
  0 ≤ b < 2 ^ 31 →
  0 ≤ signed16 (lo16 b) * signed16 (lo16 b) + signed16 (hi16 b) * signed16 (hi16 b) < 2 ^ 31.
Proof.
  intros Hb. unfold lo16, hi16. rewrite signed16_wrap16, (wrap32_small b) by lia.
  assert (0 ≤ b / 2 ^ 16 < 2 ^ 15) as Hhi.
  { split; [apply Z.div_pos; lia|apply Z.div_lt_upper_bound; lia]. }
  rewrite (signed16_small (b / 2 ^ 16)) by lia.
  assert (- 2 ^ 15 ≤ signed16 b < 2 ^ 15) as Hlo.
  { unfold signed16. pose proof (wrap16_range b).
    destruct (Z.ltb_spec (wrap16 b) (2 ^ 15)); lia. }
  nia.
Qed.

(** X13: above 8 bits the variance proxy is floored at zero: whatever the
    two sums are, every lane of [p] is the signed difference
    [a * n - bb] of the rounded sums when that is positive, and zero
    otherwise, so it is never negative as an [int32_t].  [bb] is what the
    16-bit multiply-add makes of [b]: the square of [b] when [b] is below
    2^15. *)
Theorem compute_p_highbd_floor (sum1 sum2 : m256i) (bit_depth n k : Z) :
  8 < bit_depth ≤ 16 →
  let a := srl32 (2 * (bit_depth - 8)) (lane sum2 k + 2 ^ (2 * (bit_depth - 8) - 1)) in
  let b := srl32 (bit_depth - 8) (lane sum1 k + 2 ^ (bit_depth - 8 - 1)) in
  let bb := signed16 (lo16 b) * signed16 (lo16 b) + signed16 (hi16 b) * signed16 (hi16 b) in
  let p := lane (compute_p sum1 sum2 bit_depth n) k in
  signed32 p = Z.max 0 (signed32 (a * n) - bb)
  ∧ 0 ≤ signed32 p
  ∧ (b < 2 ^ 15 → bb = b * b).
Proof.
  intros Hbd a b bb p.
  assert (0 ≤ b < 2 ^ 31) as Hb0 by (apply srl32_range; lia).
  assert (b < 2 ^ 15 → bb = b * b) as Hsq.
  { intros Hsmall. subst bb. unfold lo16, hi16.
    rewrite signed16_wrap16, (wrap32_small b), (Z.div_small b), (signed16_small b) by lia.
    change (signed16 0) with 0. lia. }
  assert (signed32 p = Z.max 0 (signed32 (a * n) - bb)) as Hp;
    [|split; [exact Hp|split; [lia|exact Hsq]]].
  clear Hb0 Hsq.
  subst p. unfold compute_p. destruct (Z.gtb_spec bit_depth 8) as [_|]; [|lia].
  unfold _mm256_max_epi32, _mm256_madd_epi16, _mm256_srl_epi32, round_for_shift.
  repeat rewrite ?lane_sub, ?lane_zip256, ?lane_map256, ?lane_mullo, ?lane_set1, ?lane_add.
  unfold _mm_cvtsi32_si128. cbn [qn0 qn1]. change (wrap32 0) with 0.
  rewrite !Z.mul_0_r, !Z.add_0_r.
  rewrite !(wrap32_small (bit_depth - 8)), !(wrap32_small (2 * (bit_depth - 8))) by lia.
  rewrite !Z.shiftl_1_l, !Z.shiftr_div_pow2 by lia.
  replace (2 ^ (2 * (bit_depth - 8)) / 2 ^ 1) with (2 ^ (2 * (bit_depth - 8) - 1))
    by (replace (2 * (bit_depth - 8)) with (2 * (bit_depth - 8) - 1 + 1) at 2 by lia;
        rewrite Z.pow_add_r by lia; rewrite Z.div_mul by lia; reflexivity).
  replace (2 ^ (bit_depth - 8) / 2 ^ 1) with (2 ^ (bit_depth - 8 - 1))
    by (replace (bit_depth - 8) with (bit_depth - 8 - 1 + 1) at 2 by lia;
        rewrite Z.pow_add_r by lia; rewrite Z.div_mul by lia; reflexivity).
  assert (∀ c x y, srl32 c (wrap32 (x + wrap32 y)) = srl32 c (x + y)) as Hsrl.
  { intros c x y. unfold srl32. destruct (c >? 31); [reflexivity|].
    f_equal. unfold wrap32. Z.mod_equality. }
  rewrite !Hsrl. fold a b.
  assert (0 ≤ b < 2 ^ 31) as Hb by (apply srl32_range; lia).
  pose proof (madd_square_range b Hb) as Hbb. fold bb in Hbb |- *.
  rewrite !(wrap32_small bb) by lia.
  rewrite ?signed32_wrap32, !(signed32_nonneg_small bb) by lia.
  assert (wrap32 (a * wrap32 n) = wrap32 (a * n)) as Han
    by (unfold wrap32; Z.mod_equality).
  assert (signed32 (a * wrap32 n) = signed32 (a * n)) as Hsn
    by (rewrite <- signed32_wrap32, Han, signed32_wrap32; reflexivity).
  rewrite ?wrap32_idem, ?Han, ?signed32_wrap32, ?Hsn.
  pose proof (signed32_range (a * n)) as Hr.
  destruct (Z.gtb_spec (signed32 (a * n)) bb) as [Hgt|Hle].
  - rewrite <- (wrap32_signed32 (a * n)).
    rewrite (wrap32_small (signed32 (a * n))), signed32_small by lia. lia.
  - rewrite Z.sub_diag. change (signed32 (wrap32 0)) with 0. change (signed32 0) with 0. lia.
Qed.

(** X14: at 8 bits the variance proxy is [n * sum2 - sum1^2] in 32-bit
    arithmetic, as long as the sum of the window is below 2^15, where the
    16-bit multiply-add still squares it. *)
Theorem compute_p_lowbd_variance (sum1 sum2 : m256i) (bit_depth n k : Z) :
  bit_depth ≤ 8 →
  0 ≤ lane sum1 k < 2 ^ 15 →
  lane (compute_p sum1 sum2 bit_depth n) k
  = wrap32 (n * lane sum2 k - lane sum1 k * lane sum1 k).
Proof.
  intros Hbd Hs. unfold compute_p. destruct (Z.gtb_spec bit_depth 8); [lia|].
  rewrite lane_sub, lane_mullo, lane_set1, lane_madd_square by lia.
  rewrite signed16_small by lia. unfold wrap32. Z.mod_equality.
Qed.

End KernelFacts.

Section IntegralImageExtent.
Import Sgr.

Lemma rounds_cover (width step : Z) :
  0 ≤ width → 0 < step → width ≤ step * Z.of_nat (rounds 0 width step).
Proof.
  intros Hw Hs. unfold rounds. rewrite Z2Nat.id by (apply Z.div_pos; lia).
  pose proof (Z.div_mod (width - 0 + step - 1) step ltac:(lia)).
  pose proof (Z.mod_pos_bound (width - 0 + step - 1) step ltac:(lia)). lia.
Qed.

(** A round of a loop from 0 starts below the bound. *)
Lemma rounds_below (start bound step : Z) (t : nat) :
  0 < step → (t < rounds start bound step)%nat → start + Z.of_nat t * step < bound.
Proof.
  intros Hs Ht. unfold rounds in Ht.
  assert (Z.of_nat t < (bound - start + step - 1) / step) as Hlt by lia.
  pose proof (Z.div_mod (bound - start + step - 1) step ltac:(lia)).
  pose proof (Z.mod_pos_bound (bound - start + step - 1) step ltac:(lia)). nia.
Qed.

Lemma sum_range_bound (lo hi M : Z) (g : Z → Z) :
  lo ≤ hi → (∀ t, lo ≤ t < hi → 0 ≤ g t ≤ M) →
  0 ≤ sum_range lo hi g ≤ M * (hi - lo).
Proof.
  intros Hle. pattern hi. apply (Zlt_lower_bound_ind _ lo); [|exact Hle].
  clear hi Hle. intros hi IH Hle Hg.
  destruct (Z.eq_dec hi lo) as [->|Hne]; [rewrite sum_range_empty; lia|].
  replace hi with (hi - 1 + 1) at 1 2 by lia.
  rewrite sum_range_succ by lia.
  specialize (IH (hi - 1) ltac:(lia) ltac:(intros; apply Hg; lia)).
  specialize (Hg (hi - 1) ltac:(lia)). lia.
Qed.

Lemma sum_range_mono (lo hi : Z) (g h : Z → Z) :
  (∀ t, lo ≤ t < hi → g t ≤ h t) → sum_range lo hi g ≤ sum_range lo hi h.
Proof.
  intros Hgh.
  pose proof (sum_range_nonneg lo hi (fun t => h t - g t)
                ltac:(intros t Ht; specialize (Hgh t Ht); lia)) as Hn.
  pose proof (sum_range_add lo hi g (fun t => h t - g t)) as Hadd.
  cbv beta in Hadd.
  rewrite (sum_range_ext lo hi (fun t => g t + (h t - g t)) h) in Hadd by (intros; lia).
  lia.
Qed.

Lemma sum_range_scale (lo hi m : Z) (g : Z → Z) :
  sum_range lo hi (fun t => m * g t) = m * sum_range lo hi g.
Proof.
  unfold sum_range. generalize (Z.to_nat (hi - lo)) as n.
  induction n as [|n IH]; [cbn; lia|]. cbn [sum_upto]. rewrite IH. lia.
Qed.

Lemma prefix_sum_bound (f : Z → Z → Z) (M y x : Z) :
  0 ≤ y → 0 ≤ x → (∀ y' x', 0 ≤ y' < y → 0 ≤ x' < x → 0 ≤ f y' x' ≤ M) →
  0 ≤ prefix_sum f y x ≤ M * (x * y).
Proof.
  intros Hy Hx Hf. unfold prefix_sum.
  pose proof (sum_range_bound 0 y (M * x) (fun y' => sum_range 0 x (fun x' => f y' x')) Hy)
    as Hb.
  replace (M * x * (y - 0)) with (M * (x * y)) in Hb by ring. apply Hb.
  intros t Ht. cbv beta.
  pose proof (sum_range_bound 0 x M (fun x' => f t x') Hx ltac:(intros; apply Hf; lia)). lia.
Qed.

(** X15: the integral images of an 8-bit plane are exact as long as
    [255^2] times the area of the plane stays below 2^31: no entry of the
    image of sums or of the image of squares wraps around, each holds
    the sum over the rectangle above and to the left of it. *)
Theorem integral_images_exact_lowbd
  (src : buffer) (src_stride width height : Z) (A B : buffer) (buf_stride : Z) :
  0 ≤ width → 0 ≤ height →
  8 * Z.of_nat (rounds 0 width 8) < buf_stride →
  65025 * (width * height) < 2 ^ 31 →
  let pix := pixel8 src src_stride in
  let A' := fst (integral_images src src_stride width height A B buf_stride) in
  let B' := snd (integral_images src src_stride width height A B buf_stride) in
  ∀ y x, 0 ≤ y ≤ height → 0 ≤ x ≤ width →
    B' (y * buf_stride + x) = prefix_sum pix y x
    ∧ A' (y * buf_stride + x) = prefix_sum (sq pix) y x
    ∧ 0 ≤ B' (y * buf_stride + x) ≤ A' (y * buf_stride + x)
    ∧ A' (y * buf_stride + x) < 2 ^ 31.
Proof.
  intros Hw Hh Hs Harea pix A' B' y x Hy Hx.
  assert (∀ y x, 0 ≤ pix y x ≤ 255) as Hpix.
  { intros y' x'. unfold pix, pixel8.
    pose proof (wrap8_range (src (x' + y' * src_stride))). lia. }
  destruct (integral_images_rows yy256_load_extend_8_32 src src_stride buf_stride width height
              pix (sq pix) A B Hw Hh Hs) as [HA HB].
  { intros i j k Hk. rewrite lane_load_pixel8 by exact Hk. reflexivity. }
  { intros i j k Hk. rewrite lane_madd_square.
    - rewrite lane_load_pixel8 by exact Hk. fold pix. rewrite wrap32_idem.
      unfold sq. rewrite signed16_small by (specialize (Hpix i (j + k)); lia). reflexivity.
    - rewrite lane_load_pixel8 by exact Hk. fold pix. specialize (Hpix i (j + k)). lia. }
  fold (integral_images src src_stride width height A B buf_stride) in HA, HB.
  fold A' in HA. fold B' in HB.
  rewrite (HA y x Hy Hx), (HB y x Hy Hx).
  pose proof (prefix_sum_bound pix 255 y x ltac:(lia) ltac:(lia)
                ltac:(intros; apply Hpix)) as Hb1.
  pose proof (prefix_sum_bound (sq pix) 65025 y x ltac:(lia) ltac:(lia)
                ltac:(intros y' x' _ _; unfold sq; specialize (Hpix y' x'); nia)) as Hb2.
  assert (x * y ≤ width * height) as Hxy by nia.
  assert (prefix_sum pix y x ≤ prefix_sum (sq pix) y x) as Hle.
  { unfold prefix_sum.
    apply sum_range_mono. intros t _. apply sum_range_mono. intros t' _. unfold sq.
    specialize (Hpix t t'). nia. }
  rewrite !wrap32_small by lia. repeat split; lia.
Qed.

(** X16: above 8 bits the integral images are exact under a bound on the
    samples: when every sample of the plane is at most [M], [M] below
    2^15, and [M^2] times the area of the plane stays below 2^31, no
    entry of either image wraps around. *)
Theorem integral_images_exact_highbd
  (src : buffer) (src_stride width height : Z) (A B : buffer) (buf_stride M : Z) :
  0 ≤ width → 0 ≤ height →
  8 * Z.of_nat (rounds 0 width 8) < buf_stride →
  let pix := pixel16 src src_stride in
  (∀ y x, 0 ≤ y < height → 0 ≤ x < width → pix y x ≤ M) →
  M < 2 ^ 15 → M * M * (width * height) < 2 ^ 31 →
  let A' := fst (integral_images_highbd src src_stride width height A B buf_stride) in
  let B' := snd (integral_images_highbd src src_stride width height A B buf_stride) in
  ∀ y x, 0 ≤ y ≤ height → 0 ≤ x ≤ width →
    B' (y * buf_stride + x) = prefix_sum pix y x
    ∧ A' (y * buf_stride + x) = prefix_sum (sq pix) y x
    ∧ 0 ≤ A' (y * buf_stride + x) < 2 ^ 31.
Proof.
  intros Hw Hh Hs pix HM HM15 Harea A' B' y x Hy Hx.
  assert (∀ y x, 0 ≤ pix y x < 2 ^ 16) as Hpix.
  { intros y' x'. unfold pix, pixel16. apply wrap16_range. }
  destruct (integral_images_rows yy256_load_extend_16_32 src src_stride buf_stride width height
              pix (madd_sq pix) A B Hw Hh Hs) as [HA HB].
  { intros i j k Hk. rewrite lane_load_pixel16 by exact Hk. reflexivity. }
  { intros i j k Hk. rewrite lane_madd_square.
    - rewrite lane_load_pixel16 by exact Hk. apply wrap32_idem.
    - rewrite lane_load_pixel16 by exact Hk. apply Hpix. }
  fold (integral_images_highbd src src_stride width height A B buf_stride) in HA, HB.
  fold A' in HA. fold B' in HB.
  rewrite (HA y x Hy Hx), (HB y x Hy Hx).
  assert (prefix_sum (madd_sq pix) y x = prefix_sum (sq pix) y x) as Hsq.
  { unfold prefix_sum. apply sum_range_rect_ext. intros y' x' Hy' Hx'.
    unfold madd_sq, sq. specialize (HM y' x' ltac:(lia) ltac:(lia)).
    specialize (Hpix y' x'). rewrite signed16_small by lia. reflexivity. }
  rewrite Hsq.
  assert (0 ≤ M ∨ (x = 0 ∨ y = 0)) as [HM0|Hempty].
  { destruct (Z.eq_dec x 0); [right; left; assumption|].
    destruct (Z.eq_dec y 0); [right; right; assumption|].
    left. specialize (HM 0 0 ltac:(lia) ltac:(lia)). specialize (Hpix 0 0). lia. }
  - pose proof (prefix_sum_bound pix M y x ltac:(lia) ltac:(lia)
                  ltac:(intros y' x' Hy' Hx'; specialize (HM y' x' ltac:(lia) ltac:(lia));
                        specialize (Hpix y' x'); lia)) as Hb1.
    pose proof (prefix_sum_bound (sq pix) (M * M) y x ltac:(lia) ltac:(lia)
                  ltac:(intros y' x' Hy' Hx'; unfold sq;
                        specialize (HM y' x' ltac:(lia) ltac:(lia));
                        specialize (Hpix y' x'); nia)) as Hb2.
    assert (x * y ≤ width * height) as Hxy by nia.
    assert (M * (x * y) ≤ M * M * (width * height) ∨ M = 0) as [Hc|Hc].
    { destruct (Z.eq_dec M 0); [right; assumption|left]. nia. }
    + rewrite !wrap32_small by nia. repeat split; nia.
    + subst M. rewrite !wrap32_small by lia. repeat split; lia.
  - assert (prefix_sum pix y x = 0 ∧ prefix_sum (sq pix) y x = 0) as [-> ->].
    { destruct Hempty as [-> | ->]; rewrite ?prefix_sum_col0, ?prefix_sum_row0;
        split; reflexivity. }
    change (wrap32 0) with 0. repeat split; lia.
Qed.

Lemma integral_chunk_extent (load_extend : buffer → Z → m256i) (src : buffer)
  (src_stride buf_stride i j : Z) (st : ii_state) (q : Z) :
  ¬ (1 + j + (i + 1) * buf_stride ≤ q < 1 + j + (i + 1) * buf_stride + 8) →
  let st' := integral_chunk load_extend src src_stride buf_stride i j st in
  fst (fst (fst st')) q = fst (fst (fst st)) q
  ∧ snd (fst (fst st')) q = snd (fst (fst st)) q.
Proof.
  intros Hq. destruct st as [[[A B] l1] l2]. unfold integral_chunk. cbn [fst snd].
  rewrite !lane_store.
  replace ((1 + j + (i + 1) * buf_stride <=? q) && (q <? 1 + j + (i + 1) * buf_stride + 8))
    with false
    by (symmetry; apply andb_false_iff;
        destruct (Z_le_gt_dec (1 + j + (i + 1) * buf_stride) q);
        [right; apply Z.ltb_ge|left; apply Z.leb_gt]; lia).
  split; reflexivity.
Qed.

(** Where the two images are written. *)
Lemma integral_images_with_extent (load_extend : buffer → Z → m256i) (src : buffer)
  (src_stride buf_stride width height : Z) (A B : buffer) (q : Z) :
  0 ≤ height →
  (∀ y x, 0 ≤ y ≤ height → 0 ≤ x ≤ 8 * Z.of_nat (rounds 0 width 8) →
     q ≠ y * buf_stride + x) →
  fst (integral_images_with load_extend src src_stride buf_stride width height A B) q = A q
  ∧ snd (integral_images_with load_extend src src_stride buf_stride width height A B) q = B q.
Proof.
  intros Hh Hq. unfold integral_images_with.
  apply (for_loop_inv (fun _ (AB : buffer * buffer) => fst AB q = A q ∧ snd AB q = B q)).
  - intros t [A1 B1] Ht HAB. cbn [fst snd] in HAB.
    pose proof (rounds_below 0 height 1 t ltac:(lia) Ht) as Hi.
    set (i := 0 + Z.of_nat t * 1) in *. unfold integral_row.
    pose (Inv := fun (_ : nat) (st : ii_state) =>
                   fst (fst (fst st)) q = A q ∧ snd (fst (fst st)) q = B q).
    assert (Inv (rounds 0 width 8)
              (for_loop (rounds 0 width 8) 0 8
                 (integral_chunk load_extend src src_stride buf_stride i)
                 (store1 A1 ((i + 1) * buf_stride) 0, store1 B1 ((i + 1) * buf_stride) 0,
                  _mm256_setzero_si256, _mm256_setzero_si256))) as Hend.
    { apply for_loop_inv.
      - intros tj st Htj Hst. unfold Inv in *.
        destruct (integral_chunk_extent load_extend src src_stride buf_stride i
                    (0 + Z.of_nat tj * 8) st q) as [E1 E2].
        + intros Hin. apply (Hq (i + 1) (q - (i + 1) * buf_stride)); lia.
        + rewrite E1, E2. exact Hst.
      - unfold Inv. cbn [fst snd]. unfold store1.
        destruct (Z.eqb_spec q ((i + 1) * buf_stride)) as [Heq|_]; [|exact HAB].
        exfalso. apply (Hq (i + 1) 0); lia. }
    destruct (for_loop _ _ _ _ _) as [[[A2 B2] l1] l2]. exact Hend.
  - cbn [fst snd]. unfold memset0.
    destruct (Z.leb_spec 0 q) as [H0|H0]; [|split; reflexivity].
    destruct (Z.ltb_spec q (width + 1)) as [H1|H1]; [|split; reflexivity].
    exfalso. apply (Hq 0 q); [lia| |lia].
    pose proof (rounds_cover width 8 ltac:(lia) ltac:(lia)). lia.
Qed.

(** X17: the two images are written inside the rows 0..[height] and the
    columns 0..8*ceil([width]/8) and nowhere else: every other element of
    the two buffers keeps its value, at 8 bits and above. *)
Theorem integral_images_extent (highbd : bool) (src : buffer)
  (src_stride width height : Z) (A B : buffer) (buf_stride q : Z) :
  0 ≤ height →
  (∀ y x, 0 ≤ y ≤ height → 0 ≤ x ≤ 8 * Z.of_nat (rounds 0 width 8) →
     q ≠ y * buf_stride + x) →
  let images :=
    if highbd then integral_images_highbd src src_stride width height A B buf_stride
    else integral_images src src_stride width height A B buf_stride in
  fst images q = A q ∧ snd images q = B q.
Proof.
  intros Hh Hq images. subst images.
  destruct highbd; apply integral_images_with_extent; assumption.
Qed.

End IntegralImageExtent.

Section CoefficientMaps.
Import Sgr.

Variables SGRPROJ_MTABLE_BITS SGRPROJ_RECIP_BITS SGRPROJ_SGR_BITS : Z.
Variable sgrproj_mtable : Z → Z → Z.
Variable one_by_x : Z → Z.
Variable x_by_xplus1 : Z → Z.

Local Abbreviation chunk :=
  (calc_ab_chunk SGRPROJ_MTABLE_BITS SGRPROJ_RECIP_BITS SGRPROJ_SGR_BITS
                 sgrproj_mtable one_by_x x_by_xplus1).
Local Abbreviation maps :=
  (calc_ab SGRPROJ_MTABLE_BITS SGRPROJ_RECIP_BITS SGRPROJ_SGR_BITS
           sgrproj_mtable one_by_x x_by_xplus1).

Lemma calc_ab_z_lane_range (p s : m256i) (k : Z) :
  1 ≤ SGRPROJ_MTABLE_BITS →
  0 ≤ signed32 (lane (calc_ab_z SGRPROJ_MTABLE_BITS p s) k) ≤ 255.
Proof.
  intros Hbits. unfold calc_ab_z, _mm256_min_epi32, _mm256_srli_epi32.
  rewrite lane_zip256, lane_map256, lane_set1.
  match goal with |- context [srl32 ?c ?a] =>
    pose proof (min_epi32_255 (srl32 c a) (srl32_range c a Hbits)) as Hmin end.
  rewrite signed32_nonneg_small; [exact Hmin | lia].
Qed.

(** What one chunk stores, and that it stores nothing else. *)
Lemma calc_ab_chunk_stores (C D : buffer) (buf_stride eps bit_depth r i j : Z)
  (A B : buffer) (q : Z) :
  let AB' := chunk C D buf_stride eps bit_depth r i j (A, B) in
  let z := calc_ab_index SGRPROJ_MTABLE_BITS sgrproj_mtable C D buf_stride eps bit_depth r i j in
  (i * buf_stride + j ≤ q < i * buf_stride + j + 8 →
     fst AB' q = wrap32 (x_by_xplus1 (signed32 (lane z (q - (i * buf_stride + j)))))
     ∧ ∃ b, snd AB' q = srl32 SGRPROJ_RECIP_BITS b)
  ∧ (¬ (i * buf_stride + j ≤ q < i * buf_stride + j + 8) →
     fst AB' q = A q ∧ snd AB' q = B q).
Proof.
  intros AB' z. subst AB'. unfold calc_ab_chunk. cbn [fst snd]. fold z.
  unfold yy_storeu_256. split.
  - intros Hq.
    replace ((i * buf_stride + j <=? q) && (q <? i * buf_stride + j + 8)) with true
      by (symmetry; apply andb_true_iff; split; [apply Z.leb_le|apply Z.ltb_lt]; lia).
    split.
    + unfold _mm256_i32gather_epi32. rewrite lane_map256. reflexivity.
    + unfold _mm256_srli_epi32. rewrite lane_map256. eexists. reflexivity.
  - intros Hq.
    replace ((i * buf_stride + j <=? q) && (q <? i * buf_stride + j + 8)) with false
      by (symmetry; apply andb_false_iff;
          destruct (Z_le_gt_dec (i * buf_stride + j) q);
          [right; apply Z.ltb_ge|left; apply Z.leb_gt]; lia).
    split; reflexivity.
Qed.

(** X18: whatever the integral images hold, [calc_ab] stores in [A] only
    entries 0..255 of the table [x_by_xplus1], and in [B] only values
    that are not negative as [int32_t]; an element it does not store to
    keeps its value. *)
Theorem calc_ab_stored_values (A B C D : buffer)
  (width height buf_stride eps bit_depth r q : Z) :
  1 ≤ SGRPROJ_MTABLE_BITS → 1 ≤ SGRPROJ_RECIP_BITS →
  let AB' := maps A B C D width height buf_stride eps bit_depth r in
  (fst AB' q = A q ∨ ∃ z, 0 ≤ z ≤ 255 ∧ fst AB' q = wrap32 (x_by_xplus1 z))
  ∧ (snd AB' q = B q ∨ 0 ≤ snd AB' q < 2 ^ 31).
Proof.
  intros Hm Hr AB'. subst AB'. unfold calc_ab.
  set (P := fun (AB : buffer * buffer) =>
    (fst AB q = A q ∨ ∃ z, 0 ≤ z ≤ 255 ∧ fst AB q = wrap32 (x_by_xplus1 z))
    ∧ (snd AB q = B q ∨ 0 ≤ snd AB q < 2 ^ 31)).
  apply (for_loop_inv (fun _ => P)); [|split; left; reflexivity].
  intros ti AB _ HAB. apply (for_loop_inv (fun _ => P)); [|exact HAB].
  intros tj [A1 B1] _ HAB1.
  set (i := -1 + Z.of_nat ti * 1). set (j := -1 + Z.of_nat tj * 8).
  destruct (calc_ab_chunk_stores C D buf_stride eps bit_depth r i j A1 B1 q) as [Hin Hout].
  destruct (Z_le_gt_dec (i * buf_stride + j) q) as [Hlo|Hlo];
    [destruct (Z_lt_ge_dec q (i * buf_stride + j + 8)) as [Hhi|Hhi]|].
  - destruct (Hin ltac:(lia)) as [HA (b & HB)]. split.
    + right. eexists. split; [|exact HA]. apply calc_ab_z_lane_range, Hm.
    + right. rewrite HB. apply srl32_range, Hr.
  - destruct (Hout ltac:(lia)) as [HA HB]. unfold P. rewrite HA, HB. exact HAB1.
  - destruct (Hout ltac:(lia)) as [HA HB]. unfold P. rewrite HA, HB. exact HAB1.
Qed.

(** X19: [calc_ab] stores to the rows -1..[height] and, in each of them, to
    the columns from -1 on in chunks of eight up to [width]; every other
    element of [A] and [B] keeps its value. *)
Theorem calc_ab_extent (A B C D : buffer)
  (width height buf_stride eps bit_depth r q : Z) :
  (∀ i j, -1 ≤ i ≤ height → -1 ≤ j < -1 + 8 * Z.of_nat (rounds (-1) (width + 1) 8) →
     q ≠ i * buf_stride + j) →
  let AB' := maps A B C D width height buf_stride eps bit_depth r in
  fst AB' q = A q ∧ snd AB' q = B q.
Proof.
  intros Hq AB'. subst AB'. unfold calc_ab.
  set (P := fun (AB : buffer * buffer) => fst AB q = A q ∧ snd AB q = B q).
  apply (for_loop_inv (fun _ => P)); [|split; reflexivity].
  intros ti AB Hti HAB.
  pose proof (rounds_below (-1) (height + 1) 1 ti ltac:(lia) Hti) as Hi.
  apply (for_loop_inv (fun _ => P)); [|exact HAB].
  intros tj [A1 B1] Htj HAB1.
  set (i := -1 + Z.of_nat ti * 1) in *. set (j := -1 + Z.of_nat tj * 8).
  destruct (calc_ab_chunk_stores C D buf_stride eps bit_depth r i j A1 B1 q) as [_ Hout].
  destruct Hout as [HA HB].
  - intros Hin. apply (Hq i (q - i * buf_stride)); lia.
  - unfold P. rewrite HA, HB. exact HAB1.
Qed.

End CoefficientMaps.

Section CrossSumFacts.
Import Sgr.

Lemma lane_cross_sum (buf : buffer) (stride k : Z) :
  0 ≤ k < 8 → lane (cross_sum buf stride) k = nine_tap buf stride k.
Proof.
  intros Hk. unfold cross_sum.
  rewrite lane_sub. unfold _mm256_slli_epi32. rewrite lane_map256, sll32_mul by lia.
  rewrite !lane_add, !lane_loadu by exact Hk.
  unfold nine_tap.
  replace (-1 - stride + k) with (k - 1 - stride) by lia.
  replace (- stride + k) with (k - stride) by lia.
  replace (1 - stride + k) with (k + 1 - stride) by lia.
  replace (-1 + k) with (k - 1) by lia.
  replace (0 + k) with k by lia.
  replace (1 + k) with (k + 1) by lia.
  replace (-1 + stride + k) with (k - 1 + stride) by lia.
  replace (stride + k) with (k + stride) by lia.
  replace (1 + stride + k) with (k + 1 + stride) by lia.
  unfold wrap32. change (2 ^ 2) with 4. Z.mod_equality.
Qed.

(** X20: the nine weights of the cross sum add up to 32: on a flat
    neighbourhood of value [c] the cross sum is [32 * c], which is why
    [final_filter] shifts by five bits more. *)
Theorem cross_sum_of_flat (buf : buffer) (stride k c : Z) :
  0 ≤ k < 8 →
  (∀ dy dx, -1 ≤ dy ≤ 1 → -1 ≤ dx ≤ 1 → buf (k + dx + dy * stride) = c) →
  lane (cross_sum buf stride) k = wrap32 (32 * c).
Proof.
  intros Hk Hflat. rewrite lane_cross_sum by exact Hk. unfold nine_tap.
  pose proof (Hflat (-1) (-1) ltac:(lia) ltac:(lia)) as H1.
  pose proof (Hflat (-1) 0 ltac:(lia) ltac:(lia)) as H2.
  pose proof (Hflat (-1) 1 ltac:(lia) ltac:(lia)) as H3.
  pose proof (Hflat 0 (-1) ltac:(lia) ltac:(lia)) as H4.
  pose proof (Hflat 0 0 ltac:(lia) ltac:(lia)) as H5.
  pose proof (Hflat 0 1 ltac:(lia) ltac:(lia)) as H6.
  pose proof (Hflat 1 (-1) ltac:(lia) ltac:(lia)) as H7.
  pose proof (Hflat 1 0 ltac:(lia) ltac:(lia)) as H8.
  pose proof (Hflat 1 1 ltac:(lia) ltac:(lia)) as H9.
  replace (k + -1 + -1 * stride) with (k - 1 - stride) in H1 by lia.
  replace (k + 0 + -1 * stride) with (k - stride) in H2 by lia.
  replace (k + 1 + -1 * stride) with (k + 1 - stride) in H3 by lia.
  replace (k + -1 + 0 * stride) with (k - 1) in H4 by lia.
  replace (k + 0 + 0 * stride) with k in H5 by lia.
  replace (k + 1 + 0 * stride) with (k + 1) in H6 by lia.
  replace (k + -1 + 1 * stride) with (k - 1 + stride) in H7 by lia.
  replace (k + 0 + 1 * stride) with (k + stride) in H8 by lia.
  replace (k + 1 + 1 * stride) with (k + 1 + stride) in H9 by lia.
  rewrite H1, H2, H3, H4, H5, H6, H7, H8, H9. f_equal. lia.
Qed.

End CrossSumFacts.

Section ChunkedRows.
Import Sgr.

(** Row after row, and in each row chunk after chunk: a loop nest whose
    body stores [span] elements at row [i], column [j].  [F i j k] is the
    value of the element [k] of the chunk. *)
Variable body : Z → Z → buffer → buffer.
Variable F : Z → Z → Z → Z.
Variables step span dst_stride width height : Z.

Hypothesis body_stores : ∀ i j d k,
  0 ≤ k < span → body i j d (i * dst_stride + j + k) = F i j k.
Hypothesis body_frame : ∀ i j d q,
  ¬ (i * dst_stride + j ≤ q < i * dst_stride + j + span) → body i j d q = d q.
Hypothesis step_span : 0 < step ≤ span.

Local Abbreviation nest dst :=
  (for_loop (rounds 0 height 1) 0 1
     (fun i => for_loop (rounds 0 width step) 0 step (body i)) dst).

Lemma chunked_rows_frame (dst : buffer) (q : Z) :
  (∀ i t, 0 ≤ i < height → 0 ≤ t → step * t < width →
     ¬ (i * dst_stride + step * t ≤ q < i * dst_stride + step * t + span)) →
  nest dst q = dst q.
Proof.
  intros Hq.
  apply (for_loop_inv (fun _ d => d q = dst q)); [|reflexivity].
  intros ti d Hti Hd.
  pose proof (rounds_below 0 height 1 ti ltac:(lia) Hti) as Hi.
  apply (for_loop_inv (fun _ d => d q = dst q)); [|exact Hd].
  intros tj d' Htj Hd'.
  pose proof (rounds_below 0 width step tj ltac:(lia) Htj) as Hj.
  rewrite body_frame; [exact Hd'|].
  replace (0 + Z.of_nat tj * step) with (step * Z.of_nat tj) in * by lia.
  apply Hq; lia.
Qed.

Lemma chunked_rows_target (dst : buffer) (i c v : Z) :
  width ≤ dst_stride → 0 ≤ i < height → 0 ≤ c < width →
  (∀ j k, 0 ≤ j → 0 ≤ k < span → j + k = c → F i j k = v) →
  nest dst (i * dst_stride + c) = v.
Proof.
  intros Hds Hi Hc Hv.
  set (q := i * dst_stride + c).
  assert (Z.of_nat (rounds 0 height 1) = height) as Hrows.
  { unfold rounds. rewrite Z2Nat.id by (apply Z.div_pos; lia).
    replace (height - 0 + 1 - 1) with height by lia. apply Z.div_1_r. }
  pose proof (rounds_cover width step ltac:(lia) ltac:(lia)) as Hcover.
  enough (i < Z.of_nat (rounds 0 height 1) → nest dst q = v) as H by (apply H; lia).
  apply (for_loop_inv (fun t d => i < Z.of_nat t → d q = v)); [|lia].
  intros ti d Hti Hd Hlt.
  set (i' := 0 + Z.of_nat ti * 1).
  destruct (Z.eq_dec i' i) as [Hrow|Hrow].
  - (* the row of the target *)
    clearbody i'. subst i'.
    enough (c < step * Z.of_nat (rounds 0 width step) + (span - step) →
            0 < Z.of_nat (rounds 0 width step) →
            for_loop (rounds 0 width step) 0 step (body i) d q = v) as H
      by (apply H; lia).
    apply (for_loop_inv
             (fun t d => c < step * Z.of_nat t + (span - step) → 0 < Z.of_nat t → d q = v)); [|lia].
    intros tj d' Htj Hd' Hlt' _.
    set (j := 0 + Z.of_nat tj * step).
    destruct (Z_le_gt_dec j c) as [Hlo|Hlo].
    + destruct (Z_lt_ge_dec c (j + span)) as [Hhi|Hhi]; [|nia].
      replace q with (i * dst_stride + j + (c - j)) by (subst q; lia).
      rewrite body_stores by lia. apply Hv; lia.
    + rewrite body_frame by (subst q; nia). apply Hd'; nia.
  - (* a later row *)
    assert (i < i') as Hlater by lia.
    apply (for_loop_inv (fun _ d => d q = v)); [|apply Hd; lia].
    intros tj d' _ Hd'. rewrite body_frame; [exact Hd'|]. subst q. nia.
Qed.

End ChunkedRows.

Section FinalFilterFacts.
Import Sgr.

Variables SGRPROJ_SGR_BITS SGRPROJ_RST_BITS : Z.

Local Abbreviation filter := (final_filter SGRPROJ_SGR_BITS SGRPROJ_RST_BITS).
Local Abbreviation sample := (final_filter_sample SGRPROJ_SGR_BITS SGRPROJ_RST_BITS).
Local Abbreviation reg := (final_filter_w SGRPROJ_SGR_BITS SGRPROJ_RST_BITS).

(** Lane [k] of a chunk is the sample of the pixel [k] columns on. *)
Lemma lane_final_filter_w (A B : buffer) (buf_stride : Z) (dgd : buffer)
  (dgd_stride : Z) (highbd : bool) (i j k : Z) :
  0 ≤ k < 8 →
  lane (reg A B buf_stride dgd dgd_stride highbd i j) k
  = sample A B buf_stride dgd dgd_stride highbd i (j + k).
Proof.
  intros Hk. unfold final_filter_w, final_filter_sample, _mm256_srai_epi32, round_for_shift.
  rewrite lane_map256, !lane_add, lane_set1.
  unfold _mm256_madd_epi16. rewrite lane_zip256, !lane_cross_sum by exact Hk.
  assert (∀ M, nine_tap (M +> (i * buf_stride + j)) buf_stride k
               = nine_tap (M +> (i * buf_stride)) buf_stride (j + k)) as Htap.
  { intros M. unfold nine_tap, shift_view. f_equal.
    repeat match goal with |- _ + _ = _ + _ => f_equal end;
      f_equal; f_equal; lia. }
  rewrite !Htap.
  set (src := if highbd
              then _mm256_cvtepu16_epi32 (xx_loadu_128_short dgd (i * dgd_stride + j))
              else _mm256_cvtepu8_epi32 (xx_loadu_128 dgd (i * dgd_stride + j))).
  set (s := if highbd then wrap16 (dgd (i * dgd_stride + (j + k)))
            else wrap8 (dgd (i * dgd_stride + (j + k)))).
  assert (lane src k = s ∧ 0 ≤ s < 2 ^ 16) as [Hsrc Hs].
  { subst src s. destruct highbd.
    - split; [|apply wrap16_range].
      change (_mm256_cvtepu16_epi32 (xx_loadu_128_short dgd (i * dgd_stride + j)))
        with (yy256_load_extend_16_32 dgd (i * dgd_stride + j)).
      rewrite lane_load_extend_16 by exact Hk. do 2 f_equal. lia.
    - split.
      + change (_mm256_cvtepu8_epi32 (xx_loadu_128 dgd (i * dgd_stride + j)))
          with (yy256_load_extend_8_32 dgd (i * dgd_stride + j)).
        rewrite lane_load_extend_8 by exact Hk. do 2 f_equal. lia.
      + pose proof (wrap8_range (dgd (i * dgd_stride + (j + k)))). lia. }
  rewrite Hsrc. unfold lo16, hi16 at 2.
  rewrite !signed16_wrap16, (wrap32_small s), (Z.div_small s) by lia.
  change (signed16 0) with 0. rewrite Z.mul_0_r, Z.add_0_r. reflexivity.
Qed.

(** The value left at a pixel of the plane. *)
Lemma final_filter_at (dst : buffer) (dst_stride : Z) (A B : buffer)
  (buf_stride : Z) (dgd : buffer) (dgd_stride width height : Z) (highbd : bool) (i c : Z) :
  width ≤ dst_stride → 0 ≤ i < height → 0 ≤ c < width →
  filter dst dst_stride A B buf_stride dgd dgd_stride width height highbd
         (i * dst_stride + c)
  = sample A B buf_stride dgd dgd_stride highbd i c.
Proof.
  intros Hds Hi Hc. unfold final_filter.
  apply (chunked_rows_target
           (fun i j d => yy_storeu_256 d (i * dst_stride + j)
                           (reg A B buf_stride dgd dgd_stride highbd i j))
           (fun i j k => lane (reg A B buf_stride dgd dgd_stride highbd i j) k)
           4 8 dst_stride width height); try lia.
  - intros i' j d k Hk. unfold yy_storeu_256.
    replace ((i' * dst_stride + j <=? i' * dst_stride + j + k)
             && (i' * dst_stride + j + k <? i' * dst_stride + j + 8)) with true
      by (symmetry; apply andb_true_iff; split; [apply Z.leb_le|apply Z.ltb_lt]; lia).
    f_equal. lia.
  - intros i' j d q Hq. unfold yy_storeu_256.
    replace ((i' * dst_stride + j <=? q) && (q <? i' * dst_stride + j + 8)) with false
      by (symmetry; apply andb_false_iff;
          destruct (Z_le_gt_dec (i' * dst_stride + j) q);
          [right; apply Z.ltb_ge|left; apply Z.leb_gt]; lia).
    reflexivity.
  - intros j k Hj Hk Hjk. rewrite lane_final_filter_w by exact Hk. rewrite Hjk. reflexivity.
Qed.

(** X21: every pixel of the plane gets the sample that belongs to it: the
    chunks of eight overlap by four and run past the width, yet the
    value left at row [i], column [c] is the one the filter computes
    from the cross sums and the source sample at that very position. *)
Theorem final_filter_pixelwise (dst : buffer) (dst_stride : Z) (A B : buffer)
  (buf_stride : Z) (dgd : buffer) (dgd_stride width height : Z) (highbd : bool) (i c : Z) :
  width ≤ dst_stride → 0 ≤ i < height → 0 ≤ c < width →
  final_filter SGRPROJ_SGR_BITS SGRPROJ_RST_BITS
    dst dst_stride A B buf_stride dgd dgd_stride width height highbd
    (i * dst_stride + c)
  = final_filter_sample SGRPROJ_SGR_BITS SGRPROJ_RST_BITS
      A B buf_stride dgd dgd_stride highbd i c.
Proof.
  intros Hds Hi Hc. apply final_filter_at; assumption.
Qed.

(** X22: [final_filter] stores eight elements at every fourth column below
    [width] of the rows below [height], so up to seven elements past the
    width of a row, and nowhere else. *)
Theorem final_filter_extent (dst : buffer) (dst_stride : Z) (A B : buffer)
  (buf_stride : Z) (dgd : buffer) (dgd_stride width height : Z) (highbd : bool) (q : Z) :
  (∀ i t, 0 ≤ i < height → 0 ≤ t → 4 * t < width →
     ¬ (i * dst_stride + 4 * t ≤ q < i * dst_stride + 4 * t + 8)) →
  final_filter SGRPROJ_SGR_BITS SGRPROJ_RST_BITS
    dst dst_stride A B buf_stride dgd dgd_stride width height highbd q
  = dst q.
Proof.
  intros Hq. unfold final_filter.
  apply (chunked_rows_frame
           (fun i j d => yy_storeu_256 d (i * dst_stride + j)
                           (reg A B buf_stride dgd dgd_stride highbd i j))
           4 8 dst_stride width height); try lia; [|exact Hq].
  intros i' j d q' Hq'. unfold yy_storeu_256.
  replace ((i' * dst_stride + j <=? q') && (q' <? i' * dst_stride + j + 8)) with false
    by (symmetry; apply andb_false_iff;
        destruct (Z_le_gt_dec (i' * dst_stride + j) q');
        [right; apply Z.ltb_ge|left; apply Z.leb_gt]; lia).
  reflexivity.
Qed.

End FinalFilterFacts.

Section BlendFacts.
Import Sgr.

Variables SGRPROJ_BORDER_VERT SGRPROJ_BORDER_HORZ : Z.
Variables SGRPROJ_MTABLE_BITS SGRPROJ_RECIP_BITS : Z.
Variables SGRPROJ_SGR_BITS SGRPROJ_RST_BITS SGRPROJ_PRJ_BITS : Z.
Variable sgrproj_mtable : Z → Z → Z.
Variable one_by_x : Z → Z.
Variable x_by_xplus1 : Z → Z.
Variable sgr_params : Z → sgr_params_type.
Variable decode_xq : buffer → Z * Z.

Local Abbreviation apply_sgr :=
  (apply_selfguided_restoration_avx2
     SGRPROJ_BORDER_VERT SGRPROJ_BORDER_HORZ SGRPROJ_MTABLE_BITS SGRPROJ_RECIP_BITS
     SGRPROJ_SGR_BITS SGRPROJ_RST_BITS SGRPROJ_PRJ_BITS
     sgrproj_mtable one_by_x x_by_xplus1 sgr_params decode_xq).
Local Abbreviation sgr :=
  (av1_selfguided_restoration_avx2
     SGRPROJ_BORDER_VERT SGRPROJ_BORDER_HORZ SGRPROJ_MTABLE_BITS SGRPROJ_RECIP_BITS
     SGRPROJ_SGR_BITS SGRPROJ_RST_BITS sgrproj_mtable one_by_x x_by_xplus1).
Local Abbreviation batch := (blend_batch SGRPROJ_RST_BITS SGRPROJ_PRJ_BITS).
Local Abbreviation blended := (batch_blend SGRPROJ_RST_BITS SGRPROJ_PRJ_BITS).
Local Abbreviation blend := (blend_w SGRPROJ_RST_BITS SGRPROJ_PRJ_BITS).
Local Abbreviation mix := (blend_sample SGRPROJ_RST_BITS SGRPROJ_PRJ_BITS).

Lemma lane_blend_w (xq : Z * Z) (flt1 flt2 : buffer) (kk : Z) (ep : m256i) (k : Z) :
  0 ≤ k < 8 →
  lane (blend (_mm256_set1_epi32 (fst xq)) (_mm256_set1_epi32 (snd xq)) flt1 flt2 kk ep) k
  = mix xq (flt1 (kk + k)) (flt2 (kk + k)) (lane ep k).
Proof.
  intros Hk. unfold blend_w, blend_sample, _mm256_srai_epi32, _mm256_slli_epi32,
    round_for_shift.
  rewrite lane_map256, !lane_add, !lane_mullo, !lane_sub, !lane_map256, !lane_set1,
    !lane_loadu by exact Hk.
  do 3 f_equal. unfold wrap32. Z.mod_equality.
Qed.

(** The sixteen blended values of a batch, pixel by pixel. *)
Lemma batch_lane_blend (dat : buffer) (width stride : Z) (xq : Z * Z) (flt1 flt2 : buffer)
  (highbd : bool) (i j t : Z) :
  0 ≤ t < 16 →
  batch_lane (fst (blended dat width stride xq flt1 flt2 highbd i j))
             (snd (blended dat width stride xq flt1 flt2 highbd i j)) t
  = mix xq (flt1 (i * width + (j + t))) (flt2 (i * width + (j + t)))
        (plane_sample dat stride highbd i (j + t)).
Proof.
  intros Ht. unfold batch_blend, batch_lane.
  set (datij := dat +> (i * stride + j)).
  assert (∀ k, 0 ≤ k < 8 →
            lane (_mm256_cvtepu16_epi32 (xx_loadu_128_short datij 0)) k
            = pixel16 dat stride i (j + k)) as H16a.
  { intros k Hk.
    change (_mm256_cvtepu16_epi32 (xx_loadu_128_short datij 0))
      with (yy256_load_extend_16_32 datij 0).
    rewrite lane_load_extend_16 by exact Hk. unfold pixel16, datij, shift_view.
    do 2 f_equal. lia. }
  assert (∀ k, 0 ≤ k < 8 →
            lane (_mm256_cvtepu16_epi32 (xx_loadu_128_short datij 8)) k
            = pixel16 dat stride i (j + (k + 8))) as H16b.
  { intros k Hk.
    change (_mm256_cvtepu16_epi32 (xx_loadu_128_short datij 8))
      with (yy256_load_extend_16_32 datij 8).
    rewrite lane_load_extend_16 by exact Hk. unfold pixel16, datij, shift_view.
    do 2 f_equal. lia. }
  assert (∀ k, 0 ≤ k < 8 →
            lane (_mm256_cvtepu8_epi32 (xx_loadu_128 datij 0)) k
            = pixel8 dat stride i (j + k)) as H8a.
  { intros k Hk.
    change (_mm256_cvtepu8_epi32 (xx_loadu_128 datij 0))
      with (yy256_load_extend_8_32 datij 0).
    rewrite lane_load_extend_8 by exact Hk. unfold pixel8, datij, shift_view.
    do 2 f_equal. lia. }
  assert (∀ k, 0 ≤ k < 8 →
            lane (_mm256_cvtepu8_epi32 (_mm_srli_si128 (xx_loadu_128 datij 0) 8)) k
            = pixel8 dat stride i (j + (k + 8))) as H8b.
  { intros k Hk.
    change (_mm256_cvtepu8_epi32 (_mm_srli_si128 (xx_loadu_128 datij 0) 8))
      with (yy256_load_extend_8_32 datij 8).
    rewrite lane_load_extend_8 by exact Hk. unfold pixel8, datij, shift_view.
    do 2 f_equal. lia. }
  unfold plane_sample.
  destruct highbd; cbv beta iota zeta; cbn [fst snd];
    destruct (Z.ltb_spec t 8) as [Hlt|Hge];
    rewrite lane_blend_w by lia;
    rewrite ?H16a, ?H16b, ?H8a, ?H8b by lia;
    repeat (f_equal; try lia).
Qed.

(** With both weights zero the blend of a sample is the sample itself,
    shifted up, rounded and shifted down again. *)
Lemma blend_sample_zero_weights (f1 f2 e : Z) :
  0 ≤ SGRPROJ_RST_BITS → 0 ≤ SGRPROJ_PRJ_BITS →
  SGRPROJ_PRJ_BITS + SGRPROJ_RST_BITS ≤ 30 →
  0 ≤ e → e * 2 ^ (SGRPROJ_PRJ_BITS + SGRPROJ_RST_BITS) < 2 ^ 30 →
  mix (0, 0) f1 f2 e = e.
Proof.
  intros Hr Hp HS30 He Hfit. unfold blend_sample. cbn [fst snd].
  set (S := SGRPROJ_PRJ_BITS + SGRPROJ_RST_BITS) in *.
  assert (0 < 2 ^ S) as HS by (apply Z.pow_pos_nonneg; lia).
  rewrite !Z.mul_0_l. change (wrap32 0) with 0.
  rewrite !sll32_mul by lia. rewrite Z.add_0_l. change (wrap32 0) with 0.
  rewrite ?Z.add_0_l.
  replace (wrap32 (wrap32 (wrap32 (e * 2 ^ SGRPROJ_RST_BITS) * 2 ^ SGRPROJ_PRJ_BITS)))
    with (e * 2 ^ S).
  2:{ transitivity (wrap32 (e * 2 ^ S)); [rewrite wrap32_small; lia|].
      subst S. rewrite (Z.add_comm SGRPROJ_PRJ_BITS), Z.pow_add_r by lia.
      unfold wrap32. Z.mod_equality. }
  rewrite Z.shiftl_1_l, Z.shiftr_div_pow2 by lia. change (2 ^ 1) with 2.
  assert (0 ≤ 2 ^ S / 2 ∧ 2 * (2 ^ S / 2) ≤ 2 ^ S ∧ 2 ^ S / 2 < 2 ^ S) as (Hh0 & Hh1 & Hh2).
  { split; [apply Z.div_pos; lia|]. split; [apply Z.mul_div_le; lia|].
    apply Z.div_lt; lia. }
  assert (2 ^ S ≤ 2 ^ 30) as HSmax by (apply Z.pow_le_mono_r; lia).
  rewrite (wrap32_small (2 ^ S / 2)) by lia.
  rewrite (wrap32_small (e * 2 ^ S + 2 ^ S / 2)) by lia.
  unfold sra32. rewrite signed32_nonneg_small by lia.
  rewrite Z.min_l by lia. rewrite Z.shiftr_div_pow2 by lia.
  rewrite Z.div_add_l by lia. rewrite (Z.div_small (2 ^ S / 2)) by lia.
  rewrite Z.add_0_r. apply wrap32_small. nia.
Qed.

(** X23: inside the picture the output is decided pixel by pixel: the sample
    at row [i], column [c] is the stored form of the blend of the source
    sample and of the two filtered samples of that pixel.  The batches of
    sixteen and the two permutes of the store do not mix pixels up. *)
Theorem restoration_pixelwise
  (dat : buffer) (width height stride eps : Z) (xqd dst : buffer) (dst_stride : Z)
  (flt1 flt2 : buffer) (bit_depth : Z) (highbd : bool) (i c : Z) :
  width ≤ dst_stride → 0 ≤ i < height → 0 ≤ c < width →
  let flt := sgr dat width height stride flt1 flt2 width (sgr_params eps) bit_depth highbd in
  apply_sgr dat width height stride eps xqd dst dst_stride flt1 flt2 bit_depth highbd
            (i * dst_stride + c)
  = stored_sample highbd bit_depth
      (mix (decode_xq xqd) (fst flt (i * width + c)) (snd flt (i * width + c))
           (plane_sample dat stride highbd i c)).
Proof.
  intros Hds Hi Hc flt. subst flt. unfold apply_selfguided_restoration_avx2.
  match goal with |- context [av1_selfguided_restoration_avx2 ?a1 ?a2 ?a3 ?a4 ?a5 ?a6
                                ?a7 ?a8 ?a9 ?b1 ?b2 ?b3 ?b4 ?b5 ?b6 ?b7 ?b8 ?b9 ?c1] =>
    destruct (av1_selfguided_restoration_avx2 a1 a2 a3 a4 a5 a6 a7 a8 a9
                b1 b2 b3 b4 b5 b6 b7 b8 b9 c1) as [f1 f2] end.
  cbn [fst snd].
  apply (chunked_rows_target
           (batch dat width stride (decode_xq xqd) f1 f2 dst_stride bit_depth highbd)
           (fun i j t =>
              stored_sample highbd bit_depth
                (batch_lane
                   (fst (blended dat width stride (decode_xq xqd) f1 f2 highbd i j))
                   (snd (blended dat width stride (decode_xq xqd) f1 f2 highbd i j)) t))
           16 16 dst_stride width height); try lia.
  - intros i' j d t Ht. apply blend_batch_sample, Ht.
  - intros i' j d q Hq. apply blend_batch_frame, Hq.
  - intros j t Hj Ht Hjt. rewrite batch_lane_blend by exact Ht. rewrite Hjt. reflexivity.
Qed.

(** X24: with both projection weights zero the restoration is the identity
    on the plane: every pixel of the output is the source sample at the
    same row and column, whatever the two filtered planes hold.  (In
    the high-bit-depth path for samples below [2^bit_depth].) *)
Theorem zero_weights_restore_source
  (dat : buffer) (width height stride eps : Z) (xqd dst : buffer) (dst_stride : Z)
  (flt1 flt2 : buffer) (bit_depth : Z) (highbd : bool) (i c : Z) :
  decode_xq xqd = (0, 0) →
  0 ≤ SGRPROJ_RST_BITS → 0 ≤ SGRPROJ_PRJ_BITS →
  width ≤ dst_stride → 0 ≤ i < height → 0 ≤ c < width →
  (if highbd
   then 1 ≤ bit_depth ≤ 15 ∧ bit_depth + SGRPROJ_PRJ_BITS + SGRPROJ_RST_BITS ≤ 30
        ∧ plane_sample dat stride true i c < 2 ^ bit_depth
   else SGRPROJ_PRJ_BITS + SGRPROJ_RST_BITS ≤ 22) →
  apply_sgr dat width height stride eps xqd dst dst_stride flt1 flt2 bit_depth highbd
            (i * dst_stride + c)
  = plane_sample dat stride highbd i c.
Proof.
  intros Hxq Hr Hp Hds Hi Hc Hfit. unfold apply_selfguided_restoration_avx2.
  match goal with |- context [av1_selfguided_restoration_avx2 ?a1 ?a2 ?a3 ?a4 ?a5 ?a6
                                ?a7 ?a8 ?a9 ?b1 ?b2 ?b3 ?b4 ?b5 ?b6 ?b7 ?b8 ?b9 ?c1] =>
    destruct (av1_selfguided_restoration_avx2 a1 a2 a3 a4 a5 a6 a7 a8 a9
                b1 b2 b3 b4 b5 b6 b7 b8 b9 c1) as [f1 f2] end.
  rewrite Hxq.
  assert (0 ≤ plane_sample dat stride highbd i c
          ∧ plane_sample dat stride highbd i c * 2 ^ (SGRPROJ_PRJ_BITS + SGRPROJ_RST_BITS) < 2 ^ 30
          ∧ stored_sample highbd bit_depth (plane_sample dat stride highbd i c)
            = plane_sample dat stride highbd i c) as (Hnn & Hsmall & Hclamp).
  { assert (0 < 2 ^ (SGRPROJ_PRJ_BITS + SGRPROJ_RST_BITS)) as HS
      by (apply Z.pow_pos_nonneg; lia).
    unfold stored_sample. destruct highbd.
    - destruct Hfit as (Hbd & Hsum & Hpix).
      assert (0 ≤ plane_sample dat stride true i c) as Hnn by apply wrap16_range.
      assert (2 ^ bit_depth ≤ 2 ^ 15) as Hb15 by (apply Z.pow_le_mono_r; lia).
      split; [exact Hnn|]. split.
      + assert (2 ^ bit_depth * 2 ^ (SGRPROJ_PRJ_BITS + SGRPROJ_RST_BITS) ≤ 2 ^ 30).
        { rewrite <- Z.pow_add_r by lia. apply Z.pow_le_mono_r; lia. }
        nia.
      + destruct (min_s16_clamps (plane_sample dat stride true i c) bit_depth Hbd)
          as [Hlow _].
        rewrite signed32_nonneg_small in Hlow by lia.
        destruct (Hlow ltac:(lia)) as [Hval _]. rewrite Hval. lia.
    - assert (0 ≤ plane_sample dat stride false i c < 2 ^ 8) as Hpix by apply wrap8_range.
      split; [lia|]. split.
      + assert (2 ^ (SGRPROJ_PRJ_BITS + SGRPROJ_RST_BITS) ≤ 2 ^ 22)
          by (apply Z.pow_le_mono_r; lia).
        nia.
      + rewrite signed32_nonneg_small by lia. unfold saturate.
        destruct (Z.ltb_spec (plane_sample dat stride false i c) 0); [lia|].
        destruct (Z.gtb_spec (plane_sample dat stride false i c) 255); lia. }
  apply (chunked_rows_target
           (batch dat width stride (0, 0) f1 f2 dst_stride bit_depth highbd)
           (fun i j t =>
              stored_sample highbd bit_depth
                (batch_lane (fst (blended dat width stride (0, 0) f1 f2 highbd i j))
                            (snd (blended dat width stride (0, 0) f1 f2 highbd i j)) t))
           16 16 dst_stride width height); try lia.
  - intros i' j d t Ht. apply blend_batch_sample, Ht.
  - intros i' j d q Hq. apply blend_batch_frame, Hq.
  - intros j t Hj Ht Hjt. rewrite batch_lane_blend by exact Ht. rewrite Hjt.
    rewrite blend_sample_zero_weights by (try assumption; destruct highbd; lia).
    exact Hclamp.
Qed.

(** X25: the blend stores sixteen samples at every sixteenth column below
    [width] of the rows below [height], so up to fifteen samples past the
    width of a row, and nowhere else; with no row or no column it stores
    nothing. *)
Theorem blend_extent
  (dat : buffer) (width height stride eps : Z) (xqd dst : buffer) (dst_stride : Z)
  (flt1 flt2 : buffer) (bit_depth : Z) (highbd : bool) (q : Z) :
  (∀ i t, 0 ≤ i < height → 0 ≤ t → 16 * t < width →
     ¬ (i * dst_stride + 16 * t ≤ q < i * dst_stride + 16 * t + 16)) →
  apply_sgr dat width height stride eps xqd dst dst_stride flt1 flt2 bit_depth highbd q
  = dst q.
Proof.
  intros Hq. unfold apply_selfguided_restoration_avx2.
  match goal with |- context [av1_selfguided_restoration_avx2 ?a1 ?a2 ?a3 ?a4 ?a5 ?a6
                                ?a7 ?a8 ?a9 ?b1 ?b2 ?b3 ?b4 ?b5 ?b6 ?b7 ?b8 ?b9 ?c1] =>
    destruct (av1_selfguided_restoration_avx2 a1 a2 a3 a4 a5 a6 a7 a8 a9
                b1 b2 b3 b4 b5 b6 b7 b8 b9 c1) as [f1 f2] end.
  apply (chunked_rows_frame
           (batch dat width stride (decode_xq xqd) f1 f2 dst_stride bit_depth highbd)
           16 16 dst_stride width height); try lia; [|exact Hq].
  intros i' j d q' Hq'. apply blend_batch_frame, Hq'.
Qed.

End BlendFacts.

Section PassIndependence.
Import Sgr.

(** Two runs of the same loop keep what each round keeps of the pair. *)
Lemma for_loop_rel {St : Type} (R : nat → St → St → Prop) (body : Z → St → St)
  (step : Z) (n : nat) (i0 : Z) (s0 s0' : St) :
  (∀ t s s', (t < n)%nat → R t s s' →
     R (S t) (body (i0 + Z.of_nat t * step) s) (body (i0 + Z.of_nat t * step) s')) →
  R 0%nat s0 s0' → R n (for_loop n i0 step body s0) (for_loop n i0 step body s0').
Proof.
  revert R i0 s0 s0'. induction n as [|n IH]; intros R i0 s0 s0' Hstep H0; [exact H0|].
  cbn [for_loop]. apply (IH (fun t s s' => R (S t) s s')).
  - intros t s s' Ht Hs.
    replace (i0 + step + Z.of_nat t * step) with (i0 + Z.of_nat (S t) * step) by lia.
    apply Hstep; [lia|exact Hs].
  - specialize (Hstep 0%nat s0 s0' ltac:(lia) H0).
    replace (i0 + Z.of_nat 0 * step) with i0 in Hstep by lia. exact Hstep.
Qed.

Variables SGRPROJ_BORDER_VERT SGRPROJ_BORDER_HORZ : Z.
Variables SGRPROJ_MTABLE_BITS SGRPROJ_RECIP_BITS : Z.
Variables SGRPROJ_SGR_BITS SGRPROJ_RST_BITS : Z.
Variable sgrproj_mtable : Z → Z → Z.
Variable one_by_x : Z → Z.
Variable x_by_xplus1 : Z → Z.

Local Abbreviation chunk :=
  (calc_ab_chunk SGRPROJ_MTABLE_BITS SGRPROJ_RECIP_BITS SGRPROJ_SGR_BITS
                 sgrproj_mtable one_by_x x_by_xplus1).
Local Abbreviation maps :=
  (calc_ab SGRPROJ_MTABLE_BITS SGRPROJ_RECIP_BITS SGRPROJ_SGR_BITS
           sgrproj_mtable one_by_x x_by_xplus1).
Local Abbreviation sample := (final_filter_sample SGRPROJ_SGR_BITS SGRPROJ_RST_BITS).
Local Abbreviation sgr :=
  (av1_selfguided_restoration_avx2
     SGRPROJ_BORDER_VERT SGRPROJ_BORDER_HORZ SGRPROJ_MTABLE_BITS SGRPROJ_RECIP_BITS
     SGRPROJ_SGR_BITS SGRPROJ_RST_BITS sgrproj_mtable one_by_x x_by_xplus1).

(** A chunk stores values that do not depend on what [A] and [B] held. *)
Lemma calc_ab_chunk_overwrites (C D : buffer) (buf_stride eps bit_depth r i j : Z)
  (A B A' B' : buffer) (q : Z) :
  i * buf_stride + j ≤ q < i * buf_stride + j + 8 →
  fst (chunk C D buf_stride eps bit_depth r i j (A, B)) q
  = fst (chunk C D buf_stride eps bit_depth r i j (A', B')) q
  ∧ snd (chunk C D buf_stride eps bit_depth r i j (A, B)) q
    = snd (chunk C D buf_stride eps bit_depth r i j (A', B')) q.
Proof.
  intros Hq. unfold calc_ab_chunk. cbn [fst snd]. unfold yy_storeu_256.
  replace ((i * buf_stride + j <=? q) && (q <? i * buf_stride + j + 8)) with true
    by (symmetry; apply andb_true_iff; split; [apply Z.leb_le|apply Z.ltb_lt]; lia).
  split; reflexivity.
Qed.

(** Where [calc_ab] stores, the result is the same from any start. *)
Lemma calc_ab_region_same (A B A' B' C D : buffer)
  (width height buf_stride eps bit_depth r i c : Z) :
  width + 1 < buf_stride → -1 ≤ i ≤ height → -1 ≤ c ≤ width →
  fst (maps A B C D width height buf_stride eps bit_depth r) (i * buf_stride + c)
  = fst (maps A' B' C D width height buf_stride eps bit_depth r) (i * buf_stride + c)
  ∧ snd (maps A B C D width height buf_stride eps bit_depth r) (i * buf_stride + c)
    = snd (maps A' B' C D width height buf_stride eps bit_depth r) (i * buf_stride + c).
Proof.
  intros Hbs Hi Hc. unfold calc_ab. set (q := i * buf_stride + c).
  set (same := fun (s s' : buffer * buffer) => fst s q = fst s' q ∧ snd s q = snd s' q).
  assert (Z.of_nat (rounds (-1) (height + 1) 1) = height + 2) as Hrows.
  { unfold rounds. rewrite Z2Nat.id by (apply Z.div_pos; lia).
    replace (height + 1 - -1 + 1 - 1) with (height + 2) by lia. apply Z.div_1_r. }
  assert (width + 2 ≤ 8 * Z.of_nat (rounds (-1) (width + 1) 8)) as Hcover.
  { unfold rounds. rewrite Z2Nat.id by (apply Z.div_pos; lia).
    pose proof (Z.div_mod (width + 1 - -1 + 8 - 1) 8 ltac:(lia)).
    pose proof (Z.mod_pos_bound (width + 1 - -1 + 8 - 1) 8 ltac:(lia)). lia. }
  enough (i < -1 + Z.of_nat (rounds (-1) (height + 1) 1) →
          same (for_loop (rounds (-1) (height + 1) 1) (-1) 1
                  (fun i => for_loop (rounds (-1) (width + 1) 8) (-1) 8
                              (fun j => chunk C D buf_stride eps bit_depth r i j)) (A, B))
               (for_loop (rounds (-1) (height + 1) 1) (-1) 1
                  (fun i => for_loop (rounds (-1) (width + 1) 8) (-1) 8
                              (fun j => chunk C D buf_stride eps bit_depth r i j)) (A', B')))
    as H by (apply H; lia).
  apply (for_loop_rel (fun t s s' => i < -1 + Z.of_nat t → same s s')); [|lia].
  intros ti s s' Hti Hs Hlt.
  set (i' := -1 + Z.of_nat ti * 1).
  destruct (Z.eq_dec i' i) as [Hrow|Hrow].
  - clearbody i'. subst i'.
    enough (c < -1 + 8 * Z.of_nat (rounds (-1) (width + 1) 8) →
            same (for_loop (rounds (-1) (width + 1) 8) (-1) 8
                    (fun j => chunk C D buf_stride eps bit_depth r i j) s)
                 (for_loop (rounds (-1) (width + 1) 8) (-1) 8
                    (fun j => chunk C D buf_stride eps bit_depth r i j) s'))
      as H by (apply H; lia).
    apply (for_loop_rel (fun t s s' => c < -1 + 8 * Z.of_nat t → same s s')); [|lia].
    intros tj [A1 B1] [A1' B1'] Htj Hs1 Hlt'.
    set (j := -1 + Z.of_nat tj * 8).
    destruct (Z_le_gt_dec j c) as [Hlo|Hlo].
    + apply calc_ab_chunk_overwrites. subst q. lia.
    + destruct (calc_ab_chunk_stores SGRPROJ_MTABLE_BITS SGRPROJ_RECIP_BITS SGRPROJ_SGR_BITS
                  sgrproj_mtable one_by_x x_by_xplus1
                  C D buf_stride eps bit_depth r i j A1 B1 q) as [_ Hout].
      destruct (calc_ab_chunk_stores SGRPROJ_MTABLE_BITS SGRPROJ_RECIP_BITS SGRPROJ_SGR_BITS
                  sgrproj_mtable one_by_x x_by_xplus1
                  C D buf_stride eps bit_depth r i j A1' B1' q) as [_ Hout'].
      destruct (Hout ltac:(subst q; lia)) as [E1 E2].
      destruct (Hout' ltac:(subst q; lia)) as [E1' E2'].
      unfold same. rewrite E1, E2, E1', E2'. apply Hs1. lia.
  - assert (i < i') as Hlater by lia.
    apply (for_loop_rel (fun _ s s' => same s s')); [|apply Hs; lia].
    intros tj [A1 B1] [A1' B1'] _ Hs1.
    set (j := -1 + Z.of_nat tj * 8).
    destruct (calc_ab_chunk_stores SGRPROJ_MTABLE_BITS SGRPROJ_RECIP_BITS SGRPROJ_SGR_BITS
                sgrproj_mtable one_by_x x_by_xplus1
                C D buf_stride eps bit_depth r i' j A1 B1 q) as [_ Hout].
    destruct (calc_ab_chunk_stores SGRPROJ_MTABLE_BITS SGRPROJ_RECIP_BITS SGRPROJ_SGR_BITS
                sgrproj_mtable one_by_x x_by_xplus1
                C D buf_stride eps bit_depth r i' j A1' B1' q) as [_ Hout'].
    assert (¬ (i' * buf_stride + j ≤ q < i' * buf_stride + j + 8)) as Hno
      by (subst q j; nia).
    destruct (Hout Hno) as [E1 E2]. destruct (Hout' Hno) as [E1' E2'].
    unfold same. rewrite E1, E2, E1', E2'. exact Hs1.
Qed.

(** X26: [calc_ab] overwrites the whole region that [final_filter] reads:
    in the rows -1..[height] and the columns -1..[width] the two maps
    it leaves do not depend on what [A] and [B] held before. *)
Theorem calc_ab_overwrites (A B A' B' C D : buffer)
  (width height buf_stride eps bit_depth r i c : Z) :
  width + 1 < buf_stride → -1 ≤ i ≤ height → -1 ≤ c ≤ width →
  fst (maps A B C D width height buf_stride eps bit_depth r) (i * buf_stride + c)
  = fst (maps A' B' C D width height buf_stride eps bit_depth r) (i * buf_stride + c)
  ∧ snd (maps A B C D width height buf_stride eps bit_depth r) (i * buf_stride + c)
    = snd (maps A' B' C D width height buf_stride eps bit_depth r) (i * buf_stride + c).
Proof.
  intros Hbs Hi Hc. apply calc_ab_region_same; assumption.
Qed.

(** The sample of a pixel reads the two maps in the 3x3 neighbourhood of
    the pixel only. *)
Lemma final_filter_sample_ext (A B A' B' : buffer) (buf_stride : Z) (dgd : buffer)
  (dgd_stride : Z) (highbd : bool) (i c : Z) :
  (∀ dy dx, -1 ≤ dy ≤ 1 → -1 ≤ dx ≤ 1 →
     A ((i + dy) * buf_stride + (c + dx)) = A' ((i + dy) * buf_stride + (c + dx))
     ∧ B ((i + dy) * buf_stride + (c + dx)) = B' ((i + dy) * buf_stride + (c + dx))) →
  sample A B buf_stride dgd dgd_stride highbd i c
  = sample A' B' buf_stride dgd dgd_stride highbd i c.
Proof.
  intros Hnb. unfold final_filter_sample.
  assert (∀ (M M' : buffer),
            (∀ dy dx, -1 ≤ dy ≤ 1 → -1 ≤ dx ≤ 1 →
               M ((i + dy) * buf_stride + (c + dx)) = M' ((i + dy) * buf_stride + (c + dx))) →
            nine_tap (M +> (i * buf_stride)) buf_stride c
            = nine_tap (M' +> (i * buf_stride)) buf_stride c) as Htap.
  { intros M M' HM. unfold nine_tap, shift_view.
    replace (i * buf_stride + (c - 1 - buf_stride)) with ((i + -1) * buf_stride + (c + -1)) by lia.
    replace (i * buf_stride + (c - buf_stride)) with ((i + -1) * buf_stride + (c + 0)) by lia.
    replace (i * buf_stride + (c + 1 - buf_stride)) with ((i + -1) * buf_stride + (c + 1)) by lia.
    replace (i * buf_stride + (c - 1)) with ((i + 0) * buf_stride + (c + -1)) by lia.
    replace (i * buf_stride + c) with ((i + 0) * buf_stride + (c + 0)) by lia.
    replace (i * buf_stride + (c + 1)) with ((i + 0) * buf_stride + (c + 1)) by lia.
    replace (i * buf_stride + (c - 1 + buf_stride)) with ((i + 1) * buf_stride + (c + -1)) by lia.
    replace (i * buf_stride + (c + buf_stride)) with ((i + 1) * buf_stride + (c + 0)) by lia.
    replace (i * buf_stride + (c + 1 + buf_stride)) with ((i + 1) * buf_stride + (c + 1)) by lia.
    rewrite !HM by lia. reflexivity. }
  rewrite (Htap A A') by (intros; apply Hnb; assumption).
  rewrite (Htap B B') by (intros; apply Hnb; assumption).
  reflexivity.
Qed.

(** X27: inside the picture each of the two filtered planes depends on the
    source and on its own radius and strength only: not on the
    parameters of the other pass, although the second pass reuses the
    maps of the first, and not on what the two output planes held. *)
Theorem selfguided_passes_independent
  (dgd : buffer) (width height dgd_stride : Z) (flt1 flt2 flt1' flt2' : buffer)
  (flt_stride : Z) (p p' : sgr_params_type) (bit_depth : Z) (highbd : bool) (i c : Z) :
  0 ≤ SGRPROJ_BORDER_HORZ →
  width ≤ flt_stride → 0 ≤ i < height → 0 ≤ c < width →
  let out := sgr dgd width height dgd_stride flt1 flt2 flt_stride p bit_depth highbd in
  let out' := sgr dgd width height dgd_stride flt1' flt2' flt_stride p' bit_depth highbd in
  (r1 p = r1 p' → e1 p = e1 p' →
   fst out (i * flt_stride + c) = fst out' (i * flt_stride + c))
  ∧ (r2 p = r2 p' → e2 p = e2 p' →
     snd out (i * flt_stride + c) = snd out' (i * flt_stride + c)).
Proof.
  intros Hbh Hfs Hi Hc out out'. subst out out'.
  unfold av1_selfguided_restoration_avx2.
  destruct (sgr_integral_images _ _ dgd width height dgd_stride highbd) as [C D].
  set (bs := sgr_buf_stride SGRPROJ_BORDER_HORZ width).
  assert (width + 1 < bs) as Hbs.
  { subst bs. unfold sgr_buf_stride, width_ext. rewrite align_8.
    pose proof (Z.div_mod (width + 2 * SGRPROJ_BORDER_HORZ + 16 + 7) 8 ltac:(lia)).
    pose proof (Z.mod_pos_bound (width + 2 * SGRPROJ_BORDER_HORZ + 16 + 7) 8 ltac:(lia)).
    lia. }
  set (A0 := (fun _ : Z => 0) +> origin SGRPROJ_BORDER_VERT SGRPROJ_BORDER_HORZ bs).
  destruct (maps A0 A0 C D width height bs (e1 p) bit_depth (r1 p)) as [A1 B1] eqn:E1.
  destruct (maps A0 A0 C D width height bs (e1 p') bit_depth (r1 p')) as [A1' B1'] eqn:E1'.
  destruct (maps A1 B1 C D width height bs (e2 p) bit_depth (r2 p)) as [A2 B2] eqn:E2.
  destruct (maps A1' B1' C D width height bs (e2 p') bit_depth (r2 p')) as [A2' B2'] eqn:E2'.
  cbn [fst snd]. rewrite !final_filter_at by assumption.
  split.
  - intros Hr He. rewrite <- Hr, <- He in E1'. rewrite E1 in E1'.
    injection E1' as <- <-. reflexivity.
  - intros Hr He. rewrite <- Hr, <- He in E2'.
    apply final_filter_sample_ext. intros dy dx Hdy Hdx.
    pose proof (calc_ab_region_same A1 B1 A1' B1' C D width height bs (e2 p) bit_depth (r2 p)
                  (i + dy) (c + dx) Hbs ltac:(lia) ltac:(lia)) as Hsame.
    rewrite E2, E2' in Hsame. exact Hsame.
Qed.

End PassIndependence.

Section VarianceProxy.
Import Sgr.

Variables SGRPROJ_BORDER_VERT SGRPROJ_BORDER_HORZ : Z.

Lemma window_sum_bound (f : Z → Z → Z) (M r y x : Z) :
  0 ≤ r → (∀ y' x', 0 ≤ f y' x' ≤ M) →
  0 ≤ window_sum f r y x ≤ M * ((2 * r + 1) * (2 * r + 1)).
Proof.
  intros Hr Hf. unfold window_sum.
  pose proof (sum_range_bound (y - r) (y + r + 1) (M * (2 * r + 1))
                (fun y' => sum_range (x - r) (x + r + 1) (fun x' => f y' x'))
                ltac:(lia)) as Hb.
  replace (M * (2 * r + 1) * (y + r + 1 - (y - r))) with (M * ((2 * r + 1) * (2 * r + 1)))
    in Hb by ring.
  apply Hb. intros t _. cbv beta.
  pose proof (sum_range_bound (x - r) (x + r + 1) M (fun x' => f t x') ltac:(lia)
                ltac:(intros; apply Hf)) as Hi.
  replace (x + r + 1 - (x - r)) with (2 * r + 1) in Hi by lia. exact Hi.
Qed.

(** The squared distances of [n] terms from any [x] add up to a
    non-negative number; Cauchy-Schwarz follows: the square of a sum of
    [n] terms is at most [n] times the sum of the squares. *)
Lemma sum_upto_spread (n : nat) (g : Z → Z) (x : Z) :
  0 ≤ sum_upto n (fun t => g t * g t) - 2 * x * sum_upto n g + Z.of_nat n * (x * x).
Proof.
  induction n as [|n IH]; [cbn; lia|].
  cbn [sum_upto]. rewrite Nat2Z.inj_succ. unfold Z.succ.
  pose proof (Z.square_nonneg (g (Z.of_nat n) - x)). nia.
Qed.

Lemma sum_upto_square (n : nat) (g : Z → Z) :
  sum_upto n g * sum_upto n g ≤ Z.of_nat n * sum_upto n (fun t => g t * g t).
Proof.
  induction n as [|n IH]; [cbn; lia|].
  pose proof (sum_upto_spread n g (g (Z.of_nat n))) as Hs.
  cbn [sum_upto]. rewrite Nat2Z.inj_succ. unfold Z.succ. nia.
Qed.

Lemma sum_range_square (lo hi : Z) (g : Z → Z) :
  lo ≤ hi →
  sum_range lo hi g * sum_range lo hi g ≤ (hi - lo) * sum_range lo hi (fun t => g t * g t).
Proof.
  intros Hle. unfold sum_range.
  pose proof (sum_upto_square (Z.to_nat (hi - lo)) (fun t => g (lo + t))) as H.
  rewrite Z2Nat.id in H by lia. exact H.
Qed.

(** The same over a window: [n] times the sum of the squares is at least
    the square of the sum. *)
Lemma window_sum_square (f : Z → Z → Z) (r y x : Z) :
  0 ≤ r →
  window_sum f r y x * window_sum f r y x
  ≤ (2 * r + 1) * (2 * r + 1) * window_sum (sq f) r y x.
Proof.
  intros Hr. unfold window_sum, sq.
  set (G := fun y' => sum_range (x - r) (x + r + 1) (fun x' => f y' x')).
  set (Q := fun y' => sum_range (x - r) (x + r + 1) (fun x' => f y' x' * f y' x')).
  pose proof (sum_range_square (y - r) (y + r + 1) G ltac:(lia)) as H1.
  replace (y + r + 1 - (y - r)) with (2 * r + 1) in H1 by lia.
  assert (sum_range (y - r) (y + r + 1) (fun t => G t * G t)
          ≤ (2 * r + 1) * sum_range (y - r) (y + r + 1) Q) as H2.
  { rewrite <- sum_range_scale. apply sum_range_mono. intros t _.
    pose proof (sum_range_square (x - r) (x + r + 1) (fun x' => f t x') ltac:(lia)) as H.
    replace (x + r + 1 - (x - r)) with (2 * r + 1) in H by lia. exact H. }
  fold G Q. nia.
Qed.

(** X28: in the 8-bit path the variance proxy that [calc_ab] computes is
    exact for every plane size and every radius up to 5: each lane of [p]
    is [n] times the sum of the squares over the window minus the square
    of the sum over the window, as an [int32_t], although the integral
    images it is read from may have wrapped around; and it is never
    negative. *)
Theorem variance_proxy_exact_lowbd
  (dgd : buffer) (width height dgd_stride bit_depth r : Z) :
  0 ≤ width → 0 ≤ height → 0 ≤ r ≤ 5 →
  r + 1 ≤ Z.min SGRPROJ_BORDER_VERT SGRPROJ_BORDER_HORZ →
  bit_depth ≤ 8 →
  let pix := padded_pixel SGRPROJ_BORDER_VERT SGRPROJ_BORDER_HORZ dgd dgd_stride false in
  let s := sgr_buf_stride SGRPROJ_BORDER_HORZ width in
  let C := fst (sgr_integral_images SGRPROJ_BORDER_VERT SGRPROJ_BORDER_HORZ
                  dgd width height dgd_stride false) in
  let D := snd (sgr_integral_images SGRPROJ_BORDER_VERT SGRPROJ_BORDER_HORZ
                  dgd width height dgd_stride false) in
  let n := (2 * r + 1) * (2 * r + 1) in
  ∀ i j k, -1 ≤ i ≤ height → -1 ≤ j + k ≤ width → 0 ≤ k < 8 →
    let sum1 := window_sum pix r (i + SGRPROJ_BORDER_VERT) (j + k + SGRPROJ_BORDER_HORZ) in
    let sum2 :=
      window_sum (sq pix) r (i + SGRPROJ_BORDER_VERT) (j + k + SGRPROJ_BORDER_HORZ) in
    signed32 (lane (calc_ab_p C D s bit_depth r i j) k) = n * sum2 - sum1 * sum1
    ∧ 0 ≤ signed32 (lane (calc_ab_p C D s bit_depth r i j) k).
Proof.
  intros Hw Hh Hr Hborder Hbd pix s C D n i j k Hi Hjk Hk sum1 sum2.
  pose proof (window_sum_square pix r (i + SGRPROJ_BORDER_VERT)
                (j + k + SGRPROJ_BORDER_HORZ) ltac:(lia)) as Hcs.
  fold sum1 sum2 n in Hcs.
  enough (signed32 (lane (calc_ab_p C D s bit_depth r i j) k) = n * sum2 - sum1 * sum1)
    as Hp by (split; [exact Hp|lia]).
  assert (0 ≤ width_ext SGRPROJ_BORDER_HORZ width
          ∧ 0 ≤ height_ext SGRPROJ_BORDER_VERT height) as [Hwe Hhe]
    by (unfold width_ext, height_ext; lia).
  destruct (sgr_integral_images_rows SGRPROJ_BORDER_VERT SGRPROJ_BORDER_HORZ
              dgd width height dgd_stride false Hwe Hhe) as [HC HD].
  fold pix s C D in HC, HD.
  assert (∀ y x, 0 ≤ pix y x ≤ 255) as Hpix.
  { intros y x. unfold pix, padded_pixel, pixel8.
    match goal with |- context [wrap8 ?v] => pose proof (wrap8_range v) end. lia. }
  assert (∀ y x, madd_sq pix y x = sq pix y x) as Hsq.
  { intros y x. unfold madd_sq, sq. specialize (Hpix y x).
    rewrite signed16_small by lia. reflexivity. }
  assert (lane (boxsum_from_ii (D +> (i * s + j)) s r) k = wrap32 sum1) as H1.
  { subst sum1.
    rewrite (boxsum_from_ii_window
               (D +> - origin SGRPROJ_BORDER_VERT SGRPROJ_BORDER_HORZ s)
               (D +> (i * s + j)) s (width_ext SGRPROJ_BORDER_HORZ width)
               (height_ext SGRPROJ_BORDER_VERT height) pix r
               (i + SGRPROJ_BORDER_VERT + 1) (j + SGRPROJ_BORDER_HORZ + 1) k HD);
      try (unfold width_ext, height_ext; lia).
    - do 2 f_equal; lia.
    - intros q. unfold shift_view, origin, buf_diag_border. f_equal. lia. }
  assert (lane (boxsum_from_ii (C +> (i * s + j)) s r) k = wrap32 sum2) as H2.
  { subst sum2.
    rewrite (boxsum_from_ii_window
               (C +> - origin SGRPROJ_BORDER_VERT SGRPROJ_BORDER_HORZ s)
               (C +> (i * s + j)) s (width_ext SGRPROJ_BORDER_HORZ width)
               (height_ext SGRPROJ_BORDER_VERT height) (madd_sq pix) r
               (i + SGRPROJ_BORDER_VERT + 1) (j + SGRPROJ_BORDER_HORZ + 1) k HC);
      try (unfold width_ext, height_ext; lia).
    - f_equal. unfold window_sum.
      replace (i + SGRPROJ_BORDER_VERT + 1 - 1) with (i + SGRPROJ_BORDER_VERT) by lia.
      replace (j + SGRPROJ_BORDER_HORZ + 1 + k - 1) with (j + k + SGRPROJ_BORDER_HORZ) by lia.
      apply sum_range_rect_ext. intros y' x' _ _. apply Hsq.
    - intros q. unfold shift_view, origin, buf_diag_border. f_equal. lia. }
  assert (1 ≤ n ≤ 121) as Hn by (subst n; nia).
  pose proof (window_sum_bound pix 255 r (i + SGRPROJ_BORDER_VERT)
                (j + k + SGRPROJ_BORDER_HORZ) ltac:(lia) Hpix) as Hb1.
  pose proof (window_sum_bound (sq pix) 65025 r (i + SGRPROJ_BORDER_VERT)
                (j + k + SGRPROJ_BORDER_HORZ) ltac:(lia)
                ltac:(intros y' x'; unfold sq; specialize (Hpix y' x'); nia)) as Hb2.
  fold sum1 n in Hb1. fold sum2 n in Hb2.
  unfold calc_ab_p, compute_p. fold n.
  destruct (Z.gtb_spec bit_depth 8); [lia|].
  rewrite lane_sub, lane_mullo, lane_set1, lane_madd_square by (rewrite H1, wrap32_small; lia).
  rewrite H1, H2, !(wrap32_small sum1), (wrap32_small sum2), (wrap32_small n) by lia.
  rewrite signed16_small by lia.
  assert (0 ≤ sum2 * n ≤ 121 * 65025 * 121) as Hp2 by nia.
  assert (0 ≤ sum1 * sum1 ≤ 30855 * 30855) as Hp1 by nia.
  rewrite (wrap32_small (sum2 * n)), (wrap32_small (sum1 * sum1)) by lia.
  rewrite signed32_wrap32, signed32_small by lia. lia.
Qed.

End VarianceProxy.

Section VarianceProxyExamples.
Import Sgr.

Lemma variance_proxy_exact_lowbd_witness :
  let dgd : buffer := fun q => 200 + q mod 7 in
  let pix := padded_pixel 3 3 dgd 16 false in
  let C := fst (sgr_integral_images 3 3 dgd 2 1 16 false) in
  let D := snd (sgr_integral_images 3 3 dgd 2 1 16 false) in
  signed32 (lane (calc_ab_p C D (sgr_buf_stride 3 2) 8 2 0 0) 1)
  = (2 * 2 + 1) * (2 * 2 + 1) * window_sum (sq pix) 2 (0 + 3) (0 + 1 + 3)
    - window_sum pix 2 (0 + 3) (0 + 1 + 3) * window_sum pix 2 (0 + 3) (0 + 1 + 3).
Proof.
  intros dgd pix C D.
  exact (proj1 (variance_proxy_exact_lowbd 3 3 dgd 2 1 16 8 2
                  ltac:(lia) ltac:(lia) ltac:(lia) ltac:(lia) ltac:(lia)
                  0 0 1 ltac:(lia) ltac:(lia) ltac:(lia))).
Defined.

End VarianceProxyExamples.

Section KernelExamples.
Import Sgr.

Lemma load_extend_zero_extends_witness :
  signed32 (lane (yy256_load_extend_8_32 (fun q => 1000 + q) 5) 3) = (1000 + (5 + 3)) mod 2 ^ 8
  ∧ signed32 (lane (yy256_load_extend_16_32 (fun q => 1000 + q) 5) 3)
    = (1000 + (5 + 3)) mod 2 ^ 16.
Proof.
  exact (load_extend_zero_extends (fun q => 1000 + q) 5 3 ltac:(lia)).
Defined.

(** Sums that give a negative difference: [a * n - b * b] is
    [1 * 9 - 25 * 25], and [p] is 0. *)
Lemma compute_p_highbd_floor_witness :
  signed32 (lane (compute_p (_mm256_set1_epi32 100) (_mm256_set1_epi32 9) 10 9) 2) = 0.
Proof.
  pose proof (compute_p_highbd_floor (_mm256_set1_epi32 100) (_mm256_set1_epi32 9) 10 9 2
                ltac:(lia)) as H.
  cbv zeta in H. destruct H as [H _]. rewrite H. vm_compute. reflexivity.
Defined.

Lemma compute_p_lowbd_variance_witness :
  lane (compute_p (_mm256_set1_epi32 100) (_mm256_set1_epi32 1200) 8 9) 2
  = wrap32 (9 * lane (_mm256_set1_epi32 1200) 2
            - lane (_mm256_set1_epi32 100) 2 * lane (_mm256_set1_epi32 100) 2).
Proof.
  refine (compute_p_lowbd_variance (_mm256_set1_epi32 100) (_mm256_set1_epi32 1200) 8 9 2 _ _).
  - lia.
  - vm_compute. split; [discriminate|reflexivity].
Defined.

Lemma integral_images_exact_lowbd_witness :
  let src : buffer := fun q => 200 + q in
  snd (integral_images src 8 3 2 (fun _ => 7) (fun _ => 7) 16) (2 * 16 + 3)
  = prefix_sum (pixel8 src 8) 2 3.
Proof.
  intros src.
  refine (proj1 (integral_images_exact_lowbd src 8 3 2 (fun _ => 7) (fun _ => 7) 16
                   _ _ _ _ 2 3 _ _)).
  all: try lia.
  vm_compute. reflexivity.
Defined.

Lemma integral_images_exact_highbd_witness :
  let src : buffer := fun q => 1000 + q in
  fst (integral_images_highbd src 8 3 2 (fun _ => 7) (fun _ => 7) 16) (2 * 16 + 3)
  = prefix_sum (sq (pixel16 src 8)) 2 3.
Proof.
  intros src.
  refine (proj1 (proj2 (integral_images_exact_highbd src 8 3 2 (fun _ => 7) (fun _ => 7) 16 1023
                          _ _ _ _ _ _ 2 3 _ _))).
  all: try lia.
  - vm_compute. reflexivity.
  - intros y x Hy Hx. unfold pixel16, wrap16, src.
    assert (0 ≤ 1000 + (x + y * 8) < 1024) as Hr by lia.
    rewrite Z.mod_small; lia.
Defined.

Lemma integral_images_extent_witness :
  fst (integral_images (fun q => 200 + q) 8 3 2 (fun _ => 7) (fun _ => 7) 16) 1000 = 7
  ∧ snd (integral_images (fun q => 200 + q) 8 3 2 (fun _ => 7) (fun _ => 7) 16) 1000 = 7.
Proof.
  refine (integral_images_extent false (fun q => 200 + q) 8 3 2 (fun _ => 7) (fun _ => 7) 16 1000
            _ _).
  - lia.
  - change (Z.of_nat (rounds 0 3 8)) with 1. intros y x Hy Hx. lia.
Defined.

Lemma calc_ab_stored_values_witness :
  let AB := calc_ab 20 12 8 (fun _ _ => 3236) (fun _ => 455) (fun z => 256 - z)
                    (fun _ => 5) (fun _ => 6) (fun q => q * q) (fun q => q) 4 2 32 1 8 1 in
  (fst AB 33 = 5 ∨ ∃ z, 0 ≤ z ≤ 255 ∧ fst AB 33 = wrap32 (256 - z))
  ∧ (snd AB 33 = 6 ∨ 0 ≤ snd AB 33 < 2 ^ 31).
Proof.
  intros AB.
  exact (calc_ab_stored_values 20 12 8 (fun _ _ => 3236) (fun _ => 455) (fun z => 256 - z)
           (fun _ => 5) (fun _ => 6) (fun q => q * q) (fun q => q) 4 2 32 1 8 1 33
           ltac:(lia) ltac:(lia)).
Defined.

Lemma calc_ab_extent_witness :
  let AB := calc_ab 20 12 8 (fun _ _ => 3236) (fun _ => 455) (fun z => 256 - z)
                    (fun _ => 5) (fun _ => 6) (fun q => q * q) (fun q => q) 4 2 32 1 8 1 in
  fst AB 20 = 5 ∧ snd AB 20 = 6.
Proof.
  intros AB.
  refine (calc_ab_extent 20 12 8 (fun _ _ => 3236) (fun _ => 455) (fun z => 256 - z)
            (fun _ => 5) (fun _ => 6) (fun q => q * q) (fun q => q) 4 2 32 1 8 1 20 _).
  change (Z.of_nat (rounds (-1) (4 + 1) 8)) with 1. intros i j Hi Hj. lia.
Defined.

Lemma calc_ab_overwrites_witness :
  fst (calc_ab 20 12 8 (fun _ _ => 3236) (fun _ => 455) (fun z => 256 - z)
               (fun _ => 5) (fun _ => 6) (fun q => q * q) (fun q => q) 4 2 32 1 8 1)
      (1 * 32 + 3)
  = fst (calc_ab 20 12 8 (fun _ _ => 3236) (fun _ => 455) (fun z => 256 - z)
                 (fun q => q) (fun q => 2 * q) (fun q => q * q) (fun q => q) 4 2 32 1 8 1)
        (1 * 32 + 3).
Proof.
  exact (proj1 (calc_ab_overwrites 20 12 8 (fun _ _ => 3236) (fun _ => 455) (fun z => 256 - z)
                  (fun _ => 5) (fun _ => 6) (fun q => q) (fun q => 2 * q)
                  (fun q => q * q) (fun q => q) 4 2 32 1 8 1 1 3
                  ltac:(lia) ltac:(lia) ltac:(lia))).
Defined.

Lemma cross_sum_of_flat_witness :
  lane (cross_sum (fun _ => 200000000) 16) 3 = wrap32 (32 * 200000000).
Proof.
  refine (cross_sum_of_flat (fun _ => 200000000) 16 3 200000000 _ _); [lia|].
  intros dy dx _ _. reflexivity.
Defined.

Lemma final_filter_pixelwise_witness :
  final_filter 8 4 (fun _ => 0) 16 (fun q => q mod 256) (fun q => 3 * q) 32
               (fun q => 100 + q) 16 10 2 false (1 * 16 + 9)
  = final_filter_sample 8 4 (fun q => q mod 256) (fun q => 3 * q) 32
                        (fun q => 100 + q) 16 false 1 9.
Proof.
  exact (final_filter_pixelwise 8 4 (fun _ => 0) 16 (fun q => q mod 256) (fun q => 3 * q) 32
           (fun q => 100 + q) 16 10 2 false 1 9 ltac:(lia) ltac:(lia) ltac:(lia)).
Defined.

(** With a width of 10 the chunks start at the columns 0, 4 and 8 and the
    last one ends at column 15: column 16 of the last row is not
    written. *)
Lemma final_filter_extent_witness :
  final_filter 8 4 (fun _ => 77) 32 (fun q => q mod 256) (fun q => 3 * q) 32
               (fun q => 100 + q) 16 10 2 false (1 * 32 + 16) = 77.
Proof.
  refine (final_filter_extent 8 4 (fun _ => 77) 32 (fun q => q mod 256) (fun q => 3 * q) 32
            (fun q => 100 + q) 16 10 2 false (1 * 32 + 16) _).
  intros i t Hi Ht Hw. lia.
Defined.

End KernelExamples.

Section RestorationExamples.
Import Sgr.

Local Abbreviation restore :=
  (apply_selfguided_restoration_avx2 3 3 20 12 8 4 7
     (fun _ _ => 3236) (fun _ => 455) (fun z => 256 - z)
     (fun _ => {| r1 := 2; e1 := 12; r2 := 1; e2 := 4 |})
     (fun xqd => (xqd 0, 128 - xqd 0 - xqd 1))).
Local Abbreviation filtered :=
  (av1_selfguided_restoration_avx2 3 3 20 12 8 4
     (fun _ _ => 3236) (fun _ => 455) (fun z => 256 - z)).

Lemma restoration_pixelwise_witness :
  let dat : buffer := fun q => 100 + q in
  let xqd : buffer := fun q => 10 * q + 5 in
  let flt := filtered dat 20 2 32 (fun _ => 0) (fun _ => 0) 20
               {| r1 := 2; e1 := 12; r2 := 1; e2 := 4 |} 8 false in
  restore dat 20 2 32 0 xqd (fun _ => 0) 32 (fun _ => 0) (fun _ => 0) 8 false (1 * 32 + 17)
  = stored_sample false 8
      (blend_sample 4 7 (5, 128 - 5 - 15) (fst flt (1 * 20 + 17)) (snd flt (1 * 20 + 17))
                    (plane_sample dat 32 false 1 17)).
Proof.
  intros dat xqd flt.
  exact (restoration_pixelwise 3 3 20 12 8 4 7
           (fun _ _ => 3236) (fun _ => 455) (fun z => 256 - z)
           (fun _ => {| r1 := 2; e1 := 12; r2 := 1; e2 := 4 |})
           (fun xqd => (xqd 0, 128 - xqd 0 - xqd 1))
           dat 20 2 32 0 xqd (fun _ => 0) 32 (fun _ => 0) (fun _ => 0) 8 false 1 17
           ltac:(lia) ltac:(lia) ltac:(lia)).
Defined.

Lemma zero_weights_restore_source_witness :
  let dat : buffer := fun q => 100 + q in
  let xqd : buffer := fun q => if q =? 1 then 128 else 0 in
  restore dat 20 2 32 0 xqd (fun _ => 0) 32 (fun q => q) (fun q => 1000 * q) 8 false
          (1 * 32 + 17)
  = plane_sample dat 32 false 1 17.
Proof.
  intros dat xqd.
  refine (zero_weights_restore_source 3 3 20 12 8 4 7
            (fun _ _ => 3236) (fun _ => 455) (fun z => 256 - z)
            (fun _ => {| r1 := 2; e1 := 12; r2 := 1; e2 := 4 |})
            (fun xqd => (xqd 0, 128 - xqd 0 - xqd 1))
            dat 20 2 32 0 xqd (fun _ => 0) 32 (fun q => q) (fun q => 1000 * q) 8 false 1 17
            _ _ _ _ _ _ _).
  all: try lia.
  reflexivity.
Defined.

(** A row of 20 pixels is written in two batches, up to column 31: the
    element at column 40 of the last row keeps its value. *)
Lemma blend_extent_witness :
  let dat : buffer := fun q => 100 + q in
  let xqd : buffer := fun q => 10 * q + 5 in
  restore dat 20 2 32 0 xqd (fun _ => 99) 64 (fun _ => 0) (fun _ => 0) 8 false (1 * 64 + 40)
  = 99.
Proof.
  intros dat xqd.
  refine (blend_extent 3 3 20 12 8 4 7
            (fun _ _ => 3236) (fun _ => 455) (fun z => 256 - z)
            (fun _ => {| r1 := 2; e1 := 12; r2 := 1; e2 := 4 |})
            (fun xqd => (xqd 0, 128 - xqd 0 - xqd 1))
            dat 20 2 32 0 xqd (fun _ => 99) 64 (fun _ => 0) (fun _ => 0) 8 false
            (1 * 64 + 40) _).
  intros i t Hi Ht Hw. lia.
Defined.

Lemma selfguided_passes_independent_witness :
  let dat : buffer := fun q => 100 + q in
  snd (filtered dat 20 2 32 (fun _ => 0) (fun _ => 0) 20
         {| r1 := 2; e1 := 12; r2 := 1; e2 := 4 |} 8 false) (1 * 20 + 17)
  = snd (filtered dat 20 2 32 (fun q => q) (fun q => 7 * q) 20
           {| r1 := 1; e1 := 5; r2 := 1; e2 := 4 |} 8 false) (1 * 20 + 17).
Proof.
  intros dat.
  pose proof (selfguided_passes_independent 3 3 20 12 8 4
                (fun _ _ => 3236) (fun _ => 455) (fun z => 256 - z)
                dat 20 2 32 (fun _ => 0) (fun _ => 0) (fun q => q) (fun q => 7 * q) 20
                {| r1 := 2; e1 := 12; r2 := 1; e2 := 4 |}
                {| r1 := 1; e1 := 5; r2 := 1; e2 := 4 |} 8 false 1 17
                ltac:(lia) ltac:(lia) ltac:(lia) ltac:(lia)) as H.
  cbv zeta in H. exact (proj2 H eq_refl eq_refl).
Defined.

End RestorationExamples.
